(** * HyperionSort: a shallow embedding of [src/HyperionSort.py]

    Conventions of the embedding.

    - A numpy [float64] array is a [list Q]: every finite float is the
      rational it denotes.  Rounding, and [inf] and [nan] as elements
      of an array, are outside the model.  A scalar that numpy computes
      from an array may be [nan] ([npfloat]), and where the arithmetic
      of the source itself leaves the finite floats (a division by a
      zero range, the range of [_bucket_sort] overflowing to [inf],
      the [exp] of [_radix_sort] growing out of [int64]) the model
      says what follows.  An [int64] array is a list of the same kind
      with its [dtype] kept beside it; the wrap-around of [int64]
      arithmetic is outside the model.
    - Python exceptions are the constructors of [exn]; a fallible
      function returns [exn + A].  Only the exceptions the source itself
      can cause are modelled: failures of the machine (memory, the
      recursion limit, the temporary file) are not.
    - A [dict] is a [gmap]; a bounded [collections.deque] is a list
      together with its [maxlen].
    - Library calls have the meaning their library documents for the
      arguments the source passes.  [functools.lru_cache] memoizes;
      [numba.jit(nopython=True)] compiles at the first call and raises
      [TypingError] for an argument it has no type for; worker pools
      map a function over a list in order.
    - What the engine reads from outside the repository (the random
      generator, the operating system, the LZ4 codec, the trained
      predictor) is a field of the record [Env].
    - Loops that are not structural carry a fuel; for each of them a
      lemma shows that the fuel given is enough. *)

From Stdlib Require Import ZArith QArith Qround Lia Lqa List.
From Stdlib Require Import Sorting.Sorted Sorting.Permutation.
From stdpp Require Import gmap strings list fin_maps pretty.
Import ListNotations.

Open Scope Z_scope.

(** ** Exceptions and fallible results *)

Inductive exn : Type :=
| IndexError
| ValueError
| ZeroDivisionError
| TypeError
| TypingError
| OverflowError.

Definition result (A : Type) : Type := (exn + A)%type.

Definition ok {A : Type} (a : A) : result A := inr a.
Definition raise {A : Type} (e : exn) : result A := inl e.

Definition rbind {A B : Type} (m : result A) (f : A -> result B) : result B :=
  match m with
  | inl e => inl e
  | inr a => f a
  end.

(** ** Comparisons on exact rationals *)

Definition Qltb (x y : Q) : bool := negb (Qle_bool y x).
Definition Qgtb (x y : Q) : bool := Qltb y x.
Definition Qleb (x y : Q) : bool := Qle_bool x y.
Definition Qgeb (x y : Q) : bool := Qle_bool y x.
Definition Qeqb (x y : Q) : bool := Qeq_bool x y.

(** A float scalar that numpy computed from an array: finite, or [nan]
    (every comparison with [nan] is false). *)
Inductive npfloat : Type :=
| Finite (q : Q)
| NaN.

(** The value of a float known to be finite. *)
Definition float_value (p : npfloat) : Q :=
  match p with Finite q => q | NaN => 0%Q end.

Definition lt_float (x : Q) (p : npfloat) : bool :=
  match p with Finite q => Qltb x q | NaN => false end.
Definition eq_float (x : Q) (p : npfloat) : bool :=
  match p with Finite q => Qeqb x q | NaN => false end.
Definition gt_float (x : Q) (p : npfloat) : bool :=
  match p with Finite q => Qgtb x q | NaN => false end.

(** ** [collections.deque(maxlen=n)] *)

Module Deque.

Record deque (A : Type) : Type := mk {
  maxlen : nat;
  items : list A
}.
Arguments mk {A} _ _.
Arguments maxlen {A} _.
Arguments items {A} _.

Definition empty {A : Type} (n : nat) : deque A := mk n [].

Definition len {A : Type} (d : deque A) : nat := length (items d).

(** [d.append(x)]: a full deque discards its leftmost item first; a
    deque of capacity zero stays empty. *)
Definition append {A : Type} (x : A) (d : deque A) : deque A :=
  if (maxlen d =? 0)%nat then d
  else if (maxlen d <=? length (items d))%nat
       then mk (maxlen d) (tl (items d) ++ [x])
       else mk (maxlen d) (items d ++ [x]).

(** [d.popleft()] raises [IndexError] on an empty deque. *)
Definition popleft {A : Type} (d : deque A) : result (A * deque A) :=
  match items d with
  | [] => raise IndexError
  | x :: rest => ok (x, mk (maxlen d) rest)
  end.

Definition clear {A : Type} (d : deque A) : deque A := mk (maxlen d) [].

End Deque.

(** ** [AdaptiveCache] *)

Definition key : Type := (Z + string)%type.

Definition dict_len {V : Type} (m : gmap key V) : nat := base.size m.

Module AdaptiveCache.

Section WithValue.
Context {V : Type}.

(** [get_memo] is the table of the [functools.lru_cache] that wraps
    [get]: most recently used entry first. *)
Record t : Type := mk {
  cache : gmap key V;
  size : nat;
  hits : nat;
  misses : nat;
  _access_history : Deque.deque key;
  min_size : nat;
  get_memo : list (key * option V)
}.

Definition _resize_threshold : Q := 8 # 10.

Definition lru_maxsize : nat := 256.

Definition __init__ (initial_size : nat) : t :=
  mk ∅ initial_size 0 0 (Deque.empty initial_size)
     (initial_size / 2)%nat [].

Definition _should_resize (self : t) : bool :=
  match Deque.items (_access_history self) with
  | [] => false
  | _ =>
    let hit_rate : Q :=
      (inject_Z (Z.of_nat (hits self)) /
       inject_Z (Z.of_nat (hits self + misses self + 1)))%Q in
    Qltb hit_rate _resize_threshold
    || (Deque.len (_access_history self) <? min_size self)%nat
  end.

(** [int(self.size * 1.5)] *)
Definition grown (n : nat) : nat := (n * 3 / 2)%nat.

Definition resize (self : t) : t :=
  if _should_resize self then
    let size' := Nat.max (min_size self) (grown (size self)) in
    mk (cache self) size' (hits self) (misses self)
       (Deque.empty size') (min_size self) (get_memo self)
  else self.

(** The undecorated body of [get]. *)
Definition get_body (k : key) (self : t) : option V * t :=
  match cache self !! k with
  | Some v =>
    (Some v,
     mk (cache self) (size self) (S (hits self)) (misses self)
        (Deque.append k (_access_history self)) (min_size self)
        (get_memo self))
  | None =>
    let self1 :=
      mk (cache self) (size self) (hits self) (S (misses self))
         (_access_history self) (min_size self) (get_memo self) in
    (None, resize self1)
  end.

Fixpoint memo_find (k : key) (memo : list (key * option V))
  : option (option V) :=
  match memo with
  | [] => None
  | (k', r) :: rest =>
    if decide (k' = k) then Some r else memo_find k rest
  end.

Fixpoint memo_remove (k : key) (memo : list (key * option V))
  : list (key * option V) :=
  match memo with
  | [] => []
  | (k', r) :: rest =>
    if decide (k' = k) then rest else (k', r) :: memo_remove k rest
  end.

Definition with_memo (memo : list (key * option V)) (self : t) : t :=
  mk (cache self) (size self) (hits self) (misses self)
     (_access_history self) (min_size self) memo.

(** [get] as decorated with [@lru_cache(maxsize=256)]: a remembered
    call returns its remembered result and the body does not run. *)
Definition get (k : key) (self : t) : option V * t :=
  match memo_find k (get_memo self) with
  | Some r =>
    (r, with_memo ((k, r) :: memo_remove k (get_memo self)) self)
  | None =>
    let '(r, self') := get_body k self in
    (r, with_memo (take lru_maxsize ((k, r) :: get_memo self')) self')
  end.

Definition put (k : key) (value : V) (self : t) : result t :=
  rbind
    (if (size self <=? dict_len (cache self))%nat then
       rbind (Deque.popleft (_access_history self))
             (fun '(oldest, h) =>
                ok (delete oldest (cache self), h))
     else ok (cache self, _access_history self))
    (fun '(c, h) =>
       ok (mk (<[k := value]> c) (size self) (hits self) (misses self)
              (Deque.append k h) (min_size self) (get_memo self))).

End WithValue.

Arguments t : clear implicits.

End AdaptiveCache.


(** ** numpy primitives on exact rationals

    These are the library calls the source relies on, given by what
    numpy documents for them. *)

Module np.

(** [np.sort(a, kind="stable")], also Python's [sorted]: a stable
    ascending sort. *)
Fixpoint insert (x : Q) (l : list Q) : list Q :=
  match l with
  | [] => [x]
  | y :: l' => if Qleb x y then x :: y :: l' else y :: insert x l'
  end.

Definition sort (a : list Q) : list Q := foldr insert [] a.

(** [np.all(a[:-1] <= a[1:])] *)
Fixpoint is_sorted (a : list Q) : bool :=
  match a with
  | [] => true
  | x :: rest =>
    match rest with
    | [] => true
    | y :: _ => Qleb x y && is_sorted rest
    end
  end.

(** [a.min()] and [a.max()] raise [ValueError] on an empty array. *)
Definition Qmin (x y : Q) : Q := if Qleb x y then x else y.
Definition Qmax (x y : Q) : Q := if Qleb x y then y else x.

Definition min (a : list Q) : result Q :=
  match a with
  | [] => raise ValueError
  | x :: rest => ok (foldl Qmin x rest)
  end.

Definition max (a : list Q) : result Q :=
  match a with
  | [] => raise ValueError
  | x :: rest => ok (foldl Qmax x rest)
  end.

(** [np.ptp]: the range [max - min]. *)
Definition ptp (a : list Q) : result Q :=
  rbind (max a) (fun hi => rbind (min a) (fun lo => ok (hi - lo)%Q)).

(** [np.sum]; every partial sum is kept in lowest terms. *)
Definition sum (a : list Q) : Q := foldr (fun x acc => Qred (x + acc)) 0%Q a.

Definition len (a : list Q) : Q := inject_Z (Z.of_nat (length a)).

(** [np.mean]; the mean of an empty array is [nan]. *)
Definition mean (a : list Q) : npfloat :=
  match a with
  | [] => NaN
  | _ => Finite (sum a / len a)%Q
  end.

(** The population variance [np.var]; [np.std] is its square root, which
    the model never needs in isolation: a comparison [std < c] with
    [0 <= c] is the comparison [var < c^2]. *)
Definition var (a : list Q) : npfloat :=
  match mean a with
  | NaN => NaN
  | Finite m =>
    Finite (sum (map (fun x => (x - m) * (x - m))%Q a) / len a)%Q
  end.

(** [np.median]; the median of an empty array is [nan]. *)
Definition median (a : list Q) : npfloat :=
  let s := sort a in
  let n := length s in
  match n with
  | O => NaN
  | _ =>
    if Nat.even n
    then Finite ((nth (n / 2 - 1) s 0%Q + nth (n / 2) s 0%Q) / 2)%Q
    else Finite (nth (n / 2) s 0%Q)
  end.

(** [np.linspace(start, stop, num)] *)
Definition linspace (start stop : Q) (num : nat) : list Q :=
  match num with
  | O => []
  | 1%nat => [start]
  | _ =>
    let step := ((stop - start) / inject_Z (Z.of_nat (num - 1)))%Q in
    map (fun i => (start + inject_Z (Z.of_nat i) * step)%Q) (seq 0 num)
  end.

(** [np.percentile(a, q)] with the default linear interpolation, for one
    percentile [q] of a non-empty array: the virtual index
    [(n - 1) * q / 100] is split into its floor and its fraction. *)
Definition percentile1 (a : list Q) (q : Q) : Q :=
  let s := sort a in
  let n := length s in
  let vidx := (inject_Z (Z.of_nat (n - 1)) * q / 100)%Q in
  let lo := Z.to_nat (Qfloor vidx) in
  let hi := Nat.min (lo + 1) (n - 1) in
  let frac := (vidx - inject_Z (Qfloor vidx))%Q in
  (nth lo s 0 + frac * (nth hi s 0 - nth lo s 0))%Q.

Definition percentile (a : list Q) (qs : list Q) : list Q :=
  map (percentile1 a) qs.

(** [np.array_split(a, k)]: [k] consecutive sections, the first
    [len(a) mod k] of them one element longer. *)
Fixpoint split_sizes {A : Type} (sizes : list nat) (a : list A)
  : list (list A) :=
  match sizes with
  | [] => []
  | s :: rest => take s a :: split_sizes rest (drop s a)
  end.

Definition array_split {A : Type} (a : list A) (k : nat)
  : result (list (list A)) :=
  match k with
  | O => raise ValueError
  | _ =>
    let each := (length a / k)%nat in
    let extras := (length a mod k)%nat in
    ok (split_sizes (repeat (S each) extras ++ repeat each (k - extras)) a)
  end.

(** [np.concatenate] needs at least one array. *)
Definition concatenate {A : Type} (parts : list (list A)) : result (list A) :=
  match parts with
  | [] => raise ValueError
  | _ => ok (concat parts)
  end.

(** Boolean-mask selection [a[mask(a)]]. *)
Definition select (p : Q -> bool) (a : list Q) : list Q :=
  List.filter p a.

End np.


(** ** Python scalar helpers *)

(** [int(x)] on a finite float: truncation toward zero. *)
Definition py_int (x : Q) : Z :=
  if Qltb x 0 then Qceiling x else Qfloor x.

(** [seq[i]] for a Python [int] index: negative indices count from the
    end, anything outside raises [IndexError]. *)
Definition py_index (len : nat) (i : Z) : result nat :=
  if (0 <=? i) && (i <? Z.of_nat len) then ok (Z.to_nat i)
  else if (i <? 0) && (- Z.of_nat len <=? i) then ok (Z.to_nat (Z.of_nat len + i))
  else raise IndexError.

(** ** [StreamProcessor] *)

Module StreamProcessor.

Record t : Type := mk {
  chunk_size : nat;
  buffer : Deque.deque Q;
  chunks_processed : nat;
  last_chunk_size : nat;
  chunk_history : Deque.deque nat
}.

Definition __init__ (chunk_size : nat) : t :=
  mk chunk_size (Deque.empty chunk_size) 0 chunk_size (Deque.empty 5).

(** The least-squares line through [(1, y1), ..., (k, yk)], evaluated at
    [k + 1]: what [LinearRegression().fit(x, y).predict([[k + 1]])]
    computes, in exact arithmetic.  Only called with [k >= 2]. *)
Definition linear_predict_next (ys : list Q) : Q :=
  let k := length ys in
  let xs := map (fun i => inject_Z (Z.of_nat i)) (seq 1 k) in
  let xbar := (np.sum xs / np.len xs)%Q in
  let ybar := (np.sum ys / np.len ys)%Q in
  let sxy :=
    np.sum (map (fun '(x, y) => (x - xbar) * (y - ybar))%Q (combine xs ys)) in
  let sxx := np.sum (map (fun x => (x - xbar) * (x - xbar))%Q xs) in
  let slope := (sxy / sxx)%Q in
  (ybar + slope * (inject_Z (Z.of_nat (k + 1)) - xbar))%Q.

Definition with_chunk_size (c : nat) (self : t) : t :=
  mk c (buffer self) (chunks_processed self) (last_chunk_size self)
     (chunk_history self).

Definition _update_chunk_size (self : t) : t :=
  if (Deque.len (chunk_history self) <? 2)%nat then self
  else
    let y := map (fun n => inject_Z (Z.of_nat n))
                 (Deque.items (chunk_history self)) in
    let next_chunk_size := linear_predict_next y in
    with_chunk_size (Z.to_nat (Z.max 1000 (py_int next_chunk_size))) self.

(** One turn of the [for item in data_stream] loop: the new state and
    the window yielded in this turn, if any. *)
Definition feed (item : Q) (self : t) : t * option (list Q) :=
  let buf := Deque.append item (buffer self) in
  if (chunk_size self <=? Deque.len buf)%nat then
    let window := np.sort (Deque.items buf) in
    let hist := Deque.append (Deque.len buf) (chunk_history self) in
    let self' :=
      mk (chunk_size self) (Deque.clear buf) (S (chunks_processed self))
         (last_chunk_size self) hist in
    (_update_chunk_size self', Some window)
  else
    (mk (chunk_size self) buf (chunks_processed self)
        (last_chunk_size self) (chunk_history self), None).

(** What happens after the input is exhausted. *)
Definition finish (self : t) : t * option (list Q) :=
  match Deque.items (buffer self) with
  | [] => (self, None)
  | items =>
    (mk (chunk_size self) (buffer self) (S (chunks_processed self))
        (last_chunk_size self)
        (Deque.append (Deque.len (buffer self)) (chunk_history self)),
     Some (np.sort items))
  end.

Definition emit (w : option (list Q)) : list (list Q) :=
  match w with
  | Some window => [window]
  | None => []
  end.

(** [process_stream] run to exhaustion on a finite stream: the final
    state and the windows in the order they were yielded. *)
Fixpoint process_items (data_stream : list Q) (self : t)
  : t * list (list Q) :=
  match data_stream with
  | [] => (self, [])
  | item :: rest =>
    let '(self1, w) := feed item self in
    let '(self2, ws) := process_items rest self1 in
    (self2, emit w ++ ws)
  end.

Definition process_stream (data_stream : list Q) (self : t)
  : t * list (list Q) :=
  let '(self1, ws) := process_items data_stream self in
  let '(self2, w) := finish self1 in
  (self2, ws ++ emit w).

End StreamProcessor.


(** ** The algorithm library

    [_heapsort] works on the array object it is given and returns that
    same object: it is modelled as the function from the content of the
    object before the call to its content after the call.

    [_insertion_sort] is a method decorated with
    [numba.jit(nopython=True)].  A call [self._insertion_sort(arr)]
    hands [self] to the compiled function as its first argument; numba
    has no type for an [EnhancedHyperionSort] object, and in nopython
    mode the compilation that a call starts fails with [TypingError],
    a subclass of [Exception].  The body never runs; it is embedded as
    [_insertion_sort_py_func], the function the decorator wraps (numba
    keeps it as [py_func]). *)

Module Algo.

(** The [while j >= 0 and arr[j] > key] loop of [_insertion_sort];
    [j1] is [j + 1], the slot that is currently free. *)
Fixpoint shift_right (key : Q) (j1 : nat) (arr : list Q) : list Q :=
  match j1 with
  | O => <[0%nat := key]> arr
  | S j =>
    if Qgtb (nth j arr 0%Q) key
    then shift_right key j (<[S j := nth j arr 0%Q]> arr)
    else <[S j := key]> arr
  end.

Definition insertion_step (arr : list Q) (i : nat) : list Q :=
  shift_right (nth i arr 0%Q) i arr.

Definition _insertion_sort_py_func (arr : list Q) : list Q :=
  foldl insertion_step arr (seq 1 (length arr - 1)).

(** [self._insertion_sort(arr)] *)
Definition _insertion_sort (arr : list Q) : result (list Q) :=
  raise TypingError.

(** [arr[i], arr[j] = arr[j], arr[i]] *)
Definition swap (i j : nat) (arr : list Q) : list Q :=
  <[j := nth i arr 0%Q]> (<[i := nth j arr 0%Q]> arr).

(** The inner function [heapify(n, i)] of [_heapsort]; it recurses on a
    child of [i], so at most [n] times. *)
Fixpoint heapify (fuel : nat) (n i : nat) (arr : list Q) : list Q :=
  match fuel with
  | O => arr
  | S fuel' =>
    let largest := i in
    let left := (2 * i + 1)%nat in
    let right := (2 * i + 2)%nat in
    let largest :=
      if (left <? n)%nat && Qgtb (nth left arr 0%Q) (nth largest arr 0%Q)
      then left else largest in
    let largest :=
      if (right <? n)%nat && Qgtb (nth right arr 0%Q) (nth largest arr 0%Q)
      then right else largest in
    if (largest =? i)%nat then arr
    else heapify fuel' n largest (swap i largest arr)
  end.

(** [range(start, -1, -1)] for [start = k - 1]. *)
Definition range_down (k : nat) : list nat := rev (seq 0 k).

Definition _heapsort (arr : list Q) : list Q :=
  let n := length arr in
  let arr1 :=
    foldl (fun a i => heapify n n i a) arr (range_down (n / 2)) in
  foldl (fun a i => heapify n i 0 (swap 0 i a)) arr1
        (rev (seq 1 (n - 1))).

(** [_ninther]: below nine elements the median of the array, otherwise
    the median of the medians of the three triples
    [arr[i], arr[i + thirds], arr[i + 2 * thirds]], [i = 0, 1, 2]. *)
Definition _ninther (arr : list Q) : npfloat :=
  if (length arr <? 9)%nat then np.median arr
  else
    let thirds := (length arr / 3)%nat in
    let medians :=
      map (fun i =>
             np.median [nth i arr 0%Q;
                        nth (i + thirds) arr 0%Q;
                        nth (i + 2 * thirds) arr 0%Q])
          (seq 0 3) in
    np.median (map float_value medians).

Definition three_way (arr : list Q) (pivot : npfloat)
  : list Q * list Q * list Q :=
  (np.select (fun x => lt_float x pivot) arr,
   np.select (fun x => eq_float x pivot) arr,
   np.select (fun x => gt_float x pivot) arr).

(** [_quicksort].  Both branches of [if len(arr) > 1000] have the
    same outcome: the left part is sorted or raises first, then the
    right part (on two worker threads, the result of the left one is
    asked for first), so the model has one.  The recursion is on
    strictly shorter arrays; [fuel] bounds its depth. *)
Fixpoint quicksort_rec (fuel : nat) (arr : list Q) : result (list Q) :=
  if (length arr <=? 16)%nat then _insertion_sort arr
  else
    match fuel with
    | O => ok arr
    | S fuel' =>
      let pivot := _ninther arr in
      let '(left_, middle, right_) := three_way arr pivot in
      rbind (quicksort_rec fuel' left_) (fun sorted_left =>
      rbind (quicksort_rec fuel' right_) (fun sorted_right =>
      ok (sorted_left ++ middle ++ sorted_right)))
    end.

Definition _quicksort (arr : list Q) : result (list Q) :=
  quicksort_rec (length arr) arr.

(** [_introsort] with an explicit [max_depth]. *)
Fixpoint introsort_rec (max_depth : nat) (arr : list Q) : result (list Q) :=
  if (length arr <=? 16)%nat then _insertion_sort arr
  else
    match max_depth with
    | O => ok (_heapsort arr)
    | S d =>
      let pivot := _ninther arr in
      let '(left_, middle, right_) := three_way arr pivot in
      rbind (introsort_rec d left_) (fun sorted_left =>
      rbind (introsort_rec d right_) (fun sorted_right =>
      ok (sorted_left ++ middle ++ sorted_right)))
    end.

(** [_introsort(arr)] with [max_depth=None]: [math.log2(0)] raises
    [ValueError]. *)
Definition _introsort (arr : list Q) : result (list Q) :=
  match length arr with
  | O => raise ValueError
  | _ =>
    let max_depth := (2 * Nat.log2 (length arr))%nat in
    introsort_rec max_depth arr
  end.

(** [_pivot_tree_partition] *)
Fixpoint _recursive_partition (fuel : nat) (arr : list Q) (depth : nat)
  : list (list Q) :=
  if (length arr <=? 100)%nat || (10 <? depth)%nat then [arr]
  else
    match fuel with
    | O => [arr]
    | S fuel' =>
      let pivot := _ninther arr in
      let '(left_, middle, right_) := three_way arr pivot in
      _recursive_partition fuel' left_ (depth + 1)
      ++ [middle]
      ++ _recursive_partition fuel' right_ (depth + 1)
    end.

Definition _pivot_tree_partition (arr : list Q) : list (list Q) :=
  if (length arr <=? 100)%nat then [arr]
  else
    let partitions := _recursive_partition 12 arr 0 in
    List.filter (fun part => (0 <? length part)%nat) partitions.

(** [_advanced_partition] *)
Fixpoint partitions_between (arr : list Q) (pivots : list Q)
  : list (list Q) :=
  match pivots with
  | [] => []
  | lo :: rest =>
    match rest with
    | [] => []
    | hi :: _ =>
      let partition :=
        np.select (fun x => Qgeb x lo && Qltb x hi) arr in
      (if (0 <? length partition)%nat then [partition] else [])
      ++ partitions_between arr rest
    end
  end.

Definition _advanced_partition (arr : list Q) : list (list Q) :=
  if (length arr <? 1000)%nat then [arr]
  else
    let quantiles :=
      np.linspace 0 100 (Nat.min (length arr / 1000 + 1) 10) in
    let pivots := np.percentile arr quantiles in
    partitions_between arr pivots.

(** [_hybrid_sort]; the worker pool maps [np.sort] over the partitions
    in order. *)
Definition _hybrid_sort (arr : list Q) : result (list Q) :=
  if (length arr <? 1000)%nat then ok (np.sort arr)
  else
    let partitions := _advanced_partition arr in
    let sorted_partitions := map np.sort partitions in
    np.concatenate sorted_partitions.

End Algo.


(** ** The engine: configuration, outside world, state *)

Inductive SortStrategy : Type :=
| AUTO | PARALLEL | MEMORY_EFFICIENT | HYBRID | ADAPTIVE | STREAM
| BLOCK_SORT | BUCKET_SORT | RADIX_SORT | COMPRESSION_SORT | EXTERNAL_SORT.

Inductive Algorithm : Type :=
| QUICKSORT | MERGESORT | HEAPSORT | TIMSORT | INTROSORT | RADIXSORT
| EXTERNALMERGESORT.

Definition Algorithm_value (a : Algorithm) : string :=
  match a with
  | QUICKSORT => "quicksort"
  | MERGESORT => "mergesort"
  | HEAPSORT => "heapsort"
  | TIMSORT => "timsort"
  | INTROSORT => "introsort"
  | RADIXSORT => "radixsort"
  | EXTERNALMERGESORT => "externalmergesort"
  end.

(** The element type of an [ndarray] handed to the engine. *)
Inductive dtype : Type := Float64 | Int64.

(** [SortStats] without its clock, memory and CPU readings. *)
Record SortStats : Type := mkStats {
  items_processed : nat;
  bucket_distribution : list nat;
  strategy_used : string;
  algorithm_used : string;
  stream_chunks : nat;
  compression_ratio : Q;
  error_detected : bool;
  fallback_strategy : string
}.

(** What the engine reads from outside the repository.
    - [choice c n k]: the indices drawn by the [c]-th call of
      [np.random.choice(n, k, replace=False)];
    - [memory_available], [cpu_count]: the [psutil] readings;
    - [compress_len a]: [len(compress(a.tobytes()))] for LZ4;
    - [ml_predict sample n]: the class the trained network picks;
    - [int64_bits_as_float64 x]: the [float64] whose eight bytes are
      those of the [int64] [x].  It is a number only when those bytes
      are a finite [float64]: the bytes of an [x] from [-2^52] to [-1],
      and of an [x] from [0x7FF0000000000000] on, are a NaN or an
      infinity, which a list of rationals does not hold.  What is
      proved of [_external_sort] is therefore proved of [float64]
      arrays only. *)
Record Env : Type := mkEnv {
  choice : nat -> nat -> nat -> list nat;
  memory_available : Z;
  cpu_count : Z;
  compress_len : list Q -> nat;
  ml_predict : list Q -> nat -> nat;
  int64_bits_as_float64 : Q -> Q
}.

Record Config : Type := mkConfig {
  strategy : SortStrategy;
  chunk_size : option nat;
  cache_size : nat;
  adaptive_threshold : Q;
  stream_mode : bool;
  block_size : nat;
  use_ml_prediction : bool;
  compression_threshold : Z;
  external_sort_threshold : Z
}.

Definition default_config : Config :=
  mkConfig AUTO None 2000 (8 # 10) false 4096 true 10000 100000.

Definition buffer_size : nat := 4096.

(** [arr.itemsize]: both dtypes of [dtype] are eight bytes wide. *)
Definition itemsize : nat := 8.
Definition fallback_algorithm : Algorithm := MERGESORT.

(** The mutable part of an [EnhancedHyperionSort] object, the number of
    draws made from numpy's random generator, and [input_array]: the
    content of the [ndarray] object that the running call of [sort]
    works on.  Slices and the sections of [np.array_split] are views
    of that object: writing to one writes to it. *)
Record State : Type := mkState {
  cache : AdaptiveCache.t nat;
  stream_processor : StreamProcessor.t;
  rng_calls : nat;
  input_array : list Q
}.

(** [EnhancedHyperionSort.__init__] *)
Definition __init__ (cfg : Config) : State :=
  mkState
    (AdaptiveCache.__init__ (cache_size cfg))
    (StreamProcessor.__init__
       (match chunk_size cfg with
        | Some (S c) => S c
        | _ => 1000%nat
        end))
    0 [].

(** ** The monad of engine methods: state, and exceptions that keep the
    state reached when they were raised *)

Definition M (A : Type) : Type := State -> result A * State.

Definition ret {A : Type} (a : A) : M A := fun s => (ok a, s).

Definition bind {A B : Type} (m : M A) (f : A -> M B) : M B :=
  fun s =>
    match m s with
    | (inl e, s') => (inl e, s')
    | (inr a, s') => f a s'
    end.

Definition throw {A : Type} (e : exn) : M A := fun s => (raise e, s).

Definition lift {A : Type} (r : result A) : M A := fun s => (r, s).

(** [try: m except Exception: handler] *)
Definition try_except {A : Type} (m : M A) (handler : exn -> M A) : M A :=
  fun s =>
    match m s with
    | (inl e, s') => handler e s'
    | (inr a, s') => (ok a, s')
    end.

Declare Scope engine_scope.
Delimit Scope engine_scope with engine.
Notation "'let*' x ':=' m 'in' k" :=
  (bind m (fun x => k))
  (at level 10, x pattern, m at level 100, k at level 200)
  : engine_scope.
Notation "'let+' x ':=' r 'in' k" :=
  (rbind r (fun x => k))
  (at level 10, x pattern, r at level 100, k at level 200)
  : engine_scope.
Open Scope engine_scope.

Fixpoint mapM {A B : Type} (f : A -> M B) (l : list A) : M (list B) :=
  match l with
  | [] => ret []
  | x :: rest =>
    let* y := f x in
    let* ys := mapM f rest in
    ret (y :: ys)
  end.

Fixpoint rmap {A B : Type} (f : A -> result B) (l : list A)
  : result (list B) :=
  match l with
  | [] => ok []
  | x :: rest =>
    let+ y := f x in
    let+ ys := rmap f rest in
    ok (y :: ys)
  end.

(** [seq[i]] for a non-negative index. *)
Definition getitem {A : Type} (l : list A) (i : nat) : result A :=
  match l !! i with
  | Some x => ok x
  | None => raise IndexError
  end.


(** ** Engine methods that need neither state nor the outside world *)

Module Pure.

(** *** [_merge_sorted_arrays]

    [heapq] is modelled by its contract: the heap is the collection of
    its entries and [heappop] removes the least one.  The entries are
    tuples [(value, arr_idx, elem_idx)] in Python's tuple order, and no
    two entries of the heap agree on [(arr_idx, elem_idx)], so the
    least entry is unique and the layout inside [heapq] cannot be
    observed. *)
Definition entry : Type := (Q * nat * nat)%type.

Definition entry_lt (e1 e2 : entry) : bool :=
  let '(v1, i1, j1) := e1 in
  let '(v2, i2, j2) := e2 in
  if negb (Qeqb v1 v2) then Qltb v1 v2
  else if negb (i1 =? i2)%nat then (i1 <? i2)%nat
  else (j1 <? j2)%nat.

(** The least entry of a non-empty heap and the other entries. *)
Fixpoint heappop_from (e : entry) (heap : list entry) : entry * list entry :=
  match heap with
  | [] => (e, [])
  | e' :: rest =>
    let '(m, others) := heappop_from e' rest in
    if entry_lt m e then (m, e :: others) else (e, m :: others)
  end.

Definition heappush (heap : list entry) (e : entry) : list entry := e :: heap.

Fixpoint initial_heap (arrays : list (list Q)) (i : nat) : list entry :=
  match arrays with
  | [] => []
  | arr :: rest =>
    match arr with
    | [] => initial_heap rest (S i)
    | x :: _ => heappush (initial_heap rest (S i)) (x, i, 0%nat)
    end
  end.

(** The [while heap] loop; every turn emits one element, so the total
    number of elements bounds the number of turns. *)
Fixpoint merge_loop (fuel : nat) (arrays : list (list Q))
         (heap : list entry) (merged : list Q) : list Q :=
  match fuel with
  | O => merged
  | S fuel' =>
    match heap with
    | [] => merged
    | e :: rest =>
      let '((val, arr_idx, elem_idx), heap') := heappop_from e rest in
      let merged' := merged ++ [val] in
      let source := nth arr_idx arrays [] in
      if (elem_idx + 1 <? length source)%nat
      then
        let next_val := nth (elem_idx + 1) source 0%Q in
        merge_loop fuel' arrays
                   (heappush heap' (next_val, arr_idx, (elem_idx + 1)%nat))
                   merged'
      else merge_loop fuel' arrays heap' merged'
    end
  end.

Definition _merge_sorted_arrays (arrays : list (list Q)) : list Q :=
  merge_loop (length (concat arrays)) arrays (initial_heap arrays 0) [].

(** *** [BlockManager.split_into_blocks] *)
Definition split_into_blocks (block_size : nat) (arr : list Q)
  : result (list (list Q)) :=
  match block_size with
  | O => raise ZeroDivisionError
  | _ => np.array_split arr (Nat.max 1 (length arr / block_size))
  end.

(** Slices [a[i:i + n]] and the assignment [a[i:i + len(vals)] = vals]
    of as many values as the slice holds. *)
Definition slice (i n : nat) (a : list Q) : list Q := take n (drop i a).

Definition write_slice (i : nat) (vals : list Q) (a : list Q) : list Q :=
  take i a ++ vals ++ drop (i + length vals) a.

(** [BlockManager.merge_blocks] *)
Definition merge_blocks (blocks : list (list Q)) : list Q :=
  match blocks with
  | [] => []
  | _ =>
    let zeros := repeat 0%Q (length (concat blocks)) in
    fst (foldl (fun '(result_, pos) block =>
                  (write_slice pos block result_, (pos + length block)%nat))
               (zeros, 0%nat) blocks)
  end.

End Pure.


(** ** Engine methods *)

Section Engine.

Variable env : Env.
Variable cfg : Config.

(** [arr[np.random.choice(n, k, replace=False)]] *)
Definition random_sample (arr : list Q) (k : nat) : M (list Q) :=
  fun s =>
    let n := length arr in
    let s' :=
      mkState (cache s) (stream_processor s) (S (rng_calls s))
              (input_array s) in
    if ((n =? 0)%nat && negb (k =? 0)%nat) || (n <? k)%nat
    then (raise ValueError, s)
    else (rmap (getitem arr) (choice env (rng_calls s) n k), s').

Definition cache_get (k : key) : M (option nat) :=
  fun s =>
    let '(r, c) := AdaptiveCache.get k (cache s) in
    (ok r, mkState c (stream_processor s) (rng_calls s) (input_array s)).

Definition cache_put (k : key) (v : nat) : M unit :=
  fun s =>
    match AdaptiveCache.put k v (cache s) with
    | inl e => (raise e, s)
    | inr c =>
      (ok tt, mkState c (stream_processor s) (rng_calls s) (input_array s))
    end.

(** [std < range / 100] for [std = sqrt(var)] and [0 <= range]. *)
Definition std_below_range_percent (var_ : npfloat) (range_size : Q) : bool :=
  match var_ with
  | Finite v => Qltb (v * 10000) (range_size * range_size)
  | NaN => false
  end.

(** [round(100 * sqrt(v))], the two decimals of [f"{std:.2f}"]. *)
Definition std_hundredths (var_ : npfloat) : option Z :=
  match var_ with
  | Finite v => Some ((Z.sqrt (Qfloor (v * 40000)) + 1) / 2)
  | NaN => None
  end.

Definition two_digits (d : Z) : string :=
  if d <? 10 then String.append "0" (pretty d) else pretty d.

(** [f"bucket_count_{n}_{arr.std():.2f}"] *)
Definition bucket_cache_key (arr : list Q) : key :=
  let std_text :=
    match std_hundredths (np.var arr) with
    | Some h =>
      String.append (pretty (h / 100))
                    (String.append "." (two_digits (h mod 100)))
    | None => "nan"
    end in
  inr (String.append "bucket_count_"
         (String.append (pretty (length arr))
            (String.append "_" std_text))).

(** [int(n / math.log2(n))] for [n >= 2]: the largest [k] with
    [k * log2(n) <= n], that is with [n ^ k <= 2 ^ n]. *)
Fixpoint count_powers (fuel : nat) (n : Z) (k : nat) : nat :=
  match fuel with
  | O => k
  | S fuel' =>
    if n ^ Z.of_nat (S k) <=? 2 ^ n
    then count_powers fuel' n (S k)
    else k
  end.

Definition floor_n_over_log2 (n : nat) : nat :=
  count_powers n (Z.of_nat n) 0.

(** [int(math.sqrt(n) * (std / range) * 2)] for [std = sqrt(var)] and
    [0 < range]: the integer square root of [4 * n * var / range ^ 2]. *)
Definition floor_scaled_spread (n : nat) (v range_size : Q) : nat :=
  Z.to_nat
    (Z.sqrt (Qfloor (4 * inject_Z (Z.of_nat n) * v
                     / (range_size * range_size)))).

Definition _optimize_bucket_count (arr : list Q) : M nat :=
  let n := length arr in
  if (n <? 1000)%nat then ret (Nat.max 1 (n / 10))
  else
    let cache_key := bucket_cache_key arr in
    let* cached_value := cache_get cache_key in
    match cached_value with
    | Some (S c) => ret (S c)
    | _ =>
      let sample_size := Nat.min 1000 n in
      let* sample := random_sample arr sample_size in
      let std_dev_squared := np.var sample in
      let* range_size := lift (np.ptp sample) in
      let* bucket_count :=
        if std_below_range_percent std_dev_squared range_size
        then ret (Nat.sqrt n)
        else
          (* [std_dev / range_size] is [nan] for a zero range (the
             deviation is zero as well); [min(nan, _)] is [nan] and
             [int(nan)] raises *)
          if Qeqb range_size 0 then throw ValueError
          else
            ret (Nat.min
                   (floor_scaled_spread n (float_value std_dev_squared)
                                        range_size)
                   (floor_n_over_log2 n)) in
      let* _ := cache_put cache_key bucket_count in
      ret bucket_count
    end.

(** *** [_bucket_sort] *)

(** [buckets[bucket_idx].append(x)] *)
Definition bucket_append (buckets : list (list Q)) (bucket_idx : Z) (x : Q)
  : result (list (list Q)) :=
  let+ i := py_index (length buckets) bucket_idx in
  ok (alter (fun b => b ++ [x]) i buckets).

Fixpoint fill_buckets (n_buckets : nat) (min_val width : Q)
         (xs : list Q) (buckets : list (list Q)) : result (list (list Q)) :=
  match xs with
  | [] => ok buckets
  | x :: rest =>
    let bucket_idx := py_int ((x - min_val) / width) in
    let bucket_idx :=
      if bucket_idx =? Z.of_nat n_buckets then bucket_idx - 1
      else bucket_idx in
    let+ buckets' := bucket_append buckets bucket_idx x in
    fill_buckets n_buckets min_val width rest buckets'
  end.

Definition nonempty {A : Type} (l : list A) : bool :=
  match l with [] => false | _ => true end.

(** The least real number that rounds to [inf] as a [float64]: half a
    unit in the last place above the largest float,
    [2 ^ 1024 - 2 ^ 970]. *)
Definition float64_overflow : Q := inject_Z ((2 ^ 54 - 1) * 2 ^ 970).

(** The difference [x] of two elements, which is not negative,
    computed in [float64], is [inf]. *)
Definition float64_overflows (x : Q) : bool := Qleb float64_overflow x.

(** The loop over the elements when [max_val - min_val] has overflowed
    to [inf], and the width with it: [(x - min_val) / width] is 0 for a
    finite [x - min_val], and [inf / inf], that is [nan], for one that
    overflows as well; [int(nan)] raises [ValueError]. *)
Fixpoint fill_buckets_inf (n_buckets : nat) (min_val : Q)
         (xs : list Q) (buckets : list (list Q)) : result (list (list Q)) :=
  match xs with
  | [] => ok buckets
  | x :: rest =>
    if float64_overflows (x - min_val) then raise ValueError
    else
      let bucket_idx := 0 in
      let bucket_idx :=
        if bucket_idx =? Z.of_nat n_buckets then bucket_idx - 1
        else bucket_idx in
      let+ buckets' := bucket_append buckets bucket_idx x in
      fill_buckets_inf n_buckets min_val rest buckets'
  end.

Definition _bucket_sort (arr : list Q) : M (list Q) :=
  match arr with
  | [] => ret arr
  | _ =>
    let* n_buckets := _optimize_bucket_count arr in
    let* min_val := lift (np.min arr) in
    let* max_val := lift (np.max arr) in
    if Qeqb min_val max_val then ret arr
    else if float64_overflows (max_val - min_val) then
      let buckets := repeat [] n_buckets in
      let* buckets := lift (fill_buckets_inf n_buckets min_val arr buckets) in
      let sorted_buckets := map np.sort buckets in
      lift (np.concatenate (List.filter nonempty sorted_buckets))
    else
      match n_buckets with
      | O =>
        (* the width is infinite, every index is 0 and there is no
           bucket to index *)
        throw IndexError
      | _ =>
        let buckets := repeat [] n_buckets in
        let width := ((max_val - min_val) / inject_Z (Z.of_nat n_buckets))%Q in
        let* buckets := lift (fill_buckets n_buckets min_val width arr buckets) in
        let sorted_buckets := map np.sort buckets in
        lift (np.concatenate (List.filter nonempty sorted_buckets))
      end
  end.

(** *** [_radix_sort]

    A bucket is indexed by [(x // exp) % 10].  For an integer array
    this is an integer; for a [float64] array it is a float, and a list
    does not take a float index.  [np.concatenate] of the ten buckets
    is a [float64] array as soon as one bucket is empty. *)
Definition digit_of (x : Q) (exp : Z) : Z :=
  Qfloor (x / inject_Z exp) mod 10.

Fixpoint radix_pass (dt : dtype) (exp : Z) (xs : list Q)
         (buckets : list (list Q)) : result (list (list Q)) :=
  match xs with
  | [] => ok buckets
  | x :: rest =>
    match dt with
    | Float64 => raise TypeError
    | Int64 =>
      let+ buckets' := bucket_append buckets (digit_of x exp) x in
      radix_pass dt exp rest buckets'
    end
  end.

Definition concatenated_dtype (buckets : list (list Q)) : dtype :=
  if forallb nonempty buckets then Int64 else Float64.

(** The largest [int64]. *)
Definition int64_max : Z := 2 ^ 63 - 1.

(** The test [max_val // exp > 0] comes first.  When [exp] has grown
    past 1, [max_val] is an [np.int64]: a [float64] array has raised in
    its first pass.  The division converts the Python integer [exp] to
    [int64], which raises [OverflowError] once [exp] is beyond the
    [int64] range (NumPy 2). *)
Fixpoint radix_loop (fuel : nat) (max_val : Q) (exp : Z) (dt : dtype)
         (arr : list Q) : result (list Q) :=
  match fuel with
  | O => ok arr
  | S fuel' =>
    if int64_max <? exp then raise OverflowError
    else if 0 <? Qfloor (max_val / inject_Z exp) then
      let+ buckets := radix_pass dt exp arr (repeat [] 10) in
      radix_loop fuel' max_val (exp * 10) (concatenated_dtype buckets)
                 (concat buckets)
    else ok arr
  end.

(** Each pass multiplies [exp] by ten: [max_val // exp] is zero after at
    most as many passes as [max_val] has binary digits. *)
Definition radix_fuel (max_val : Q) : nat :=
  S (Z.to_nat (Z.log2_up (Z.max 1 (Qfloor max_val) + 1))).

Definition _radix_sort (dt : dtype) (arr : list Q) : result (list Q) :=
  match arr with
  | [] => ok arr
  | _ =>
    let+ max_val := np.max arr in
    radix_loop (radix_fuel max_val) max_val 1 dt arr
  end.

(** *** [_get_bucket_distribution] and [_calculate_stats] *)

Definition count_in (lo hi : Q) (arr : list Q) : nat :=
  length (np.select (fun x => Qgeb x lo && Qltb x hi) arr).

Definition _get_bucket_distribution (arr : list Q) : M (list nat) :=
  match arr with
  | [] => ret []
  | _ =>
    let* n_buckets := _optimize_bucket_count arr in
    let* lo := lift (np.min arr) in
    let* hi := lift (np.max arr) in
    let bucket_ranges := np.linspace lo hi (n_buckets + 1) in
    ret (map (fun i => count_in (nth i bucket_ranges 0%Q)
                                (nth (i + 1) bucket_ranges 0%Q) arr)
             (seq 0 n_buckets))
  end.

Definition _calculate_stats (arr : list Q) (strategy_ algorithm : string)
           (error : bool) (stream_chunks_ : nat) (compression_ratio_ : Q)
           (error_detected_ : bool) : M SortStats :=
  if error then
    ret (mkStats (length arr) [] strategy_ "none" stream_chunks_
                 compression_ratio_ true "None")
  else
    let* distribution := _get_bucket_distribution arr in
    ret (mkStats (length arr) distribution strategy_ algorithm
                 stream_chunks_ compression_ratio_ error_detected_ "None").

(** *** The input array *)

Definition read_input : M (list Q) := fun s => (ok (input_array s), s).

Definition set_input (a : list Q) : M unit :=
  fun s => (ok tt, mkState (cache s) (stream_processor s) (rng_calls s) a).

(** Writing [vals] through the view that starts at [offset]. *)
Definition write_view (offset : nat) (vals : list Q) : M unit :=
  fun s =>
    (ok tt,
     mkState (cache s) (stream_processor s) (rng_calls s)
             (Pure.write_slice offset vals (input_array s))).

(** *** [_advanced_block_sort]

    A block is a view of the input array.  Of the sorts
    [_optimize_block_sort] chooses from, only [_insertion_sort] would
    write to the array it is given, and it raises before it does; the
    others build new arrays. *)
Definition _optimize_block_sort (block : list Q) : M (list Q) :=
  if (length block <? 16)%nat then lift (Algo._insertion_sort block)
  else
    let std_dev_squared := np.var block in
    let* range_size := lift (np.ptp block) in
    if std_below_range_percent std_dev_squared range_size then
      _bucket_sort block
    else if (length block <? 1000)%nat then lift (Algo._quicksort block)
    else lift (Algo._introsort block).

(** One round of merging neighbouring blocks. *)
Fixpoint merge_pairs (sorted_blocks : list (list Q)) : list (list Q) :=
  match sorted_blocks with
  | b1 :: b2 :: rest =>
    Pure._merge_sorted_arrays [b1; b2] :: merge_pairs rest
  | _ => sorted_blocks
  end.

(** The [while len(sorted_blocks) > 1] loop: every round at least
    halves the number of blocks, rounded up. *)
Fixpoint merge_rounds (fuel : nat) (sorted_blocks : list (list Q))
  : list (list Q) :=
  match fuel with
  | O => sorted_blocks
  | S fuel' =>
    if (1 <? length sorted_blocks)%nat
    then merge_rounds fuel' (merge_pairs sorted_blocks)
    else sorted_blocks
  end.

Definition _advanced_block_sort (arr : list Q) : M (list Q) :=
  if (length arr <? 1000)%nat then ret (np.sort arr)
  else
    let* blocks := lift (Pure.split_into_blocks (block_size cfg) arr) in
    let* sorted_blocks := mapM _optimize_block_sort blocks in
    let merged := merge_rounds (length sorted_blocks) sorted_blocks in
    lift (getitem merged 0).

(** *** [_adaptive_chunk_size] *)
Definition _adaptive_chunk_size (arr_size : nat) : result nat :=
  let available_memory := memory_available env in
  let total_size := (Z.of_nat arr_size * Z.of_nat itemsize)%Z in
  let l3_cache := (cpu_count env * 2 ^ 20)%Z in
  if total_size <? l3_cache then ok (Nat.min arr_size 10000)
  else
    let denominator := (inject_Z available_memory * adaptive_threshold cfg)%Q in
    if Qeqb denominator 0 then raise ZeroDivisionError
    else
      let optimal_chunks :=
        Z.max (cpu_count env) (py_int (inject_Z total_size / denominator)) in
      if optimal_chunks =? 0 then raise ZeroDivisionError
      else ok (Z.to_nat (Z.max 1000 (Z.of_nat arr_size / optimal_chunks))).

(** *** [_parallel_sort] *)
Definition _parallel_sort (arr : list Q) : M (list Q * SortStats) :=
  let* chunk_size_ := lift (_adaptive_chunk_size (length arr)) in
  let* sections :=
    match chunk_size_ with
    | O => throw ZeroDivisionError
    | _ => ret (Nat.max 1 (length arr / chunk_size_))
    end in
  let* chunks := lift (np.array_split arr sections) in
  let sorted_chunks := map np.sort chunks in
  let result_ := Pure._merge_sorted_arrays sorted_chunks in
  let* stats := _calculate_stats arr "parallel" (Algorithm_value QUICKSORT)
                                 false 0 1 false in
  ret (result_, stats).

(** *** [_memory_efficient_sort]

    [np.sort(a, axis, kind, order, *, stable)] has no parameter [out]:
    the call [np.sort(chunk, out=chunk)] raises [TypeError] before
    anything is sorted. *)
Definition np_sort_out (chunk : list Q) : result (list Q) := raise TypeError.

(** [range(0, n, step)]; a zero step raises [ValueError]. *)
Definition range_step (n step : nat) : result (list nat) :=
  match step with
  | O => raise ValueError
  | _ => ok (map (fun q => (q * step)%nat) (seq 0 ((n + step - 1) / step)))
  end.

(** The loop over the chunks: [chunk] is a view of the input array,
    [result_] is the array under construction. *)
Fixpoint sort_chunks (starts : list nat) (chunk_size_ : nat)
         (result_ : list Q) : M (list Q) :=
  match starts with
  | [] => ret result_
  | i :: rest =>
    let* arr := read_input in
    let chunk := Pure.slice i chunk_size_ arr in
    let* chunk' := lift (np_sort_out chunk) in
    let* _ := write_view i chunk' in
    sort_chunks rest chunk_size_ (Pure.write_slice i chunk' result_)
  end.

Definition _memory_efficient_sort (arr : list Q) : M (list Q * SortStats) :=
  let* chunk_size_ := lift (_adaptive_chunk_size (length arr)) in
  let result_ := repeat 0%Q (length arr) in
  let* starts := lift (range_step (length arr) chunk_size_) in
  let* result_ := sort_chunks starts chunk_size_ result_ in
  let* arr' := read_input in
  let* stats := _calculate_stats arr' "memory_efficient"
                                 (Algorithm_value MERGESORT) false 0 1 false in
  ret (result_, stats).

(** *** Sample statistics used by the selectors *)

(** [np.sum(np.diff(sample) < 0)]: the number of descents. *)
Fixpoint descents (sample : list Q) : nat :=
  match sample with
  | [] => 0
  | x :: rest =>
    match rest with
    | [] => 0
    | y :: _ => ((if Qltb (y - x) 0 then 1 else 0) + descents rest)%nat
    end
  end.

(** [np.sum(np.diff(sample) < 0) < len(sample) * 0.1] *)
Definition is_nearly_sorted (sample : list Q) : bool :=
  (10 * descents sample <? length sample)%nat.

(** The central moment [mean((x - mean) ^ k)]. *)
Definition central_moment (k : positive) (a : list Q) : npfloat :=
  match np.mean a with
  | NaN => NaN
  | Finite m =>
    Finite (np.sum (map (fun x => Qpower_positive (x - m) k) a) / np.len a)%Q
  end.

(** [scipy.stats.skew(sample) > 2]: the skewness is [m3 / m2 ^ 1.5],
    and [nan] for a constant sample. *)
Definition skewness_above_2 (sample : list Q) : bool :=
  match central_moment 2 sample, central_moment 3 sample with
  | Finite m2, Finite m3 =>
    Qltb 0 m2 && Qltb 0 m3 && Qltb (4 * m2 * m2 * m2) (m3 * m3)
  | _, _ => false
  end.

(** [scipy.stats.kurtosis(sample) > 5]: the excess kurtosis is
    [m4 / m2 ^ 2 - 3], and [nan] for a constant sample. *)
Definition kurtosis_above_5 (sample : list Q) : bool :=
  match central_moment 2 sample, central_moment 4 sample with
  | Finite m2, Finite m4 => Qltb 0 m2 && Qltb (8 * m2 * m2) m4
  | _, _ => false
  end.

(** *** [_choose_optimal_strategy] *)
Definition _choose_optimal_strategy (arr : list Q) : M SortStrategy :=
  let n := length arr in
  let sample_size := Nat.min 1000 n in
  let* sample := random_sample arr sample_size in
  let nearly_sorted := is_nearly_sorted sample in
  let std_dev_squared := np.var sample in
  let* range_size := lift (np.ptp sample) in
  let estimated_memory := (Z.of_nat n * Z.of_nat itemsize * 3)%Z in
  if Qltb (inject_Z (memory_available env) * (7 # 10))
          (inject_Z estimated_memory)
  then ret MEMORY_EFFICIENT
  else if skewness_above_2 sample || kurtosis_above_5 sample
  then ret BUCKET_SORT
  else if nearly_sorted then ret ADAPTIVE
  else if (1000000 <? Z.of_nat n) && (2 <? cpu_count env) then ret PARALLEL
  else if std_below_range_percent std_dev_squared range_size then ret HYBRID
  else if external_sort_threshold cfg <? Z.of_nat n then ret EXTERNAL_SORT
  else ret ADAPTIVE.

(** *** [_predict_strategy] *)
Definition _predict_strategy (arr : list Q) : M SortStrategy :=
  if negb (use_ml_prediction cfg) then _choose_optimal_strategy arr
  else
    let n := length arr in
    let sample_size := Nat.min 1000 n in
    let* sample := random_sample arr sample_size in
    let* range_size := lift (np.ptp sample) in
    match ml_predict env sample n with
    | 0%nat => ret ADAPTIVE
    | 1%nat => ret BUCKET_SORT
    | 2%nat => ret HYBRID
    | 3%nat => ret PARALLEL
    | 4%nat => ret RADIX_SORT
    | 5%nat => ret COMPRESSION_SORT
    | _ => ret ADAPTIVE
    end.

(** *** [_adaptive_sort] *)
Definition _adaptive_sort (arr : list Q) : M (list Q * SortStats) :=
  let n := length arr in
  let* sample := random_sample arr (Nat.min 1000 n) in
  let std_dev_squared := np.var sample in
  let* (algorithm, result_) :=
    if is_nearly_sorted sample then ret (TIMSORT, np.sort arr)
    else
      let* hi := lift (np.max sample) in
      let* lo := lift (np.min sample) in
      if std_below_range_percent std_dev_squared (hi - lo)%Q then
        let* (r, _) := _parallel_sort arr in
        ret (QUICKSORT, r)
      else
        let* r := lift (Algo._hybrid_sort arr) in
        ret (MERGESORT, r) in
  let* stats := _calculate_stats arr "adaptive" (Algorithm_value algorithm)
                                 false 0 1 false in
  ret (result_, stats).

(** *** [_compression_sort]

    The codec is taken to be lossless: [decompress(compress(b)) = b]. *)
Definition _compression_sort (arr : list Q) : result (list Q * Q) :=
  if Z.of_nat (length arr) <? compression_threshold cfg then ok (arr, 1%Q)
  else
    let compressed_len := compress_len env arr in
    let nbytes := (length arr * itemsize)%nat in
    match nbytes with
    | O => raise ZeroDivisionError
    | _ =>
      let compression_ratio_ :=
        (inject_Z (Z.of_nat compressed_len) / inject_Z (Z.of_nat nbytes))%Q in
      if Qgtb compression_ratio_ 1 then ok (arr, 1%Q)
      else ok (np.sort arr, compression_ratio_)
    end.

(** *** [_external_sort]

    The temporary file holds the bytes of the array; each chunk of
    [buffer_size] bytes is read back as [float64] values
    ([np.frombuffer(data, dtype=np.float64)]), whatever the dtype of
    the array.  For a [float64] array the values read are the values
    written.  For an [int64] array they are the reinterpreted bytes,
    [int64_bits_as_float64]: the model follows the code there only
    when every value read is a finite [float64], and no theorem below
    is stated for that case. *)
Definition file_values (dt : dtype) (arr : list Q) : list Q :=
  match dt with
  | Float64 => arr
  | Int64 => map (int64_bits_as_float64 env) arr
  end.

Definition _read_chunk_sync (file : list Q) (offset size_ : nat) : list Q :=
  Pure.slice (offset / itemsize) (size_ / itemsize) file.

Definition _external_sort (dt : dtype) (arr : list Q) : list Q :=
  let file := file_values dt arr in
  let chunk_size_ := buffer_size in
  let nbytes := (length arr * itemsize)%nat in
  let num_chunks := ((nbytes + chunk_size_ - 1) / chunk_size_)%nat in
  let chunks :=
    map (fun i =>
           let offset := (i * chunk_size_)%nat in
           let size_ := Nat.min chunk_size_ (nbytes - offset) in
           _read_chunk_sync file offset size_)
        (seq 0 num_chunks) in
  let sorted_chunks := map np.sort chunks in
  match sorted_chunks with
  | [] => []
  | _ => Pure._merge_sorted_arrays sorted_chunks
  end.

(** *** [_stream_sort_and_collect] *)
Definition run_stream_processor (data_stream : list Q) : M (list (list Q)) :=
  fun s =>
    let '(sp, windows) :=
      StreamProcessor.process_stream data_stream (stream_processor s) in
    (ok windows, mkState (cache s) sp (rng_calls s) (input_array s)).

Definition chunks_processed_now : M nat :=
  fun s =>
    (ok (StreamProcessor.chunks_processed (stream_processor s)), s).

Definition _stream_sort_and_collect (data_stream : list Q)
  : M (list Q * SortStats) :=
  let* all_chunks := run_stream_processor data_stream in
  match all_chunks with
  | [] =>
    let* stats := _calculate_stats [] "stream" "none" false 0 1 false in
    ret ([], stats)
  | _ =>
    let merged_array := concat all_chunks in
    let* processed := chunks_processed_now in
    let* stats := _calculate_stats merged_array "stream" "timsort"
                                   false processed 1 false in
    ret (merged_array, stats)
  end.

(** *** [sort] *)

(** What [sort] may be given, and what it returns: some strategies
    return a bare array, the others an array with its statistics. *)
Inductive sort_input : Type :=
| PyList (l : list Q)
| NDArray (dt : dtype) (a : list Q)
| PyGenerator (items : list Q).

Inductive SortResult : Type :=
| Bare (a : list Q)
| WithStats (a : list Q) (stats : SortStats).

Definition result_array (r : SortResult) : list Q :=
  match r with
  | Bare a => a
  | WithStats a _ => a
  end.

Definition result_stats (r : SortResult) : option SortStats :=
  match r with
  | Bare _ => None
  | WithStats _ stats => Some stats
  end.

Definition input_values (x : sort_input) : list Q :=
  match x with
  | PyList l => l
  | NDArray _ a => a
  | PyGenerator items => items
  end.

Definition input_dtype (x : sort_input) : dtype :=
  match x with
  | NDArray dt _ => dt
  | _ => Float64
  end.

(** The choice of the strategy at the head of the [try] block. *)
Definition select_strategy (arr : list Q) : M SortStrategy :=
  if external_sort_threshold cfg <? Z.of_nat (length arr)
  then ret EXTERNAL_SORT
  else if use_ml_prediction cfg then _predict_strategy arr
  else
    match strategy cfg with
    | AUTO => _choose_optimal_strategy arr
    | s => ret s
    end.

(** A dispatched strategy either hands its result to the verification
    or, for [STREAM], makes [sort] return at once. *)
Inductive Dispatched : Type :=
| ReturnNow (r : SortResult)
| Computed (r : SortResult).

Definition dispatch (strategy_ : SortStrategy) (dt : dtype) (arr : list Q)
  : M Dispatched :=
  match strategy_ with
  | MEMORY_EFFICIENT =>
    let* (r, stats) := _memory_efficient_sort arr in
    ret (Computed (WithStats r stats))
  | HYBRID =>
    let* r := lift (Algo._hybrid_sort arr) in
    let* stats := _calculate_stats arr "hybrid" (Algorithm_value INTROSORT)
                                   false 0 1 false in
    ret (Computed (WithStats r stats))
  | ADAPTIVE =>
    let* (r, stats) := _adaptive_sort arr in
    ret (Computed (WithStats r stats))
  | STREAM =>
    let* (r, stats) := _stream_sort_and_collect arr in
    ret (ReturnNow (WithStats r stats))
  | BLOCK_SORT =>
    let* r := _advanced_block_sort arr in
    ret (Computed (Bare r))
  | BUCKET_SORT =>
    let* r := _bucket_sort arr in
    ret (Computed (Bare r))
  | RADIX_SORT =>
    let* r := lift (_radix_sort dt arr) in
    let* stats := _calculate_stats arr "radix" (Algorithm_value RADIXSORT)
                                   false 0 1 false in
    ret (Computed (WithStats r stats))
  | COMPRESSION_SORT =>
    let* (r, compression_ratio_) := lift (_compression_sort arr) in
    let* stats := _calculate_stats arr "compression"
                                   (Algorithm_value MERGESORT)
                                   false 0 compression_ratio_ false in
    ret (Computed (WithStats r stats))
  | EXTERNAL_SORT =>
    let r := _external_sort dt arr in
    let* stats := _calculate_stats arr "external"
                                   (Algorithm_value EXTERNALMERGESORT)
                                   false 0 1 false in
    ret (Computed (WithStats r stats))
  | _ =>
    let* (r, stats) := _parallel_sort arr in
    ret (Computed (WithStats r stats))
  end.

(** The verification after the dispatch, and the fallback. *)
Definition verify_or_fall_back (result_ : SortResult) : M SortResult :=
  if np.is_sorted (result_array result_) then ret result_
  else
    let* arr := read_input in
    let fallback_result := np.sort arr in
    let* fallback_stats :=
      _calculate_stats arr "fallback" (Algorithm_value fallback_algorithm)
                       false 0 1 true in
    ret (WithStats fallback_result fallback_stats).

(** The body of the [try] block. *)
Definition sort_body (dt : dtype) (arr : list Q) : M SortResult :=
  let* _ := set_input arr in
  let* strategy_ := select_strategy arr in
  let* dispatched := dispatch strategy_ dt arr in
  match dispatched with
  | ReturnNow r => ret r
  | Computed r => verify_or_fall_back r
  end.

(** The [except Exception] clause.  For a list, [original_arr] is a
    copy made before the [try]; for an [ndarray] it is the array object
    itself, in the state the failed strategy left it in. *)
Definition sort_failed (x : sort_input) (e : exn) : M SortResult :=
  let* original_arr :=
    match x with
    | PyList l => ret l
    | _ => read_input
    end in
  let* stats := _calculate_stats original_arr "failed" "none"
                                 true 0 1 false in
  ret (WithStats original_arr stats).

Definition sort (x : sort_input) : M SortResult :=
  let stream :=
    match x with
    | PyGenerator _ => true
    | _ => stream_mode cfg
    end in
  if stream then
    let* (r, stats) := _stream_sort_and_collect (input_values x) in
    ret (WithStats r stats)
  else
    try_except (sort_body (input_dtype x) (input_values x)) (sort_failed x).

End Engine.

(** * Vocabulary of the properties *)

(** A deque within its bound. *)
Definition deque_ok {A : Type} (d : Deque.deque A) : Prop :=
  (Deque.len d <= Deque.maxlen d)%nat.

(** One [StreamProcessor] consuming several streams, one after the
    other: the windows of all of them. *)
Fixpoint process_streams (streams : list (list Q)) (sp : StreamProcessor.t)
  : StreamProcessor.t * list (list Q) :=
  match streams with
  | [] => (sp, [])
  | data_stream :: rest =>
    let '(sp1, ws) := StreamProcessor.process_stream data_stream sp in
    let '(sp2, ws') := process_streams rest sp1 in
    (sp2, ws ++ ws')
  end.

(** The pivot as the specification words it: the median of the medians
    of the three equal thirds of the array. *)
Definition ninther_of_thirds (arr : list Q) : npfloat :=
  if (length arr <? 9)%nat then np.median arr
  else
    let t := (length arr / 3)%nat in
    np.median
      (map float_value
           [np.median (take t arr);
            np.median (take t (drop t arr));
            np.median (take t (drop (2 * t) arr))]).

(** The median of three values, by comparisons. *)
Definition median3 (a b c : Q) : Q :=
  np.Qmax (np.Qmin a b) (np.Qmin (np.Qmax a b) c).

(** [np.arange(n)] as an array of floats. *)
Definition arange (n : nat) : list Q :=
  map (fun i => inject_Z (Z.of_nat i)) (seq 0 n).

(** The ratio [_compression_sort] computes. *)
Definition compression_ratio_of (env : Env) (arr : list Q) : Q :=
  (inject_Z (Z.of_nat (compress_len env arr))
   / inject_Z (Z.of_nat (length arr * itemsize)))%Q.

(** A concrete outside world for examples: the generator draws the
    first [k] indices, the machine has four cores and 8 GiB free, the
    codec produces [compressed a] bytes, the predictor picks class
    [predicted]. *)
Definition example_env (compressed : list Q -> nat) (predicted : nat) : Env :=
  mkEnv (fun _ _ k => seq 0 k) (8 * 2 ^ 30) 4 compressed
        (fun _ _ => predicted) (fun x => x).

(** A configuration that forces one strategy, without the predictor. *)
Definition forced (s : SortStrategy) (chunk : option nat) (stream : bool)
           (compress_from : Z) : Config :=
  mkConfig s chunk 2000 (8 # 10) stream 4096 false compress_from 100000.

(** Insertion of [key] into a prefix that is read from its right end
    (the list [r] is the prefix reversed): what the inner loop of
    [_insertion_sort] does to the slots [0 .. j + 1]. *)
Fixpoint insert_from_right (key : Q) (r : list Q) : list Q :=
  match r with
  | [] => [key]
  | a :: r' =>
    if Qgtb a key then a :: insert_from_right key r' else key :: a :: r'
  end.

(** The order of a descending sequence. *)
Definition Qge_ (x y : Q) : Prop := (y <= x)%Q.

(** What is still to be emitted for a heap entry: the rest of its
    array from its position on. *)
Definition pending (arrays : list (list Q)) (e : Pure.entry) : list Q :=
  let '(_, arr_idx, elem_idx) := e in drop elem_idx (nth arr_idx arrays []).

Definition entry_ok (arrays : list (list Q)) (e : Pure.entry) : Prop :=
  let '(val, arr_idx, elem_idx) := e in
  nth arr_idx arrays [] !! elem_idx = Some val.

(** An engine method that leaves the input array as it found it,
    whether it returns or raises. *)
Definition preserves_input {A : Type} (m : M A) : Prop :=
  forall s : State, input_array (snd (m s)) = input_array s.

(** What holds of the value of an engine method whenever it returns. *)
Definition returns {A : Type} (m : M A) (P : A -> Prop) : Prop :=
  forall (s : State) (a : A) (s' : State), m s = (inr a, s') -> P a.

(** A condition under which a strategy builds its result from every
    element of the array.  It leaves out the stream, [HYBRID] and
    [ADAPTIVE] on 1000 elements or more, where the percentile split
    can run (not every branch of [ADAPTIVE] runs it), and the external
    sort of an array whose bytes are not those of [float64] values.
    The condition is sufficient, not necessary, and says nothing of
    whether the strategy returns: [MEMORY_EFFICIENT] meets it and
    raises on every array. *)
Definition keeps_elements (strategy_ : SortStrategy) (dt : dtype)
           (arr : list Q) : Prop :=
  match strategy_ with
  | HYBRID | ADAPTIVE => (length arr < 1000)%nat
  | EXTERNAL_SORT => dt = Float64
  | STREAM => False
  | _ => True
  end.

(** A block that [_optimize_block_sort] hands to [_bucket_sort]: at
    least 16 elements, with a standard deviation below one hundredth
    of their range. *)
Definition clustered (block : list Q) : bool :=
  (16 <=? length block)%nat
  && match np.ptp block with
     | inr range_size => std_below_range_percent (np.var block) range_size
     | inl _ => false
     end.

(** [sort] was given an array or a list, not a generator. *)
Definition is_array (x : sort_input) : Prop :=
  match x with
  | PyGenerator _ => False
  | _ => True
  end.

(** A stream processor whose buffer has the bound [c] and is within
    it. *)
Definition sp_ok (c : nat) (sp : StreamProcessor.t) : Prop :=
  Deque.maxlen (StreamProcessor.buffer sp) = c
  /\ deque_ok (StreamProcessor.buffer sp).

(** ** Vocabulary of the further properties *)

(** The max-heap order at position [i] of the first [n] slots: no
    child of [i] inside the heap is greater than [arr[i]]. *)
Definition heap_at (n : nat) (arr : list Q) (i : nat) : Prop :=
  forall c : nat,
    (c = 2 * i + 1 \/ c = 2 * i + 2)%nat -> (c < n)%nat ->
    (nth c arr 0 <= nth i arr 0)%Q.

(** The slots [lo .. n - 1] are in heap order. *)
Definition is_heap (lo n : nat) (arr : list Q) : Prop :=
  forall j : nat, (lo <= j < n)%nat -> heap_at n arr j.

(** Heap order on [lo .. n - 1] except at [k], whose children are
    still below the parent of [k]: what [heapify(n, k)] starts from. *)
Definition heap_except (lo n k : nat) (arr : list Q) : Prop :=
  (forall j : nat, (lo <= j < n)%nat -> j <> k -> heap_at n arr j)
  /\ (forall p c : nat,
         (lo <= p)%nat -> (k = 2 * p + 1 \/ k = 2 * p + 2)%nat ->
         (c = 2 * k + 1 \/ c = 2 * k + 2)%nat -> (c < n)%nat ->
         (nth c arr 0 <= nth p arr 0)%Q).

(** The value a heap entry carries. *)
Definition entry_value (e : Pure.entry) : Q := fst (fst e).

(** The index of the bucket that [_bucket_sort] appends [x] to. *)
Definition bucket_of (n_buckets : nat) (min_val width x : Q) : Z :=
  let bucket_idx := py_int ((x - min_val) / width) in
  if bucket_idx =? Z.of_nat n_buckets then bucket_idx - 1 else bucket_idx.

(** Every bucket holds only values of its own index. *)
Definition buckets_hold (n_buckets : nat) (min_val width : Q)
           (buckets : list (list Q)) : Prop :=
  forall (i : nat) (b : list Q) (x : Q),
    buckets !! i = Some b -> In x b ->
    bucket_of n_buckets min_val width x = Z.of_nat i.

(** The values of [arr] in the half-open interval from [lo] to [hi]:
    the mask of [_advanced_partition]. *)
Definition between (lo hi : Q) (arr : list Q) : list Q :=
  np.select (fun x => Qgeb x lo && Qltb x hi) arr.

(** The values of [arr] strictly below [m]. *)
Definition below (m : Q) (arr : list Q) : list Q :=
  np.select (fun x => Qltb x m) arr.

(** The quantile [np.linspace(0, 100, k)[i]]. *)
Definition quantile (k i : nat) : Q :=
  (0 + inject_Z (Z.of_nat i) * ((100 - 0) / inject_Z (Z.of_nat (k - 1))))%Q.

(** A stream processor between two items of a stream, with the chunk
    size [c] it was built with: the buffer is below its bound and every
    window recorded so far was full. *)
Definition steady (c : nat) (sp : StreamProcessor.t) : Prop :=
  StreamProcessor.chunk_size sp = c
  /\ Deque.maxlen (StreamProcessor.buffer sp) = c
  /\ (length (Deque.items (StreamProcessor.buffer sp)) < c)%nat
  /\ Forall (fun n => n = c) (Deque.items (StreamProcessor.chunk_history sp)).


(** The strategies the predictor can name, and those the rule-based
    selector can name. *)
Definition predicted_strategies : list SortStrategy :=
  [ADAPTIVE; BUCKET_SORT; HYBRID; PARALLEL; RADIX_SORT; COMPRESSION_SORT].

Definition rule_strategies : list SortStrategy :=
  [MEMORY_EFFICIENT; BUCKET_SORT; ADAPTIVE; PARALLEL; HYBRID; EXTERNAL_SORT].

(** The same configuration with another [strategy]. *)
Definition with_strategy (st : SortStrategy) (cfg : Config) : Config :=
  mkConfig st (chunk_size cfg) (cache_size cfg) (adaptive_threshold cfg)
           (stream_mode cfg) (block_size cfg) (use_ml_prediction cfg)
           (compression_threshold cfg) (external_sort_threshold cfg).

(** The statistics [sort] reports for a failed call on [n] items. *)
Definition failed_stats (n : nat) : SortStats :=
  mkStats n [] "failed" "none" 0 1 true "None".

(** The array [sort] hands back after a failure: the copy of a list,
    or the array object it was given in its current state. *)
Definition original_arr (x : sort_input) (s : State) : list Q :=
  match x with
  | PyList l => l
  | _ => input_array s
  end.

(** Several [put]s in a row. *)
Fixpoint put_all {V : Type} (kvs : list (key * V)) (c : AdaptiveCache.t V)
  : result (AdaptiveCache.t V) :=
  match kvs with
  | [] => ok c
  | (k, v) :: rest =>
    let+ c' := AdaptiveCache.put k v c in put_all rest c'
  end.

(** A cache of capacity [m] that holds the entries [l], oldest first,
    and tracks exactly their keys. *)
Definition holds_fifo {V : Type} (m : nat) (l : list (key * V))
           (c : AdaptiveCache.t V) : Prop :=
  AdaptiveCache.size c = m
  /\ Deque.maxlen (AdaptiveCache._access_history c) = m
  /\ Deque.items (AdaptiveCache._access_history c) = l.*1
  /\ AdaptiveCache.cache c = list_to_map l.

(** Parts in ascending order: every value of a part is below every
    value of the parts after it. *)
Fixpoint ascending_parts (parts : list (list Q)) : Prop :=
  match parts with
  | [] => True
  | p :: rest =>
    (forall x y : Q, In x p -> In y (concat rest) -> (x < y)%Q)
    /\ ascending_parts rest
  end.

(** [np.arange(n)[::-1]] as an array of floats. *)
Definition descending (n : nat) : list Q := rev (arange n).


(** The chunk size an engine built from [cfg] gives its stream
    processor: [chunk_size or 1000]. *)
Definition stream_chunk_size (cfg : Config) : nat :=
  match chunk_size cfg with
  | Some (S c) => S c
  | _ => 1000%nat
  end.

(** [sort] takes the stream path: a generator, or stream mode. *)
Definition streamed (cfg : Config) (x : sort_input) : Prop :=
  match x with
  | PyGenerator _ => True
  | _ => stream_mode cfg = true
  end.

(** * Properties *)

(** ** Order facts on rationals *)

Lemma Qleb_true (x y : Q) : Qleb x y = true <-> (x <= y)%Q.
Proof. unfold Qleb. apply Qle_bool_iff. Qed.

Lemma Qleb_false (x y : Q) : Qleb x y = false <-> (y < x)%Q.
Proof.
  unfold Qleb. split; intros H.
  - apply Qnot_le_lt. intros Hle. apply Qle_bool_iff in Hle. congruence.
  - destruct (Qle_bool x y) eqn:E; [|reflexivity].
    apply Qle_bool_iff in E. exfalso. exact (Qlt_not_le _ _ H E).
Qed.

Lemma Qltb_true (x y : Q) : Qltb x y = true <-> (x < y)%Q.
Proof.
  unfold Qltb. rewrite negb_true_iff. apply (Qleb_false y x).
Qed.

Lemma Qltb_false (x y : Q) : Qltb x y = false <-> (y <= x)%Q.
Proof.
  unfold Qltb. rewrite negb_false_iff. apply (Qleb_true y x).
Qed.

Lemma Qeqb_true (x y : Q) : Qeqb x y = true <-> (x == y)%Q.
Proof. unfold Qeqb. apply Qeq_bool_iff. Qed.

Lemma Qeqb_refl (x : Q) : Qeqb x x = true.
Proof. apply Qeqb_true. reflexivity. Qed.

(** ** [np.sort] is a sorting function *)

Lemma insert_perm (x : Q) (l : list Q) : Permutation (np.insert x l) (x :: l).
Proof.
  induction l as [|y l IH]; simpl.
  - reflexivity.
  - destruct (Qleb x y).
    + reflexivity.
    + rewrite IH. apply perm_swap.
Qed.

Lemma sort_perm (a : list Q) : Permutation (np.sort a) a.
Proof.
  unfold np.sort. induction a as [|x a IH]; simpl.
  - reflexivity.
  - rewrite insert_perm. constructor. exact IH.
Qed.

Lemma sort_length (a : list Q) : length (np.sort a) = length a.
Proof. apply Permutation_length, sort_perm. Qed.

Lemma insert_sorted (x : Q) (l : list Q) :
  Sorted Qle l -> Sorted Qle (np.insert x l).
Proof.
  induction l as [|y l IH]; simpl; intros Hs.
  - repeat constructor.
  - destruct (Qleb x y) eqn:E.
    + constructor; [exact Hs|]. constructor. now apply Qleb_true.
    + apply Qleb_false in E.
      inversion Hs as [|? ? Hs' Hhd]; subst.
      constructor; [now apply IH|].
      destruct l as [|z l]; simpl.
      * constructor. now apply Qlt_le_weak.
      * destruct (Qleb x z); constructor.
        -- now apply Qlt_le_weak.
        -- now inversion Hhd.
Qed.

Lemma sort_sorted (a : list Q) : Sorted Qle (np.sort a).
Proof.
  unfold np.sort. induction a as [|x a IH]; simpl.
  - constructor.
  - now apply insert_sorted.
Qed.

Lemma is_sorted_true (a : list Q) : np.is_sorted a = true <-> Sorted Qle a.
Proof.
  induction a as [|x a IH].
  - simpl. split; [constructor|reflexivity].
  - destruct a as [|y a].
    + simpl. split; [repeat constructor|reflexivity].
    + change (np.is_sorted (x :: y :: a))
        with (Qleb x y && np.is_sorted (y :: a)).
      rewrite andb_true_iff, IH, Qleb_true. split.
      * intros [Hxy Hs]. constructor; [exact Hs|now constructor].
      * intros Hs. inversion Hs as [|? ? Hs' Hhd]; subst.
        inversion Hhd; subst. now split.
Qed.

(** ** Bounded deques *)

Lemma deque_append_maxlen {A : Type} (x : A) (d : Deque.deque A) :
  Deque.maxlen (Deque.append x d) = Deque.maxlen d.
Proof.
  unfold Deque.append.
  destruct (Deque.maxlen d =? 0)%nat; [reflexivity|].
  destruct (Deque.maxlen d <=? length (Deque.items d))%nat; reflexivity.
Qed.

Lemma deque_append_ok {A : Type} (x : A) (d : Deque.deque A) :
  deque_ok d -> deque_ok (Deque.append x d).
Proof.
  unfold deque_ok, Deque.len, Deque.append. intros Hd.
  destruct (Deque.maxlen d =? 0)%nat eqn:E0; [exact Hd|].
  apply Nat.eqb_neq in E0.
  destruct (Deque.maxlen d <=? length (Deque.items d))%nat eqn:E; simpl.
  - apply Nat.leb_le in E.
    destruct (Deque.items d) as [|y l]; simpl in *; [lia|].
    rewrite length_app. simpl. lia.
  - apply Nat.leb_gt in E. rewrite length_app. simpl. lia.
Qed.

(** ** [StreamProcessor]: the buffer never outgrows its first bound *)

Lemma update_chunk_size_buffer (sp : StreamProcessor.t) :
  StreamProcessor.buffer (StreamProcessor._update_chunk_size sp)
  = StreamProcessor.buffer sp.
Proof.
  unfold StreamProcessor._update_chunk_size.
  destruct (_ <? _)%nat; reflexivity.
Qed.

Lemma feed_ok (c : nat) (item : Q) (sp : StreamProcessor.t) :
  sp_ok c sp ->
  sp_ok c (fst (StreamProcessor.feed item sp))
  /\ Forall (fun w => (length w <= c)%nat)
            (StreamProcessor.emit (snd (StreamProcessor.feed item sp))).
Proof.
  intros [Hmax Hok]. unfold StreamProcessor.feed.
  pose proof (deque_append_ok item _ Hok) as Hok'.
  pose proof (deque_append_maxlen item (StreamProcessor.buffer sp)) as Hmax'.
  destruct (_ <=? _)%nat; cbn -[np.sort].
  - split.
    + unfold sp_ok. rewrite update_chunk_size_buffer. simpl.
      split; [congruence|]. unfold deque_ok, Deque.len. simpl. lia.
    + constructor; [|constructor]. rewrite sort_length.
      unfold deque_ok, Deque.len in Hok'. lia.
  - split; [|constructor]. split; simpl; [congruence|exact Hok'].
Qed.

Lemma finish_ok (c : nat) (sp : StreamProcessor.t) :
  sp_ok c sp ->
  sp_ok c (fst (StreamProcessor.finish sp))
  /\ Forall (fun w => (length w <= c)%nat)
            (StreamProcessor.emit (snd (StreamProcessor.finish sp))).
Proof.
  intros [Hmax Hok]. unfold StreamProcessor.finish.
  destruct (Deque.items (StreamProcessor.buffer sp)) as [|x l] eqn:E;
    cbn -[np.sort].
  - split; [split; assumption|constructor].
  - split; [split; assumption|].
    constructor; [|constructor].
    rewrite sort_length, <- E. unfold deque_ok, Deque.len in Hok. lia.
Qed.

Lemma process_items_ok (c : nat) (data_stream : list Q) :
  forall sp : StreamProcessor.t,
    sp_ok c sp ->
    sp_ok c (fst (StreamProcessor.process_items data_stream sp))
    /\ Forall (fun w => (length w <= c)%nat)
              (snd (StreamProcessor.process_items data_stream sp)).
Proof.
  induction data_stream as [|item rest IH]; intros sp Hsp; simpl.
  - split; [exact Hsp|constructor].
  - destruct (feed_ok c item sp Hsp) as [H1 Hw].
    destruct (StreamProcessor.feed item sp) as [sp1 w]; simpl in *.
    destruct (IH sp1 H1) as [H2 Hws].
    destruct (StreamProcessor.process_items rest sp1) as [sp2 ws]; simpl in *.
    split; [exact H2|]. apply Forall_app. split; assumption.
Qed.

Lemma process_stream_ok (c : nat) (data_stream : list Q)
      (sp : StreamProcessor.t) :
  sp_ok c sp ->
  sp_ok c (fst (StreamProcessor.process_stream data_stream sp))
  /\ Forall (fun w => (length w <= c)%nat)
            (snd (StreamProcessor.process_stream data_stream sp)).
Proof.
  intros Hsp. unfold StreamProcessor.process_stream.
  destruct (process_items_ok c data_stream sp Hsp) as [H1 Hws].
  destruct (StreamProcessor.process_items data_stream sp) as [sp1 ws];
    simpl in *.
  destruct (finish_ok c sp1 H1) as [H2 Hw].
  destruct (StreamProcessor.finish sp1) as [sp2 w]; simpl in *.
  split; [exact H2|]. apply Forall_app. split; assumption.
Qed.

Lemma init_sp_ok (c : nat) : sp_ok c (StreamProcessor.__init__ c).
Proof. split; [reflexivity|]. unfold deque_ok, Deque.len. simpl. lia. Qed.

Lemma process_streams_ok (c : nat) (streams : list (list Q)) :
  forall sp : StreamProcessor.t,
    sp_ok c sp ->
    Forall (fun w => (length w <= c)%nat) (snd (process_streams streams sp)).
Proof.
  induction streams as [|data_stream rest IH]; intros sp Hsp; simpl.
  - constructor.
  - destruct (process_stream_ok c data_stream sp Hsp) as [H1 Hws].
    destruct (StreamProcessor.process_stream data_stream sp) as [sp1 ws];
      simpl in *.
    specialize (IH sp1 H1).
    destruct (process_streams rest sp1) as [sp2 ws']; simpl in *.
    apply Forall_app. split; assumption.
Qed.

(** C10.  Whatever streams a [StreamProcessor] built with chunk size
    [c] consumes, one after the other, every window it emits holds at
    most [c] elements: the bound of the buffer is the one given at
    construction, whatever [_update_chunk_size] makes of
    [self.chunk_size]. *)
Theorem stream_windows_within_initial_chunk_size
        (c : nat) (streams : list (list Q)) :
  Forall (fun window => (length window <= c)%nat)
         (snd (process_streams streams (StreamProcessor.__init__ c))).
Proof.
  apply process_streams_ok, init_sp_ok.
Qed.

(** The adaptive update does raise [chunk_size] above a small initial
    value: after two windows of two elements the processor asks for
    1000, and the third window is the last two elements of what
    followed. *)
Example stream_chunk_size_raised :
  let '(sp, windows) :=
    StreamProcessor.process_stream [3; 4; 1; 2; 9; 8; 7]%Q
                                   (StreamProcessor.__init__ 2) in
  StreamProcessor.chunk_size sp = 1000%nat
  /\ windows = [[3; 4]; [1; 2]; [7; 8]]%Q.
Proof. vm_compute. split; reflexivity. Qed.

(** ** [AdaptiveCache] *)

Section CacheFacts.

Context {V : Type}.
Implicit Types (c : AdaptiveCache.t V) (k : key) (v : V).

(** What [put] does when it does not raise: the entry is stored. *)
Lemma put_stores k v c c' :
  AdaptiveCache.put k v c = inr c' ->
  AdaptiveCache.cache c' !! k = Some v
  /\ AdaptiveCache.get_memo c' = AdaptiveCache.get_memo c
  /\ AdaptiveCache.size c' = AdaptiveCache.size c.
Proof.
  unfold AdaptiveCache.put. intros H.
  destruct (_ <=? _)%nat.
  - destruct (Deque.popleft (AdaptiveCache._access_history c))
      as [e|[oldest h]]; simpl in H; [discriminate|].
    injection H as <-. simpl. split; [apply lookup_insert_eq|]. now split.
  - simpl in H. injection H as <-. simpl.
    split; [apply lookup_insert_eq|]. now split.
Qed.

(** Without a remembered call for [k], [get] runs its body: it returns
    the stored value, or the absent marker for an absent key. *)
Lemma get_unmemoized k c :
  AdaptiveCache.memo_find k (AdaptiveCache.get_memo c) = None ->
  fst (AdaptiveCache.get k c) = AdaptiveCache.cache c !! k.
Proof.
  intros Hm. unfold AdaptiveCache.get. rewrite Hm.
  unfold AdaptiveCache.get_body.
  destruct (AdaptiveCache.cache c !! k); reflexivity.
Qed.

Lemma put_then_get_unmemoized k v c c' :
  AdaptiveCache.memo_find k (AdaptiveCache.get_memo c) = None ->
  AdaptiveCache.put k v c = inr c' ->
  fst (AdaptiveCache.get k c') = Some v.
Proof.
  intros Hm Hput. destruct (put_stores _ _ _ _ Hput) as (Hk & Hmemo & _).
  rewrite get_unmemoized; [exact Hk|]. now rewrite Hmemo.
Qed.

(** A remembered call is answered from the table of [lru_cache],
    whatever the cache holds. *)
Lemma get_memoized k c r :
  AdaptiveCache.memo_find k (AdaptiveCache.get_memo c) = Some r ->
  fst (AdaptiveCache.get k c) = r.
Proof. intros Hm. unfold AdaptiveCache.get. now rewrite Hm. Qed.

(** A [put] removes at most one entry and adds at most one. *)
Lemma put_size_bound k v c c' :
  AdaptiveCache.put k v c = inr c' ->
  (dict_len (AdaptiveCache.cache c') <= S (dict_len (AdaptiveCache.cache c)))%nat.
Proof.
  unfold AdaptiveCache.put, dict_len. intros H.
  assert (Hins : forall m : gmap key V,
             (base.size (<[k:=v]> m) <= S (base.size m))%nat).
  { intros m. destruct (m !! k) eqn:E.
    - rewrite map_size_insert_Some by eauto. lia.
    - rewrite map_size_insert_None by assumption. lia. }
  assert (Hdel : forall (m : gmap key V) (o : key),
             (base.size (delete o m) <= base.size m)%nat).
  { intros m o. destruct (m !! o) eqn:E.
    - rewrite map_size_delete_Some by eauto. lia.
    - rewrite delete_id by assumption. lia. }
  destruct (_ <=? _)%nat.
  - destruct (Deque.popleft (AdaptiveCache._access_history c))
      as [e|[oldest h]]; simpl in H; [discriminate|].
    injection H as <-. simpl.
    specialize (Hins (delete oldest (AdaptiveCache.cache c))).
    specialize (Hdel (AdaptiveCache.cache c) oldest). lia.
  - simpl in H. injection H as <-. simpl. apply Hins.
Qed.

End CacheFacts.

(** C6.  The claim fails on the code: [get] is wrapped in [lru_cache],
    so a miss for ["k"] is remembered, and after [put("k", 7)] has
    stored the entry the next [get("k")] is answered with the
    remembered absent marker. *)
Theorem cache_get_after_put_is_stale :
  let k : key := inr "k"%string in
  let c0 : AdaptiveCache.t nat := AdaptiveCache.__init__ 2 in
  let '(r1, c1) := AdaptiveCache.get k c0 in
  match AdaptiveCache.put k 7%nat c1 with
  | inl _ => False
  | inr c2 =>
    r1 = None
    /\ AdaptiveCache.cache c2 !! k = Some 7%nat
    /\ fst (AdaptiveCache.get k c2) = None
  end.
Proof.
  cbv zeta. vm_compute. repeat split; reflexivity.
Qed.

(** The same table also answers for a key that is gone: an entry that
    was read once, then evicted, is still returned by [get]. *)
Example cache_get_of_evicted_key :
  let a : key := inr "a"%string in
  let b : key := inr "b"%string in
  let c0 : AdaptiveCache.t nat := AdaptiveCache.__init__ 1 in
  match AdaptiveCache.put a 1%nat c0 with
  | inl _ => False
  | inr c1 =>
    let '(r, c2) := AdaptiveCache.get a c1 in
    match AdaptiveCache.put b 2%nat c2 with
    | inl _ => False
    | inr c3 =>
      r = Some 1%nat
      /\ AdaptiveCache.cache c3 !! a = None
      /\ fst (AdaptiveCache.get a c3) = Some 1%nat
    end
  end.
Proof.
  cbv zeta. vm_compute. repeat split; reflexivity.
Qed.

(** C7.  The claim fails on the code.  With capacity 2: [put a],
    [put b], a hit on [b] (which pushes [a] out of the bounded access
    history and records [b] twice), [put c] (evicts [b]), [put d]: the
    oldest tracked key is [b] again, which is no longer stored, so
    nothing is evicted and the cache holds three entries. *)
Theorem cache_exceeds_capacity :
  let a : key := inr "a"%string in
  let b : key := inr "b"%string in
  let c : key := inr "c"%string in
  let d : key := inr "d"%string in
  let s0 : AdaptiveCache.t nat := AdaptiveCache.__init__ 2 in
  match AdaptiveCache.put a 1%nat s0 with
  | inl _ => False
  | inr s1 =>
    match AdaptiveCache.put b 2%nat s1 with
    | inl _ => False
    | inr s2 =>
      let '(r, s3) := AdaptiveCache.get b s2 in
      match AdaptiveCache.put c 3%nat s3 with
      | inl _ => False
      | inr s4 =>
        match AdaptiveCache.put d 4%nat s4 with
        | inl _ => False
        | inr s5 =>
          r = Some 2%nat
          /\ AdaptiveCache.size s4 = 2%nat
          /\ dict_len (AdaptiveCache.cache s4) = 2%nat
          /\ Deque.items (AdaptiveCache._access_history s4) = [b; c]
          /\ AdaptiveCache.cache s4 !! b = None
          /\ AdaptiveCache.size s5 = 2%nat
          /\ dict_len (AdaptiveCache.cache s5) = 3%nat
        end
      end
    end
  end.
Proof.
  cbv zeta. vm_compute. repeat split; reflexivity.
Qed.

(** A [put] at capacity can also fail outright: a miss resets the
    access history when it resizes, and with capacity 1 the resize
    does not grow the cache, so the next [put] finds nothing to pop. *)
Example cache_put_raises_after_resize :
  let a : key := inr "a"%string in
  let b : key := inr "b"%string in
  let s0 : AdaptiveCache.t nat := AdaptiveCache.__init__ 1 in
  match AdaptiveCache.put a 1%nat s0 with
  | inl _ => False
  | inr s1 =>
    let '(r, s2) := AdaptiveCache.get b s1 in
    r = None /\ AdaptiveCache.put b 2%nat s2 = inl IndexError
  end.
Proof.
  cbv zeta. vm_compute. repeat split; reflexivity.
Qed.

(** ** The ninther pivot *)

Ltac order_step :=
  match goal with
  | H : Qleb ?x ?y = _ |- context [Qleb ?x ?y] => rewrite H
  | |- context [Qleb ?x ?y] =>
    is_var x; is_var y; destruct (Qleb x y) eqn:?
  end.

Ltac order_facts :=
  repeat match goal with
         | H : Qleb _ _ = true |- _ => apply Qleb_true in H
         | H : Qleb _ _ = false |- _ => apply Qleb_false in H
         end.

(** [np.median] of three values picks one of them, the one in the
    middle. *)
Lemma median_three (a b c : Q) :
  exists m : Q,
    np.median [a; b; c] = Finite m
    /\ (m = a \/ m = b \/ m = c)
    /\ (m == median3 a b c)%Q.
Proof.
  unfold np.median, np.sort, median3, np.Qmax, np.Qmin. simpl.
  repeat (order_step; simpl);
    eexists; (split; [reflexivity|]); (split; [tauto|]);
    repeat (order_step; simpl); order_facts; lra.
Qed.

Lemma median3_compat (a a' b b' c c' : Q) :
  (a == a')%Q -> (b == b')%Q -> (c == c')%Q ->
  (median3 a b c == median3 a' b' c')%Q.
Proof.
  intros Ha Hb Hc. unfold median3, np.Qmax, np.Qmin.
  repeat (order_step; simpl); order_facts; lra.
Qed.

Lemma ninther_small (arr : list Q) :
  (length arr < 9)%nat -> Algo._ninther arr = np.median arr.
Proof.
  intros H. unfold Algo._ninther.
  destruct (length arr <? 9)%nat eqn:E; [reflexivity|].
  apply Nat.ltb_ge in E. lia.
Qed.

Lemma nth_lookup_in_range (arr : list Q) (i : nat) :
  (i < length arr)%nat ->
  arr !! i = Some (nth i arr 0%Q) /\ In (nth i arr 0%Q) arr.
Proof.
  intros H. split.
  - destruct (nth_lookup_or_length arr i 0%Q) as [Hx|Hx]; [exact Hx|lia].
  - now apply nth_In.
Qed.

(** From nine elements on, the pivot is one of the elements
    [arr[i + j * thirds]], [i, j < 3]: the median, over [i], of the
    median over [j]. *)
Lemma ninther_large (arr : list Q) :
  (9 <= length arr)%nat ->
  let t := (length arr / 3)%nat in
  exists a0 b0 c0 a1 b1 c1 a2 b2 c2 m : Q,
    (arr !! 0%nat = Some a0 /\ arr !! t = Some b0
     /\ arr !! (2 * t)%nat = Some c0)
    /\ (arr !! 1%nat = Some a1 /\ arr !! (1 + t)%nat = Some b1
        /\ arr !! (1 + 2 * t)%nat = Some c1)
    /\ (arr !! 2%nat = Some a2 /\ arr !! (2 + t)%nat = Some b2
        /\ arr !! (2 + 2 * t)%nat = Some c2)
    /\ Algo._ninther arr = Finite m
    /\ In m arr
    /\ (m == median3 (median3 a0 b0 c0) (median3 a1 b1 c1)
                     (median3 a2 b2 c2))%Q.
Proof.
  intros Hlen t.
  assert (Ht : (3 * t <= length arr)%nat).
  { unfold t. pose proof (Nat.div_mod_eq (length arr) 3). lia. }
  assert (Ht3 : (3 <= t)%nat).
  { unfold t. change 3%nat with (9 / 3)%nat at 1.
    now apply Nat.Div0.div_le_mono. }
  unfold Algo._ninther.
  destruct (length arr <? 9)%nat eqn:E; [apply Nat.ltb_lt in E; lia|].
  fold t. cbn [seq map].
  destruct (median_three (nth 0 arr 0%Q) (nth (0 + t) arr 0%Q)
                         (nth (0 + 2 * t) arr 0%Q)) as (m0 & -> & Hm0 & Hq0).
  destruct (median_three (nth 1 arr 0%Q) (nth (1 + t) arr 0%Q)
                         (nth (1 + 2 * t) arr 0%Q)) as (m1 & -> & Hm1 & Hq1).
  destruct (median_three (nth 2 arr 0%Q) (nth (2 + t) arr 0%Q)
                         (nth (2 + 2 * t) arr 0%Q)) as (m2 & -> & Hm2 & Hq2).
  cbn [float_value].
  destruct (median_three m0 m1 m2) as (m & -> & Hm & Hq).
  pose proof (fun i (H : (i < length arr)%nat) =>
                nth_lookup_in_range arr i H) as Hin.
  exists (nth 0 arr 0%Q), (nth (0 + t) arr 0%Q), (nth (0 + 2 * t) arr 0%Q),
         (nth 1 arr 0%Q), (nth (1 + t) arr 0%Q), (nth (1 + 2 * t) arr 0%Q),
         (nth 2 arr 0%Q), (nth (2 + t) arr 0%Q), (nth (2 + 2 * t) arr 0%Q), m.
  repeat split;
    try (apply Hin; lia); try reflexivity.
  - destruct Hm as [-> | [-> | ->] ];
      [destruct Hm0 as [-> | [-> | ->] ]
      |destruct Hm1 as [-> | [-> | ->] ]
      |destruct Hm2 as [-> | [-> | ->] ]]; apply Hin; lia.
  - rewrite Hq. now apply median3_compat.
Qed.

(** C8, as the code has it.  Below nine elements the pivot is the
    median of the array.  From nine elements on it is the median of
    three medians, but not of the thirds: the [i]-th of them, for
    [i = 0, 1, 2], is the median of the three elements at the
    positions [i], [i + n // 3] and [i + 2 * (n // 3)], one from each
    third; the pivot is an element of the array. *)
Theorem ninther_is_median_of_strided_medians (arr : list Q) :
  ((length arr < 9)%nat -> Algo._ninther arr = np.median arr)
  /\ ((9 <= length arr)%nat ->
      let t := (length arr / 3)%nat in
      exists a0 b0 c0 a1 b1 c1 a2 b2 c2 m : Q,
        (arr !! 0%nat = Some a0 /\ arr !! t = Some b0
         /\ arr !! (2 * t)%nat = Some c0)
        /\ (arr !! 1%nat = Some a1 /\ arr !! (1 + t)%nat = Some b1
            /\ arr !! (1 + 2 * t)%nat = Some c1)
        /\ (arr !! 2%nat = Some a2 /\ arr !! (2 + t)%nat = Some b2
            /\ arr !! (2 + 2 * t)%nat = Some c2)
        /\ Algo._ninther arr = Finite m
        /\ In m arr
        /\ (m == median3 (median3 a0 b0 c0) (median3 a1 b1 c1)
                         (median3 a2 b2 c2))%Q).
Proof.
  split.
  - apply ninther_small.
  - apply ninther_large.
Qed.

(** An array of nine elements and one of eight, through the theorem. *)
Lemma ninther_is_median_of_strided_medians_witness :
  Algo._ninther [5; 3; 8; 1; 9; 2; 7; 4; 6]%Q = Finite 5%Q
  /\ Algo._ninther [4; 1; 3; 2; 8; 7; 6; 5]%Q = Finite (9 # 2)%Q.
Proof.
  split.
  - destruct (ninther_is_median_of_strided_medians
                [5; 3; 8; 1; 9; 2; 7; 4; 6]%Q) as [_ H].
    destruct (H ltac:(simpl; lia)) as (? & ? & ? & ? & ? & ? & ? & ? & ? & m
                                       & _ & _ & _ & Hm & _ & _).
    rewrite Hm. vm_compute in Hm. exact (eq_sym Hm).
  - destruct (ninther_is_median_of_strided_medians
                [4; 1; 3; 2; 8; 7; 6; 5]%Q) as [H _].
    rewrite (H ltac:(simpl; lia)). vm_compute. reflexivity.
Defined.

(** C8, as stated, fails: on nine elements the thirds [1, 0, 0],
    [0, 1, 0], [1, 1, 1] have medians 0, 0, 1, whose median is 0; the
    code takes the medians of [1, 0, 1], [0, 1, 1], [0, 0, 1], which
    are 1, 1, 0, and returns 1. *)
Lemma ninther_is_not_median_of_thirds :
  let arr := [1; 0; 0; 0; 1; 0; 1; 1; 1]%Q in
  ninther_of_thirds arr = Finite 0%Q
  /\ Algo._ninther arr = Finite 1%Q
  /\ Algo._ninther arr <> ninther_of_thirds arr.
Proof.
  cbv zeta. split; [|split].
  - vm_compute. reflexivity.
  - vm_compute. reflexivity.
  - vm_compute. discriminate.
Qed.

(** ** Three-way partition and the pivot tree *)

Lemma three_way_perm (arr : list Q) (q : Q) :
  let '(left_, middle, right_) := Algo.three_way arr (Finite q) in
  Permutation (left_ ++ middle ++ right_) arr.
Proof.
  unfold Algo.three_way, np.select. cbn [lt_float eq_float gt_float].
  induction arr as [|x arr IH]; [reflexivity|].
  cbn [List.filter]. unfold Qgtb.
  destruct (Qltb x q) eqn:E1, (Qeqb x q) eqn:E2, (Qltb q x) eqn:E3;
    try apply Qltb_true in E1; try apply Qltb_false in E1;
    try apply Qltb_true in E3; try apply Qltb_false in E3;
    try apply Qeqb_true in E2;
    try lra.
  - cbn [app]. constructor. exact IH.
  - cbn [app]. rewrite <- Permutation_middle. constructor. exact IH.
  - rewrite app_assoc, <- Permutation_middle, <- app_assoc.
    constructor. exact IH.
  - exfalso.
    assert (x == q)%Q as Heq by lra.
    apply Qeqb_true in Heq. congruence.
Qed.

Lemma three_way_shorter (arr : list Q) (q : Q) :
  In q arr ->
  let '(left_, middle, right_) := Algo.three_way arr (Finite q) in
  (length left_ < length arr)%nat /\ (length right_ < length arr)%nat.
Proof.
  intros Hin.
  pose proof (three_way_perm arr q) as Hp.
  unfold Algo.three_way in *.
  apply Permutation_length in Hp. rewrite !length_app in Hp.
  assert (Hm : (0 < length (np.select (fun x => eq_float x (Finite q)) arr))%nat).
  { unfold np.select.
    assert (In q (List.filter (fun x => eq_float x (Finite q)) arr)) as Hq.
    { apply filter_In. split; [exact Hin|]. apply Qeqb_refl. }
    destruct (List.filter _ arr); [destruct Hq|simpl; lia]. }
  lia.
Qed.

Lemma ninther_finite_in (arr : list Q) :
  (9 <= length arr)%nat ->
  exists q : Q, Algo._ninther arr = Finite q /\ In q arr.
Proof.
  intros H.
  destruct (ninther_large arr H)
    as (? & ? & ? & ? & ? & ? & ? & ? & ? & m & _ & _ & _ & Hm & Hin & _).
  now exists m.
Qed.

Lemma recursive_partition_perm (fuel : nat) :
  forall (arr : list Q) (depth : nat),
    Permutation (concat (Algo._recursive_partition fuel arr depth)) arr.
Proof.
  induction fuel as [|fuel IH]; intros arr depth; simpl.
  - destruct (_ || _); simpl; now rewrite app_nil_r.
  - destruct ((length arr <=? 100)%nat || (10 <? depth)%nat) eqn:E.
    + simpl. now rewrite app_nil_r.
    + apply orb_false_iff in E as [E _]. apply Nat.leb_gt in E.
      destruct (ninther_finite_in arr ltac:(lia)) as (q & -> & _).
      pose proof (three_way_perm arr q) as Hp.
      unfold Algo.three_way in *.
      rewrite !concat_app. etransitivity; [|exact Hp].
      apply Permutation_app; [apply IH|].
      simpl. apply Permutation_app; [reflexivity|apply IH].
Qed.

(** The depth test stops the recursion of [_recursive_partition] on
    its own: more fuel than levels changes nothing. *)
Lemma recursive_partition_fuel (f1 : nat) :
  forall (f2 : nat) (arr : list Q) (depth : nat),
    (11 - depth <= f1)%nat -> (11 - depth <= f2)%nat ->
    Algo._recursive_partition f1 arr depth
    = Algo._recursive_partition f2 arr depth.
Proof.
  induction f1 as [|f1 IH]; intros f2 arr depth H1 H2.
  - assert (Hd : (10 <? depth)%nat = true) by (apply Nat.ltb_lt; lia).
    destruct f2; simpl; rewrite Hd, orb_true_r; reflexivity.
  - destruct f2 as [|f2].
    + assert (Hd : (10 <? depth)%nat = true) by (apply Nat.ltb_lt; lia).
      simpl. rewrite Hd, orb_true_r. reflexivity.
    + simpl. destruct (_ || _); [reflexivity|].
      f_equal; [apply IH; lia|]. f_equal. apply IH; lia.
Qed.

Lemma concat_filter_nonempty (parts : list (list Q)) :
  concat (List.filter (fun part => (0 <? length part)%nat) parts)
  = concat parts.
Proof.
  induction parts as [|p parts IH]; [reflexivity|].
  cbn [List.filter]. destruct p as [|x p]; simpl.
  - exact IH.
  - now rewrite IH.
Qed.

(** The pivot-tree split keeps every element: its partitions,
    concatenated, are a permutation of the array, and none is empty. *)
Lemma pivot_tree_partition_perm (arr : list Q) :
  Permutation (concat (Algo._pivot_tree_partition arr)) arr.
Proof.
  unfold Algo._pivot_tree_partition.
  destruct (length arr <=? 100)%nat.
  - simpl. now rewrite app_nil_r.
  - rewrite concat_filter_nonempty. apply recursive_partition_perm.
Qed.

Lemma pivot_tree_partition_lengths (arr : list Q) :
  list_sum (map (@length Q) (Algo._pivot_tree_partition arr)) = length arr.
Proof.
  rewrite <- (Permutation_length (pivot_tree_partition_perm arr)).
  generalize (Algo._pivot_tree_partition arr). intros parts.
  induction parts as [|p parts IH]; simpl; [reflexivity|].
  rewrite length_app. now rewrite IH.
Qed.

(** Below 1000 elements the percentile split is the array itself. *)
Lemma advanced_partition_small (arr : list Q) :
  (length arr < 1000)%nat -> Algo._advanced_partition arr = [arr].
Proof.
  intros H. unfold Algo._advanced_partition.
  destruct (length arr <? 1000)%nat eqn:E; [reflexivity|].
  apply Nat.ltb_ge in E. lia.
Qed.

(** C3.  The claim fails on the code for the percentile split.  On the
    1000 values 0, 1, ..., 999 the quantiles are 0 and 100, the pivots
    are the minimum 0 and the maximum 999, and the only partition is
    [0 <= x < 999]: the maximum belongs to no partition, and the
    partitions hold 999 of the 1000 elements. *)
Theorem advanced_partition_drops_the_maximum :
  Algo._advanced_partition (arange 1000) = [arange 999]
  /\ length (concat (Algo._advanced_partition (arange 1000))) = 999%nat
  /\ length (arange 1000) = 1000%nat.
Proof.
  assert (H : Algo._advanced_partition (arange 1000) = [arange 999]).
  { vm_compute. reflexivity. }
  rewrite H. split; [reflexivity|]. split; vm_compute; reflexivity.
Qed.

(** ** [_compression_sort] *)

Lemma nbytes_positive (arr : list Q) :
  arr <> [] -> exists n : nat, (length arr * itemsize)%nat = S n.
Proof.
  intros H. destruct arr as [|x arr]; [contradiction|].
  simpl. eexists. reflexivity.
Qed.

(** C5, as the code has it.  For a non-empty array at or above the
    threshold: a ratio above 1 returns the array as it is with ratio
    1; any other ratio, 1 included, returns the sorted array with the
    ratio. *)
Theorem compression_sort_cases (env : Env) (cfg : Config) (arr : list Q) :
  arr <> [] ->
  (compression_threshold cfg <= Z.of_nat (length arr))%Z ->
  ((1 < compression_ratio_of env arr)%Q ->
   _compression_sort env cfg arr = ok (arr, 1%Q))
  /\ ((compression_ratio_of env arr <= 1)%Q ->
      _compression_sort env cfg arr
      = ok (np.sort arr, compression_ratio_of env arr)
      /\ Sorted Qle (np.sort arr)
      /\ Permutation (np.sort arr) arr).
Proof.
  intros Hne Hlen. unfold _compression_sort, compression_ratio_of.
  destruct (Z.of_nat (length arr) <? compression_threshold cfg) eqn:E;
    [apply Z.ltb_lt in E; lia|].
  destruct (nbytes_positive arr Hne) as [n ->].
  split.
  - intros H. apply Qltb_true in H. unfold Qgtb. now rewrite H.
  - intros H. apply Qltb_false in H. unfold Qgtb. rewrite H.
    split; [reflexivity|]. split; [apply sort_sorted|apply sort_perm].
Qed.

Lemma compression_sort_cases_witness :
  _compression_sort (example_env (fun _ => 8%nat) 0)
                    (forced COMPRESSION_SORT None false 2) [2; 1]%Q
  = ok ([1; 2]%Q, (8 # 16)%Q)
  /\ _compression_sort (example_env (fun _ => 24%nat) 0)
                       (forced COMPRESSION_SORT None false 2) [2; 1]%Q
     = ok ([2; 1]%Q, 1%Q).
Proof.
  split.
  - destruct (compression_sort_cases
                (example_env (fun _ => 8%nat) 0)
                (forced COMPRESSION_SORT None false 2) [2; 1]%Q
                ltac:(discriminate) ltac:(simpl; lia)) as [_ H].
    destruct (H ltac:(vm_compute; discriminate)) as [-> _].
    vm_compute. reflexivity.
  - destruct (compression_sort_cases
                (example_env (fun _ => 24%nat) 0)
                (forced COMPRESSION_SORT None false 2) [2; 1]%Q
                ltac:(discriminate) ltac:(simpl; lia)) as [H _].
    exact (H ltac:(vm_compute; reflexivity)).
Defined.

(** C5, as stated, fails at a ratio of exactly 1: the test in the code
    is [compression_ratio > 1.0], so the array is sorted. *)
Lemma compression_sort_at_ratio_one :
  let env := example_env (fun a => (length a * 8)%nat) 0 in
  let cfg := forced COMPRESSION_SORT None false 2 in
  let arr := [2; 1]%Q in
  (compression_threshold cfg <= Z.of_nat (length arr))%Z
  /\ (1 <= compression_ratio_of env arr)%Q
  /\ _compression_sort env cfg arr = ok ([1; 2]%Q, (16 # 16)%Q)
  /\ _compression_sort env cfg arr <> ok (arr, 1%Q).
Proof.
  cbv zeta. split; [simpl; lia|]. split; [vm_compute; discriminate|].
  split; [vm_compute; reflexivity|]. vm_compute. discriminate.
Qed.

(** ** In-place updates *)

Lemma insert_swap_head (l : list Q) :
  forall (j : nat) (x y : Q),
    l !! j = Some y -> Permutation (y :: <[j := x]> l) (x :: l).
Proof.
  induction l as [|a l IH]; intros [|j] x y H; simpl in *; try discriminate.
  - injection H as ->. apply perm_swap.
  - rewrite perm_swap, (IH j x y H). apply perm_swap.
Qed.

Lemma insert_insert_perm (arr : list Q) :
  forall (i j : nat) (x y : Q),
    arr !! i = Some x -> arr !! j = Some y ->
    Permutation (<[j := x]> (<[i := y]> arr)) arr.
Proof.
  induction arr as [|a arr IH]; intros [|i] [|j] x y Hi Hj; simpl in *;
    try discriminate.
  - injection Hi as ->. injection Hj as ->. reflexivity.
  - injection Hi as ->. now apply insert_swap_head.
  - injection Hj as ->. now apply insert_swap_head.
  - constructor. now apply IH.
Qed.

Lemma swap_perm (i j : nat) (arr : list Q) :
  (i < length arr)%nat -> (j < length arr)%nat ->
  Permutation (Algo.swap i j arr) arr.
Proof.
  intros Hi Hj. unfold Algo.swap.
  apply insert_insert_perm; now apply nth_lookup_in_range.
Qed.

Lemma swap_length (i j : nat) (arr : list Q) :
  length (Algo.swap i j arr) = length arr.
Proof. unfold Algo.swap. now rewrite !length_insert. Qed.

(** ** [_heapsort] *)

Lemma heapify_perm (fuel : nat) :
  forall (n i : nat) (arr : list Q),
    (n <= length arr)%nat -> (i < length arr)%nat ->
    Permutation (Algo.heapify fuel n i arr) arr.
Proof.
  induction fuel as [|fuel IH]; intros n i arr Hn Hi; [reflexivity|].
  cbn [Algo.heapify].
  set (l1 := if _ && _ then _ else i).
  set (l2 := if _ && _ then _ else l1).
  assert (H1 : (l1 < length arr)%nat).
  { subst l1. destruct (2 * i + 1 <? n)%nat eqn:E; cbn [andb]; [|exact Hi].
    apply Nat.ltb_lt in E.
    match goal with |- context [Qgtb ?a ?b] => destruct (Qgtb a b) end; lia. }
  assert (H2 : (l2 < length arr)%nat).
  { subst l2. destruct (2 * i + 2 <? n)%nat eqn:E; cbn [andb]; [|exact H1].
    apply Nat.ltb_lt in E.
    match goal with |- context [Qgtb ?a ?b] => destruct (Qgtb a b) end; lia. }
  destruct (l2 =? i)%nat; [reflexivity|].
  rewrite IH.
  - now apply swap_perm.
  - now rewrite swap_length.
  - now rewrite swap_length.
Qed.

Lemma heapify_length (fuel n i : nat) (arr : list Q) :
  (n <= length arr)%nat -> (i < length arr)%nat ->
  length (Algo.heapify fuel n i arr) = length arr.
Proof. intros Hn Hi. apply Permutation_length. now apply heapify_perm. Qed.

Lemma heapify_fuel (f1 : nat) :
  forall (f2 n i : nat) (arr : list Q),
    (n - i <= f1)%nat -> (n - i <= f2)%nat ->
    Algo.heapify f1 n i arr = Algo.heapify f2 n i arr.
Proof.
  assert (Hstop : forall f n i arr, (n <= i)%nat -> Algo.heapify f n i arr = arr).
  { intros [|f] n i arr Hle; [reflexivity|]. cbn [Algo.heapify].
    replace (2 * i + 1 <? n)%nat with false
      by (symmetry; apply Nat.ltb_ge; lia).
    replace (2 * i + 2 <? n)%nat with false
      by (symmetry; apply Nat.ltb_ge; lia).
    simpl. now rewrite Nat.eqb_refl. }
  induction f1 as [|f1 IH]; intros f2 n i arr H1 H2.
  - rewrite !Hstop by lia. reflexivity.
  - destruct f2 as [|f2]; [rewrite !Hstop by lia; reflexivity|].
    cbn [Algo.heapify].
    set (l1 := if _ && _ then _ else i).
    set (l2 := if _ && _ then _ else l1).
    assert (Hl1 : (i <= l1)%nat).
    { subst l1.
      match goal with |- context [if ?c then _ else _] => destruct c end;
        lia. }
    assert (Hl2 : (i <= l2)%nat).
    { subst l2.
      match goal with |- context [if ?c then _ else _] => destruct c end;
        lia. }
    destruct (l2 =? i)%nat eqn:E; [reflexivity|].
    apply Nat.eqb_neq in E. apply IH; lia.
Qed.

Lemma foldl_perm_length {B : Type} (f : list Q -> B -> list Q)
      (P : B -> Prop) (xs : list B) :
  (forall a x, P x -> Permutation (f a x) a) ->
  Forall P xs ->
  forall a : list Q, Permutation (foldl f a xs) a.
Proof.
  intros Hf Hxs. induction Hxs as [|x xs Hx _ IH]; intros a; simpl.
  - reflexivity.
  - rewrite IH. now apply Hf.
Qed.

Lemma foldl_inv {A B : Type} (f : A -> B -> A) (I : A -> Prop)
      (P : B -> Prop) (xs : list B) :
  (forall a x, I a -> P x -> I (f a x)) ->
  Forall P xs ->
  forall a : A, I a -> I (foldl f a xs).
Proof.
  intros Hf Hxs. induction Hxs as [|x xs Hx _ IH]; intros a Ha; simpl.
  - exact Ha.
  - apply IH. now apply Hf.
Qed.

Lemma heapsort_perm (arr : list Q) : Permutation (Algo._heapsort arr) arr.
Proof.
  unfold Algo._heapsort.
  set (n := length arr).
  pose (I := fun a : list Q => Permutation a arr).
  assert (Hlen : forall a, I a -> length a = n).
  { intros a Ha. now apply Permutation_length. }
  change (I (foldl (fun a i => Algo.heapify n i 0 (Algo.swap 0 i a))
                   (foldl (fun a i => Algo.heapify n n i a) arr
                          (Algo.range_down (n / 2)))
                   (rev (seq 1 (n - 1))))).
  apply (foldl_inv _ I (fun i => (1 <= i < n)%nat)).
  - intros a i Ha Hi. unfold I in *.
    rewrite heapify_perm.
    + rewrite swap_perm; [exact Ha| |]; rewrite (Hlen a Ha); lia.
    + rewrite swap_length, (Hlen a Ha). lia.
    + rewrite swap_length, (Hlen a Ha). lia.
  - apply List.Forall_forall. intros i Hi. apply in_rev, in_seq in Hi. lia.
  - apply (foldl_inv _ I (fun i => (i < n / 2)%nat)).
    + intros a i Ha Hi. unfold I in *.
      assert (n / 2 <= n)%nat by (apply Nat.Div0.div_le_upper_bound; lia).
      rewrite heapify_perm; [exact Ha| |]; rewrite (Hlen a Ha); lia.
    + apply List.Forall_forall. intros i Hi. unfold Algo.range_down in Hi.
      apply in_rev, in_seq in Hi. lia.
    + unfold I. reflexivity.
Qed.

(** ** [_insertion_sort] *)

Lemma shift_right_spec (j1 : nat) :
  forall (key : Q) (arr : list Q),
    (j1 < length arr)%nat ->
    Algo.shift_right key j1 arr
    = rev (insert_from_right key (rev (take j1 arr))) ++ drop (S j1) arr.
Proof.
  induction j1 as [|j IH]; intros key arr Hlen.
  - destruct arr as [|a arr]; [simpl in Hlen; lia|]. reflexivity.
  - cbn [Algo.shift_right].
    destruct (nth_lookup_in_range arr j ltac:(lia)) as [Hj _].
    rewrite (take_S_r _ _ _ Hj), rev_app_distr. cbn [rev app insert_from_right].
    destruct (Qgtb (nth j arr 0%Q) key).
    + rewrite IH by (rewrite length_insert; lia).
      rewrite take_insert_ge by lia.
      rewrite drop_insert_ge by lia. rewrite Nat.sub_diag.
      destruct (nth_lookup_in_range arr (S j) Hlen) as [HSj _].
      rewrite (drop_S _ _ _ HSj). cbn [rev]. simpl.
      now rewrite <- app_assoc.
    + rewrite insert_take_drop by exact Hlen.
      rewrite (take_S_r _ _ _ Hj). cbn [rev]. rewrite rev_involutive.
      now rewrite <- !app_assoc.
Qed.

Lemma insert_from_right_perm (key : Q) (r : list Q) :
  Permutation (insert_from_right key r) (key :: r).
Proof.
  induction r as [|a r IH]; simpl; [reflexivity|].
  destruct (Qgtb a key); [|reflexivity].
  rewrite IH. apply perm_swap.
Qed.

Lemma insert_from_right_length (key : Q) (r : list Q) :
  length (insert_from_right key r) = S (length r).
Proof.
  now rewrite (Permutation_length (insert_from_right_perm key r)).
Qed.

Lemma insert_from_right_sorted (key : Q) (r : list Q) :
  Sorted Qge_ r -> Sorted Qge_ (insert_from_right key r).
Proof.
  induction r as [|a r IH]; intros Hs; simpl.
  - repeat constructor.
  - unfold Qgtb. destruct (Qltb key a) eqn:E.
    + apply Qltb_true in E. inversion Hs as [|? ? Hs' Hhd]; subst.
      constructor; [now apply IH|].
      destruct r as [|b r]; simpl.
      * constructor. unfold Qge_. lra.
      * unfold Qgtb. destruct (Qltb key b); constructor.
        -- now inversion Hhd.
        -- unfold Qge_. lra.
    + apply Qltb_false in E. constructor; [exact Hs|].
      constructor. exact E.
Qed.

Lemma Qle_trans_ : Relations_1.Transitive Qle.
Proof. intros x y z. apply Qle_trans. Qed.

Lemma Qge_trans_ : Relations_1.Transitive Qge_.
Proof. intros x y z Hxy Hyz. unfold Qge_ in *. lra. Qed.

Lemma strongly_sorted_app (R : Q -> Q -> Prop) (l1 l2 : list Q) :
  StronglySorted R l1 -> StronglySorted R l2 ->
  (forall x y, In x l1 -> In y l2 -> R x y) ->
  StronglySorted R (l1 ++ l2).
Proof.
  intros H1 H2 H12. induction H1 as [|x l1 Hs IH Hall]; simpl.
  - exact H2.
  - constructor.
    + apply IH. intros a b Ha Hb. apply H12; [now right|exact Hb].
    + apply List.Forall_app. split; [exact Hall|].
      apply List.Forall_forall. intros y Hy. apply H12; [now left|exact Hy].
Qed.

Lemma strongly_sorted_rev (R : Q -> Q -> Prop) (l : list Q) :
  StronglySorted R l -> StronglySorted (fun x y => R y x) (rev l).
Proof.
  induction 1 as [|x l Hs IH Hall]; simpl.
  - constructor.
  - apply strongly_sorted_app.
    + exact IH.
    + repeat constructor.
    + intros a b Ha Hb. destruct Hb as [<-|[]].
      apply in_rev in Ha.
      exact (proj1 (List.Forall_forall _ _) Hall a Ha).
Qed.

Lemma sorted_rev_ge (l : list Q) : Sorted Qle l -> Sorted Qge_ (rev l).
Proof.
  intros H. apply StronglySorted_Sorted.
  apply (strongly_sorted_rev Qle). apply Sorted_StronglySorted; [|exact H].
  exact Qle_trans_.
Qed.

Lemma sorted_rev_le (l : list Q) : Sorted Qge_ l -> Sorted Qle (rev l).
Proof.
  intros H. apply StronglySorted_Sorted.
  apply (strongly_sorted_rev Qge_). apply Sorted_StronglySorted; [|exact H].
  exact Qge_trans_.
Qed.

(** One turn of the outer loop. *)
Lemma insertion_step_spec (arr : list Q) (i : nat) :
  (i < length arr)%nat ->
  Algo.insertion_step arr i
  = rev (insert_from_right (nth i arr 0%Q) (rev (take i arr)))
    ++ drop (S i) arr.
Proof. intros H. unfold Algo.insertion_step. now apply shift_right_spec. Qed.

Lemma insertion_step_perm (arr : list Q) (i : nat) :
  (i < length arr)%nat -> Permutation (Algo.insertion_step arr i) arr.
Proof.
  intros H. rewrite insertion_step_spec by exact H.
  rewrite <- Permutation_rev, insert_from_right_perm, <- Permutation_rev.
  destruct (nth_lookup_in_range arr i H) as [Hi _].
  cbn [app]. rewrite Permutation_middle.
  now rewrite (take_drop_middle arr i _ Hi).
Qed.

Lemma insertion_step_sorted (arr : list Q) (i : nat) :
  (i < length arr)%nat ->
  Sorted Qle (take i arr) ->
  Sorted Qle (take (S i) (Algo.insertion_step arr i)).
Proof.
  intros H Hs. rewrite insertion_step_spec by exact H.
  rewrite take_app_length'.
  - apply sorted_rev_le, insert_from_right_sorted, sorted_rev_ge, Hs.
  - rewrite length_rev, insert_from_right_length, length_rev, length_take.
    lia.
Qed.

Lemma foldl_seq_inv {A : Type} (f : A -> nat -> A) (I : nat -> A -> Prop)
      (len : nat) :
  forall (start : nat) (a : A),
    I start a ->
    (forall i a, (start <= i < start + len)%nat -> I i a -> I (S i) (f a i)) ->
    I (start + len)%nat (foldl f a (seq start len)).
Proof.
  induction len as [|len IH]; intros start a Ha Hstep; simpl.
  - now rewrite Nat.add_0_r.
  - replace (start + S len)%nat with (S start + len)%nat by lia.
    apply IH.
    + apply Hstep; [lia|exact Ha].
    + intros i b Hi Hb. apply Hstep; [lia|exact Hb].
Qed.

(** The function under the decorator of [_insertion_sort] leaves the
    array it is given sorted, with the elements it had. *)
Lemma insertion_sort_correct (arr : list Q) :
  Permutation (Algo._insertion_sort_py_func arr) arr
  /\ Sorted Qle (Algo._insertion_sort_py_func arr).
Proof.
  unfold Algo._insertion_sort_py_func.
  destruct arr as [|x arr]; [split; [reflexivity|constructor]|].
  set (a0 := x :: arr).
  pose (I := fun (i : nat) (a : list Q) =>
               Permutation a a0 /\ Sorted Qle (take i a)).
  assert (H : I (1 + (length a0 - 1))%nat
                (foldl Algo.insertion_step a0 (seq 1 (length a0 - 1)))).
  { apply (foldl_seq_inv Algo.insertion_step I).
    - split; [reflexivity|]. simpl. repeat constructor.
    - intros i a Hi [Hp Hs].
      assert (Hlen : (i < length a)%nat).
      { rewrite (Permutation_length Hp). lia. }
      split.
      + rewrite insertion_step_perm; assumption.
      + now apply insertion_step_sorted. }
  destruct H as [Hp Hs]. split; [exact Hp|].
  rewrite take_ge in Hs; [exact Hs|].
  rewrite (Permutation_length Hp). simpl. lia.
Qed.

(** ** [_quicksort] and [_introsort] *)

Lemma three_way_ninther (arr : list Q) :
  (9 <= length arr)%nat ->
  let '(left_, middle, right_) := Algo.three_way arr (Algo._ninther arr) in
  Permutation (left_ ++ middle ++ right_) arr
  /\ (length left_ < length arr)%nat
  /\ (length right_ < length arr)%nat.
Proof.
  intros H. destruct (ninther_finite_in arr H) as (q & -> & Hin).
  pose proof (three_way_perm arr q) as Hp.
  pose proof (three_way_shorter arr q Hin) as Hs.
  destruct (Algo.three_way arr (Finite q)) as [[left_ middle] right_].
  tauto.
Qed.

Lemma three_way_middle (arr : list Q) :
  (9 <= length arr)%nat ->
  let '(left_, middle, right_) := Algo.three_way arr (Algo._ninther arr) in
  (length left_ + length right_ < length arr)%nat.
Proof.
  intros H. destruct (ninther_finite_in arr H) as (q & -> & Hin).
  pose proof (three_way_perm arr q) as Hp.
  assert (Hm : In q (snd (fst (Algo.three_way arr (Finite q))))).
  { unfold Algo.three_way, np.select. cbn [fst snd].
    apply filter_In. split; [exact Hin|]. cbn [eq_float]. apply Qeqb_refl. }
  destruct (Algo.three_way arr (Finite q)) as [[left_ middle] right_].
  cbn [fst snd] in Hm.
  apply Permutation_length in Hp. rewrite !length_app in Hp.
  destruct middle; [destruct Hm|]. simpl in Hp. lia.
Qed.

(** The recursion of [_quicksort] is on strictly shorter arrays, so it
    comes to an array of at most 16 elements, the left-most one first,
    and the call of [_insertion_sort] on it raises. *)
Lemma quicksort_rec_raises (fuel : nat) :
  forall arr : list Q,
    (length arr <= fuel + 16)%nat ->
    Algo.quicksort_rec fuel arr = raise TypingError.
Proof.
  induction fuel as [|fuel IH]; intros arr Hlen; cbn [Algo.quicksort_rec].
  - replace (length arr <=? 16)%nat with true
      by (symmetry; apply Nat.leb_le; lia).
    reflexivity.
  - destruct (length arr <=? 16)%nat eqn:E; [reflexivity|].
    apply Nat.leb_gt in E.
    pose proof (three_way_ninther arr ltac:(lia)) as H.
    destruct (Algo.three_way arr (Algo._ninther arr))
      as [[left_ middle] right_].
    destruct H as (_ & Hl & _).
    rewrite IH by lia. reflexivity.
Qed.

(** [_introsort] with a depth can raise nothing but [TypingError]. *)
Lemma introsort_rec_outcome (max_depth : nat) :
  forall arr : list Q,
    Algo.introsort_rec max_depth arr = raise TypingError
    \/ exists sorted : list Q, Algo.introsort_rec max_depth arr = ok sorted.
Proof.
  induction max_depth as [|d IH]; intros arr; cbn [Algo.introsort_rec];
    (destruct (length arr <=? 16)%nat; [now left|]).
  - right. eexists. reflexivity.
  - destruct (Algo.three_way arr (Algo._ninther arr))
      as [[left_ middle] right_].
    destruct (IH left_) as [->|[l ->]]; [now left|].
    destruct (IH right_) as [->|[r ->]]; [now left|].
    right. eexists. reflexivity.
Qed.

(** At depth [d] the recursion of [_introsort] has room for [2 ^ d]
    arrays of more than 16 elements side by side: an array of fewer
    than [17 * 2 ^ d] elements has a part of at most 16 elements
    somewhere above depth 0, and the call of [_insertion_sort] on it
    raises, after the parts to its left have been sorted. *)
Lemma introsort_rec_raises (max_depth : nat) :
  forall arr : list Q,
    (length arr < 17 * 2 ^ max_depth)%nat ->
    Algo.introsort_rec max_depth arr = raise TypingError.
Proof.
  induction max_depth as [|d IH]; intros arr Hlen; cbn [Algo.introsort_rec].
  - replace (length arr <=? 16)%nat with true
      by (symmetry; apply Nat.leb_le; simpl in Hlen; lia).
    reflexivity.
  - destruct (length arr <=? 16)%nat eqn:E; [reflexivity|].
    apply Nat.leb_gt in E.
    pose proof (three_way_middle arr ltac:(lia)) as H.
    destruct (Algo.three_way arr (Algo._ninther arr))
      as [[left_ middle] right_].
    rewrite Nat.pow_succ_r' in Hlen.
    destruct (Nat.lt_ge_cases (length left_) (17 * 2 ^ d)) as [Hl|Hl].
    + now rewrite IH.
    + destruct (introsort_rec_outcome d left_) as [->|[l ->]];
        [reflexivity|].
      cbn [rbind]. rewrite IH by lia. reflexivity.
Qed.

Lemma quicksort_raises (arr : list Q) :
  Algo._quicksort arr = raise TypingError.
Proof. unfold Algo._quicksort. apply quicksort_rec_raises. lia. Qed.

(** The depth [2 * int(log2(n))] that [_introsort] starts with is too
    small for [n] elements to stay in parts of more than 16. *)
Lemma introsort_raises (arr : list Q) :
  arr <> [] -> Algo._introsort arr = raise TypingError.
Proof.
  intros Hne. unfold Algo._introsort.
  destruct (length arr) as [|n] eqn:En; [now destruct arr|].
  apply introsort_rec_raises. rewrite En.
  pose proof (Nat.log2_spec (S n) ltac:(lia)) as [_ Hlog].
  rewrite Nat.pow_succ_r' in Hlog.
  replace (2 * Nat.log2 (S n))%nat
    with (Nat.log2 (S n) + Nat.log2 (S n))%nat by lia.
  rewrite Nat.pow_add_r.
  assert (1 <= 2 ^ Nat.log2 (S n))%nat
    by (apply Nat.neq_0_lt_0, Nat.pow_nonzero; lia).
  nia.
Qed.

(** ** [_merge_sorted_arrays] *)

Lemma heappop_from_perm (heap : list Pure.entry) :
  forall e : Pure.entry,
    let '(m, others) := Pure.heappop_from e heap in
    Permutation (m :: others) (e :: heap).
Proof.
  induction heap as [|e' heap IH]; intros e; simpl; [reflexivity|].
  specialize (IH e').
  destruct (Pure.heappop_from e' heap) as [m others].
  destruct (Pure.entry_lt m e).
  - rewrite perm_swap. now rewrite IH.
  - now rewrite IH.
Qed.

Lemma merge_loop_perm (arrays : list (list Q)) (fuel : nat) :
  forall (heap : list Pure.entry) (merged : list Q),
    Forall (entry_ok arrays) heap ->
    (length (concat (map (pending arrays) heap)) <= fuel)%nat ->
    Permutation (Pure.merge_loop fuel arrays heap merged)
                (merged ++ concat (map (pending arrays) heap)).
Proof.
  induction fuel as [|fuel IH]; intros heap merged Hok Hfuel.
  - destruct (concat (map (pending arrays) heap)) eqn:E;
      [|simpl in Hfuel; lia].
    simpl. now rewrite app_nil_r.
  - cbn [Pure.merge_loop]. unfold Pure.heappush. destruct heap as [|e rest].
    + simpl. now rewrite app_nil_r.
    + pose proof (heappop_from_perm rest e) as Hpop.
      destruct (Pure.heappop_from e rest) as [[[val arr_idx] elem_idx] heap'].
      assert (Hok' : Forall (entry_ok arrays) ((val, arr_idx, elem_idx) :: heap')).
      { now rewrite Hpop. }
      inversion Hok' as [|? ? Hentry Hheap']; subst.
      assert (Hpend : Permutation
                        (concat (map (pending arrays) (e :: rest)))
                        (pending arrays (val, arr_idx, elem_idx)
                         ++ concat (map (pending arrays) heap'))).
      { rewrite <- Hpop. reflexivity. }
      rewrite Hpend. rewrite (Permutation_length Hpend) in Hfuel.
      unfold entry_ok in Hentry. cbn [pending] in *.
      rewrite (drop_S _ _ _ Hentry) in *.
      destruct (elem_idx + 1 <? length (nth arr_idx arrays []))%nat eqn:E.
      * apply Nat.ltb_lt in E.
        destruct (nth_lookup_in_range (nth arr_idx arrays []) (elem_idx + 1) E)
          as [Hnext _].
        rewrite IH.
        -- cbn [map concat pending]. rewrite <- app_assoc.
           replace (elem_idx + 1)%nat with (S elem_idx) by lia.
           reflexivity.
        -- constructor; [exact Hnext|exact Hheap'].
        -- cbn [map concat pending].
           replace (elem_idx + 1)%nat with (S elem_idx) by lia.
           simpl in Hfuel. rewrite length_app in *. lia.
      * apply Nat.ltb_ge in E.
        rewrite drop_ge by lia.
        rewrite IH.
        -- rewrite <- app_assoc. reflexivity.
        -- exact Hheap'.
        -- simpl in Hfuel. rewrite length_app in Hfuel. lia.
Qed.

Lemma initial_heap_ok (arrays : list (list Q)) :
  forall (prefix : list (list Q)),
    Forall (entry_ok (prefix ++ arrays))
           (Pure.initial_heap arrays (length prefix))
    /\ concat (map (pending (prefix ++ arrays))
                   (Pure.initial_heap arrays (length prefix)))
       = concat arrays.
Proof.
  induction arrays as [|arr arrays IH]; intros prefix.
  - split; [constructor|reflexivity].
  - specialize (IH (prefix ++ [arr])).
    rewrite <- app_assoc in IH. cbn [app] in IH.
    rewrite length_app in IH. cbn [length] in IH.
    replace (length prefix + 1)%nat with (S (length prefix)) in IH by lia.
    destruct IH as [IHok IHc].
    cbn [Pure.initial_heap]. destruct arr as [|x arr].
    + split; [exact IHok|]. rewrite IHc. reflexivity.
    + unfold Pure.heappush. split.
      * constructor; [|exact IHok].
        unfold entry_ok. rewrite app_nth2 by lia.
        rewrite Nat.sub_diag. reflexivity.
      * cbn [map concat]. rewrite IHc. cbn [pending].
        rewrite app_nth2 by lia. rewrite Nat.sub_diag. reflexivity.
Qed.

(** The merge emits every element of every array. *)
Lemma merge_sorted_arrays_perm (arrays : list (list Q)) :
  Permutation (Pure._merge_sorted_arrays arrays) (concat arrays).
Proof.
  unfold Pure._merge_sorted_arrays.
  destruct (initial_heap_ok arrays []) as [Hok Hc]. simpl in Hok, Hc.
  rewrite merge_loop_perm.
  - simpl. now rewrite Hc.
  - exact Hok.
  - now rewrite Hc.
Qed.

(** ** Splitting and merging blocks *)

Lemma split_sizes_concat {A : Type} (sizes : list nat) :
  forall a : list A,
    concat (np.split_sizes sizes a) = take (list_sum sizes) a.
Proof.
  induction sizes as [|s sizes IH]; intros a; simpl.
  - now rewrite take_0.
  - rewrite IH. apply take_take_drop.
Qed.

Lemma list_sum_repeat (x n : nat) : list_sum (repeat x n) = (n * x)%nat.
Proof. induction n as [|n IH]; simpl; [reflexivity|]. rewrite IH. lia. Qed.

(** The sections of [np.array_split], concatenated, are the array. *)
Lemma array_split_concat {A : Type} (a : list A) (k : nat)
      (sections : list (list A)) :
  np.array_split a k = ok sections -> concat sections = a.
Proof.
  unfold np.array_split. destruct k as [|k]; [discriminate|].
  intros H. injection H as <-.
  rewrite split_sizes_concat, list_sum_app, !list_sum_repeat.
  apply take_ge.
  change (Nat.divmod (length a) k 0 k).1 with (length a / S k)%nat.
  change (k - (Nat.divmod (length a) k 0 k).2)%nat
    with (length a mod S k)%nat.
  pose proof (Nat.div_mod_eq (length a) (S k)) as Hdm.
  pose proof (Nat.mod_upper_bound (length a) (S k) ltac:(lia)) as Hm.
  set (each := (length a / S k)%nat) in *.
  set (extras := (length a mod S k)%nat) in *.
  assert (Hd : exists d : nat, (S k - extras = d /\ d + extras = S k)%nat)
    by (exists (S k - extras)%nat; lia).
  destruct Hd as (d & -> & Hd). nia.
Qed.


Lemma merge_pairs_perm (n : nat) :
  forall blocks : list (list Q),
    (length blocks <= n)%nat ->
    Permutation (concat (merge_pairs blocks)) (concat blocks)
    /\ length (merge_pairs blocks) = ((length blocks + 1) / 2)%nat.
Proof.
  induction n as [|n IH]; intros blocks Hlen.
  - destruct blocks; [split; reflexivity|simpl in Hlen; lia].
  - destruct blocks as [|b1 [|b2 rest]]; try (split; reflexivity).
    cbn [merge_pairs concat length].
    destruct (IH rest ltac:(simpl in Hlen; lia)) as [Hp Hl].
    split.
    + rewrite merge_sorted_arrays_perm, Hp. simpl.
      now rewrite app_nil_r, app_assoc.
    + rewrite Hl. replace (S (S (length rest)) + 1)%nat
        with (length rest + 1 + 1 * 2)%nat by lia.
      rewrite Nat.div_add by lia. lia.
Qed.

Lemma merge_rounds_perm (fuel : nat) :
  forall blocks : list (list Q),
    (length blocks <= fuel)%nat ->
    Permutation (concat (merge_rounds fuel blocks)) (concat blocks)
    /\ (length (merge_rounds fuel blocks) <= 1)%nat
    /\ (blocks <> [] -> merge_rounds fuel blocks <> []).
Proof.
  induction fuel as [|fuel IH]; intros blocks Hlen.
  - destruct blocks; [|simpl in Hlen; lia].
    simpl. split; [reflexivity|]. split; [lia|congruence].
  - cbn [merge_rounds].
    destruct (1 <? length blocks)%nat eqn:E.
    + apply Nat.ltb_lt in E.
      destruct (merge_pairs_perm (length blocks) blocks (le_n _)) as [Hp Hl].
      assert (Hhalf : ((length blocks + 1) / 2 <= fuel)%nat).
      { assert ((length blocks + 1) / 2 < length blocks)%nat
          by (apply Nat.Div0.div_lt_upper_bound; lia).
        lia. }
      destruct (IH (merge_pairs blocks) ltac:(lia)) as (Hp' & Hl' & Hne).
      split; [now rewrite Hp', Hp|]. split; [exact Hl'|].
      intros _. apply Hne. intros Hnil. rewrite Hnil in Hl.
      cbn [length] in Hl.
      assert (1 <= (length blocks + 1) / 2)%nat
        by (apply Nat.div_le_lower_bound; lia).
      lia.
    + apply Nat.ltb_ge in E. split; [reflexivity|]. split; [exact E|tauto].
Qed.

(** ** Filling buckets *)

Lemma py_index_in_range (len : nat) (i : Z) (k : nat) :
  py_index len i = ok k -> (k < len)%nat.
Proof.
  unfold py_index.
  destruct ((0 <=? i) && (i <? Z.of_nat len)) eqn:E1.
  - intros H. injection H as <-. lia.
  - destruct ((i <? 0) && (- Z.of_nat len <=? i)) eqn:E2; [|discriminate].
    intros H. injection H as <-. lia.
Qed.

Lemma alter_append_perm (buckets : list (list Q)) :
  forall (i : nat) (x : Q),
    (i < length buckets)%nat ->
    Permutation (concat (alter (fun b => b ++ [x]) i buckets))
                (x :: concat buckets).
Proof.
  induction buckets as [|b buckets IH]; intros i x Hi; [simpl in Hi; lia|].
  destruct i as [|i]; simpl.
  - rewrite <- app_assoc. simpl. now rewrite <- Permutation_middle.
  - etransitivity;
      [apply Permutation_app_head; apply (IH i x); simpl in Hi; lia|].
    now rewrite <- Permutation_middle.
Qed.

Lemma bucket_append_perm (buckets buckets' : list (list Q))
      (idx : Z) (x : Q) :
  bucket_append buckets idx x = ok buckets' ->
  Permutation (concat buckets') (x :: concat buckets).
Proof.
  unfold bucket_append.
  destruct (py_index (length buckets) idx) as [e|k] eqn:E; [discriminate|].
  simpl. intros H. injection H as <-.
  apply alter_append_perm. eapply py_index_in_range, E.
Qed.

Lemma fill_buckets_perm (n_buckets : nat) (min_val width : Q)
      (xs : list Q) :
  forall buckets buckets' : list (list Q),
    fill_buckets n_buckets min_val width xs buckets = ok buckets' ->
    Permutation (concat buckets') (concat buckets ++ xs).
Proof.
  induction xs as [|x xs IH]; intros buckets buckets' H; simpl in H.
  - injection H as <-. now rewrite app_nil_r.
  - match type of H with
    | rbind ?m _ = _ => destruct m as [e|b1] eqn:E; [discriminate|]
    end.
    simpl in H. rewrite (IH _ _ H).
    rewrite (bucket_append_perm _ _ _ _ E).
    now rewrite <- Permutation_middle.
Qed.

Lemma fill_buckets_inf_perm (n_buckets : nat) (min_val : Q) (xs : list Q) :
  forall buckets buckets' : list (list Q),
    fill_buckets_inf n_buckets min_val xs buckets = ok buckets' ->
    Permutation (concat buckets') (concat buckets ++ xs).
Proof.
  induction xs as [|x xs IH]; intros buckets buckets' H; simpl in H.
  - injection H as <-. now rewrite app_nil_r.
  - destruct (float64_overflows (x - min_val)); [discriminate|].
    match type of H with
    | rbind ?m _ = _ => destruct m as [e|b1] eqn:E; [discriminate|]
    end.
    simpl in H. rewrite (IH _ _ H).
    rewrite (bucket_append_perm _ _ _ _ E).
    now rewrite <- Permutation_middle.
Qed.

(** With an infinite width the loop does not come to its end: the
    element that made the range overflow raises, if none before it
    has. *)
Lemma fill_buckets_inf_raises (n_buckets : nat) (min_val : Q)
      (xs : list Q) (x : Q) :
  In x xs -> float64_overflows (x - min_val) = true ->
  forall buckets : list (list Q),
    exists e : exn, fill_buckets_inf n_buckets min_val xs buckets = raise e.
Proof.
  intros Hin Hx. induction xs as [|y xs IH]; intros buckets; [destruct Hin|].
  cbn [fill_buckets_inf].
  destruct (float64_overflows (y - min_val)) eqn:Ey; [now exists ValueError|].
  destruct Hin as [->|Hin]; [congruence|].
  destruct (bucket_append buckets _ y) as [e|b1]; [now exists e|].
  cbn [rbind]. apply (IH Hin).
Qed.

Lemma fill_buckets_inf_value_error (n_buckets : nat) (min_val : Q)
      (xs : list Q) (x : Q) :
  (1 <= n_buckets)%nat ->
  In x xs -> float64_overflows (x - min_val) = true ->
  forall buckets : list (list Q),
    length buckets = n_buckets ->
    fill_buckets_inf n_buckets min_val xs buckets = raise ValueError.
Proof.
  intros Hn Hin Hx.
  induction xs as [|y xs IH]; intros buckets Hlen; [destruct Hin|].
  cbn [fill_buckets_inf].
  destruct (float64_overflows (y - min_val)) eqn:Ey; [reflexivity|].
  destruct Hin as [->|Hin]; [congruence|].
  replace (0 =? Z.of_nat n_buckets) with false
    by (symmetry; apply Z.eqb_neq; lia).
  unfold bucket_append, py_index. rewrite Hlen.
  replace ((0 <=? 0) && (0 <? Z.of_nat n_buckets)) with true
    by (symmetry; apply andb_true_iff; split;
        [reflexivity|apply Z.ltb_lt; lia]).
  cbn [rbind ok]. apply (IH Hin). now rewrite length_alter.
Qed.

Lemma concat_sorted_nonempty (buckets : list (list Q)) :
  Permutation (concat (List.filter nonempty (map np.sort buckets)))
              (concat buckets).
Proof.
  induction buckets as [|b buckets IH]; [reflexivity|].
  cbn [map List.filter].
  pose proof (sort_perm b) as Hb.
  destruct (np.sort b) as [|y s] eqn:E; cbn [nonempty].
  - apply Permutation_nil in Hb. subst b. exact IH.
  - cbn [concat]. now rewrite IH, <- Hb.
Qed.

Lemma concat_repeat_nil {A : Type} (n : nat) :
  concat (repeat (@nil A) n) = [].
Proof. induction n as [|n IH]; simpl; [reflexivity|exact IH]. Qed.

Lemma concatenate_ok {A : Type} (parts : list (list A)) (a : list A) :
  np.concatenate parts = ok a -> a = concat parts.
Proof.
  unfold np.concatenate. destruct parts; [discriminate|].
  intros H. now injection H as <-.
Qed.

(** ** [_radix_sort] *)

Lemma radix_pass_perm (dt : dtype) (exp : Z) (xs : list Q) :
  forall buckets buckets' : list (list Q),
    radix_pass dt exp xs buckets = ok buckets' ->
    Permutation (concat buckets') (concat buckets ++ xs).
Proof.
  induction xs as [|x xs IH]; intros buckets buckets' H; simpl in H.
  - injection H as <-. now rewrite app_nil_r.
  - destruct dt; [discriminate|].
    match type of H with
    | rbind ?m _ = _ => destruct m as [e|b1] eqn:E; [discriminate|]
    end.
    simpl in H. rewrite (IH _ _ H).
    rewrite (bucket_append_perm _ _ _ _ E).
    now rewrite <- Permutation_middle.
Qed.

Lemma radix_loop_perm (fuel : nat) :
  forall (max_val : Q) (exp : Z) (dt : dtype) (arr sorted : list Q),
    radix_loop fuel max_val exp dt arr = ok sorted ->
    Permutation sorted arr.
Proof.
  induction fuel as [|fuel IH]; intros max_val exp dt arr sorted H;
    cbn [radix_loop] in H.
  - now injection H as <-.
  - destruct (int64_max <? exp); [discriminate|].
    destruct (0 <? Qfloor (max_val / inject_Z exp)).
    + match type of H with
      | rbind ?m _ = _ => destruct m as [e|b1] eqn:E; [discriminate|]
      end.
      cbn [rbind] in H. rewrite (IH _ _ _ _ _ H).
      rewrite (radix_pass_perm _ _ _ _ _ E).
      now rewrite concat_repeat_nil.
    + now injection H as <-.
Qed.

Lemma radix_sort_perm (dt : dtype) (arr sorted : list Q) :
  _radix_sort dt arr = ok sorted -> Permutation sorted arr.
Proof.
  unfold _radix_sort. destruct arr as [|x arr].
  - intros H. now injection H as <-.
  - destruct (np.max (x :: arr)) as [e|m]; [discriminate|].
    cbn [rbind]. apply radix_loop_perm.
Qed.

(** ** [_hybrid_sort] below 1000 elements *)

Lemma hybrid_sort_small (arr sorted : list Q) :
  (length arr < 1000)%nat ->
  Algo._hybrid_sort arr = ok sorted -> sorted = np.sort arr.
Proof.
  intros Hlen. unfold Algo._hybrid_sort.
  destruct (length arr <? 1000)%nat eqn:E.
  - intros H. now injection H as <-.
  - apply Nat.ltb_ge in E. lia.
Qed.

(** ** The monad of engine methods *)

Lemma bind_ok {A B : Type} (m : M A) (f : A -> M B) (s s' : State) (b : B) :
  bind m f s = (inr b, s') ->
  exists (a : A) (s1 : State), m s = (inr a, s1) /\ f a s1 = (inr b, s').
Proof.
  unfold bind. destruct (m s) as [[e|a] s1]; [discriminate|].
  intros H. now exists a, s1.
Qed.

Lemma lift_ok {A : Type} (r : result A) (s s' : State) (a : A) :
  lift r s = (inr a, s') -> r = inr a /\ s' = s.
Proof. unfold lift. intros H. injection H as -> ->. now split. Qed.

Lemma ret_ok {A : Type} (x a : A) (s s' : State) :
  ret x s = (inr a, s') -> a = x /\ s' = s.
Proof. unfold ret, ok. intros H. injection H as -> ->. now split. Qed.

Lemma preserves_ret {A : Type} (a : A) : preserves_input (ret a).
Proof. intros s. reflexivity. Qed.

Lemma preserves_throw {A : Type} (e : exn) : preserves_input (@throw A e).
Proof. intros s. reflexivity. Qed.

Lemma preserves_lift {A : Type} (r : result A) : preserves_input (lift r).
Proof. intros s. reflexivity. Qed.

Lemma preserves_bind {A B : Type} (m : M A) (f : A -> M B) :
  preserves_input m -> (forall a, preserves_input (f a)) ->
  preserves_input (bind m f).
Proof.
  intros Hm Hf s. unfold bind. specialize (Hm s).
  destruct (m s) as [[e|a] s1]; simpl in *; [exact Hm|].
  now rewrite Hf.
Qed.

Lemma preserves_mapM {A B : Type} (f : A -> M B) (l : list A) :
  (forall a, preserves_input (f a)) -> preserves_input (mapM f l).
Proof.
  intros Hf. induction l as [|x l IH]; simpl.
  - apply preserves_ret.
  - apply preserves_bind; [apply Hf|]. intros y.
    apply preserves_bind; [exact IH|]. intros ys. apply preserves_ret.
Qed.

Lemma preserves_ok {A : Type} (m : M A) (s s' : State) (r : result A) :
  preserves_input m -> m s = (r, s') -> input_array s' = input_array s.
Proof. intros Hm H. specialize (Hm s). now rewrite H in Hm. Qed.

Lemma returns_bind {A B : Type} (m : M A) (f : A -> M B)
      (Q : A -> Prop) (P : B -> Prop) :
  returns m Q -> (forall a, Q a -> returns (f a) P) -> returns (bind m f) P.
Proof.
  intros Hm Hf s b s' H. apply bind_ok in H as (a & s1 & H1 & H2).
  exact (Hf a (Hm _ _ _ H1) _ _ _ H2).
Qed.

Lemma returns_any {A : Type} (m : M A) : returns m (fun _ => True).
Proof. intros s a s' _. exact I. Qed.

Lemma returns_ret {A : Type} (a : A) (P : A -> Prop) : P a -> returns (ret a) P.
Proof. intros H s b s' Hb. apply ret_ok in Hb as [-> _]. exact H. Qed.

Lemma returns_throw {A : Type} (e : exn) (P : A -> Prop) : returns (throw e) P.
Proof. intros s a s' H. discriminate. Qed.

Lemma returns_lift {A : Type} (r : result A) (P : A -> Prop) :
  (forall a, r = inr a -> P a) -> returns (lift r) P.
Proof. intros H s a s' Ha. apply lift_ok in Ha as [-> _]. now apply H. Qed.

(** ** Methods that do not touch the input array *)

Section Frames.

Variable env : Env.
Variable cfg : Config.

Lemma preserves_random_sample (arr : list Q) (k : nat) :
  preserves_input (random_sample env arr k).
Proof.
  intros s. unfold random_sample. destruct (_ || _); reflexivity.
Qed.

Lemma preserves_cache_get (k : key) : preserves_input (cache_get k).
Proof.
  intros s. unfold cache_get.
  destruct (AdaptiveCache.get k (cache s)). reflexivity.
Qed.

Lemma preserves_cache_put (k : key) (v : nat) :
  preserves_input (cache_put k v).
Proof.
  intros s. unfold cache_put.
  destruct (AdaptiveCache.put k v (cache s)); reflexivity.
Qed.

Ltac frame :=
  repeat first
         [ apply preserves_ret
         | apply preserves_throw
         | apply preserves_lift
         | apply preserves_random_sample
         | apply preserves_cache_get
         | apply preserves_cache_put
         | apply preserves_bind; [|intros ?]
         | match goal with
           | |- preserves_input (if ?c then _ else _) => destruct c
           | |- preserves_input (match ?x with _ => _ end) => destruct x
           | |- preserves_input (let '(_, _) := ?x in _) => destruct x
           end ].

Lemma preserves_optimize_bucket_count (arr : list Q) :
  preserves_input (_optimize_bucket_count env arr).
Proof. unfold _optimize_bucket_count. frame. Qed.

Lemma preserves_bucket_sort (arr : list Q) :
  preserves_input (_bucket_sort env arr).
Proof.
  unfold _bucket_sort. destruct arr; [apply preserves_ret|].
  apply preserves_bind; [apply preserves_optimize_bucket_count|intros ?].
  frame.
Qed.

Lemma preserves_get_bucket_distribution (arr : list Q) :
  preserves_input (_get_bucket_distribution env arr).
Proof.
  unfold _get_bucket_distribution. destruct arr; [apply preserves_ret|].
  apply preserves_bind; [apply preserves_optimize_bucket_count|intros ?].
  frame.
Qed.

Lemma preserves_calculate_stats (arr : list Q) (st al : string)
      (error : bool) (chunks : nat) (ratio : Q) (detected : bool) :
  preserves_input (_calculate_stats env arr st al error chunks ratio detected).
Proof.
  unfold _calculate_stats. destruct error; [apply preserves_ret|].
  apply preserves_bind; [apply preserves_get_bucket_distribution|intros ?].
  apply preserves_ret.
Qed.

Lemma preserves_parallel_sort (arr : list Q) :
  preserves_input (_parallel_sort env cfg arr).
Proof.
  unfold _parallel_sort.
  apply preserves_bind; [apply preserves_lift|intros ?].
  apply preserves_bind; [frame|intros ?].
  apply preserves_bind; [apply preserves_lift|intros ?].
  apply preserves_bind; [apply preserves_calculate_stats|intros ?].
  apply preserves_ret.
Qed.

Lemma preserves_adaptive_sort (arr : list Q) :
  preserves_input (_adaptive_sort env cfg arr).
Proof.
  unfold _adaptive_sort.
  apply preserves_bind; [apply preserves_random_sample|intros sample].
  apply preserves_bind.
  - destruct (is_nearly_sorted sample); [apply preserves_ret|].
    apply preserves_bind; [apply preserves_lift|intros ?].
    apply preserves_bind; [apply preserves_lift|intros ?].
    destruct (std_below_range_percent _ _).
    + apply preserves_bind; [apply preserves_parallel_sort|intros [? ?]].
      apply preserves_ret.
    + frame.
  - intros [? ?].
    apply preserves_bind; [apply preserves_calculate_stats|intros ?].
    apply preserves_ret.
Qed.

Lemma preserves_choose_optimal_strategy (arr : list Q) :
  preserves_input (_choose_optimal_strategy env cfg arr).
Proof. unfold _choose_optimal_strategy. frame. Qed.

Lemma preserves_predict_strategy (arr : list Q) :
  preserves_input (_predict_strategy env cfg arr).
Proof.
  unfold _predict_strategy.
  destruct (negb _); [apply preserves_choose_optimal_strategy|]. frame.
Qed.

Lemma preserves_select_strategy (arr : list Q) :
  preserves_input (select_strategy env cfg arr).
Proof.
  unfold select_strategy. destruct (_ <? _); [apply preserves_ret|].
  destruct (use_ml_prediction cfg); [apply preserves_predict_strategy|].
  destruct (strategy cfg);
    try apply preserves_ret; apply preserves_choose_optimal_strategy.
Qed.

Lemma preserves_stream_sort_and_collect (data_stream : list Q) :
  preserves_input (_stream_sort_and_collect env data_stream).
Proof.
  unfold _stream_sort_and_collect.
  apply preserves_bind.
  - intros s. unfold run_stream_processor.
    destruct (StreamProcessor.process_stream _ _). reflexivity.
  - intros windows. destruct windows.
    + apply preserves_bind; [apply preserves_calculate_stats|intros ?].
      apply preserves_ret.
    + apply preserves_bind; [intros s; reflexivity|intros ?].
      apply preserves_bind; [apply preserves_calculate_stats|intros ?].
      apply preserves_ret.
Qed.

End Frames.

(** ** Strategies return the elements they were given *)

Lemma concat_map_sort_perm (chunks : list (list Q)) :
  Permutation (concat (map np.sort chunks)) (concat chunks).
Proof.
  induction chunks as [|c chunks IH]; [reflexivity|].
  cbn [map concat]. now rewrite IH, sort_perm.
Qed.

Section Strategies.

Variable env : Env.
Variable cfg : Config.

Lemma bucket_sort_perm (arr : list Q) :
  returns (_bucket_sort env arr) (fun r => Permutation r arr).
Proof.
  unfold _bucket_sort. destruct arr as [|x arr]; [now apply returns_ret|].
  set (a := x :: arr).
  eapply returns_bind; [apply returns_any|]. intros n_buckets _.
  eapply returns_bind; [apply returns_any|]. intros min_val _.
  eapply returns_bind; [apply returns_any|]. intros max_val _.
  destruct (Qeqb min_val max_val); [now apply returns_ret|].
  destruct (float64_overflows (max_val - min_val)).
  { eapply returns_bind.
    - apply returns_lift. intros buckets H.
      exact (fill_buckets_inf_perm _ _ _ _ _ H).
    - intros buckets Hb. cbn beta in Hb.
      apply returns_lift. intros r Hr. apply concatenate_ok in Hr. subst r.
      rewrite concat_sorted_nonempty, Hb.
      now rewrite concat_repeat_nil. }
  destruct n_buckets as [|n]; [apply returns_throw|].
  eapply returns_bind.
  - apply returns_lift. intros buckets H. exact (fill_buckets_perm _ _ _ _ _ _ H).
  - intros buckets Hb. cbn beta in Hb.
    apply returns_lift. intros r Hr. apply concatenate_ok in Hr. subst r.
    rewrite concat_sorted_nonempty, Hb.
    now rewrite (concat_repeat_nil (S n)).
Qed.

Lemma parallel_sort_perm (arr : list Q) :
  returns (_parallel_sort env cfg arr) (fun r => Permutation (fst r) arr).
Proof.
  unfold _parallel_sort.
  eapply returns_bind; [apply returns_any|]. intros chunk_size_ _.
  eapply returns_bind; [apply returns_any|]. intros sections _.
  eapply returns_bind.
  - apply returns_lift. intros chunks H. exact (array_split_concat _ _ _ H).
  - intros chunks Hc. cbn beta in Hc.
    eapply returns_bind; [apply returns_any|]. intros stats _.
    apply returns_ret. cbn [fst].
    now rewrite merge_sorted_arrays_perm, concat_map_sort_perm, Hc.
Qed.

Lemma adaptive_sort_perm (arr : list Q) :
  (length arr < 1000)%nat ->
  returns (_adaptive_sort env cfg arr) (fun r => Permutation (fst r) arr).
Proof.
  intros Hlen. unfold _adaptive_sort.
  eapply returns_bind; [apply returns_any|]. intros sample _.
  eapply returns_bind
    with (Q := fun p : Algorithm * list Q => Permutation (snd p) arr).
  - destruct (is_nearly_sorted sample).
    + apply returns_ret. apply sort_perm.
    + eapply returns_bind; [apply returns_any|]. intros hi _.
      eapply returns_bind; [apply returns_any|]. intros lo _.
      destruct (std_below_range_percent _ _).
      * eapply returns_bind; [apply parallel_sort_perm|].
        intros [r stats] Hr. now apply returns_ret.
      * eapply returns_bind.
        -- apply returns_lift. intros r Hr.
           exact (hybrid_sort_small _ _ Hlen Hr).
        -- intros r ->. apply returns_ret. apply sort_perm.
  - intros [algorithm r] Hr.
    eapply returns_bind; [apply returns_any|]. intros stats _.
    now apply returns_ret.
Qed.

(** *** [_external_sort] on a [float64] array *)

Lemma chunks_concat (c : nat) (file : list Q) (k : nat) :
  concat (map (fun i => take c (drop (i * c) file)) (seq 0 k))
  = take (k * c) file.
Proof.
  induction k as [|k IH].
  - simpl. now rewrite take_0.
  - rewrite seq_S, map_app, concat_app, IH. cbn [map concat plus].
    rewrite app_nil_r. replace (S k * c)%nat with (k * c + c)%nat by lia.
    now rewrite take_take_drop.
Qed.

Lemma read_chunk_is_slice (file : list Q) (i : nat) :
  let nbytes := (length file * itemsize)%nat in
  let offset := (i * buffer_size)%nat in
  _read_chunk_sync file offset (Nat.min buffer_size (nbytes - offset))
  = take 512 (drop (i * 512) file).
Proof.
  cbv zeta. unfold _read_chunk_sync, Pure.slice, itemsize, buffer_size.
  replace (i * 4096)%nat with (i * 512 * 8)%nat by lia.
  rewrite Nat.div_mul by lia.
  destruct (Nat.le_ge_cases 4096 (length file * 8 - i * 512 * 8)) as [H|H].
  - rewrite Nat.min_l by exact H. reflexivity.
  - rewrite Nat.min_r by exact H.
    replace (length file * 8 - i * 512 * 8)%nat
      with ((length file - i * 512) * 8)%nat by lia.
    rewrite Nat.div_mul by lia.
    assert (Hlen : (length (drop (i * 512) file) <= 512)%nat)
      by (rewrite length_drop; lia).
    rewrite take_ge by (rewrite length_drop; lia).
    now rewrite take_ge by exact Hlen.
Qed.

Lemma external_sort_perm (arr : list Q) :
  Permutation (_external_sort env Float64 arr) arr.
Proof.
  unfold _external_sort. cbn [file_values].
  set (k := ((length arr * itemsize + buffer_size - 1) / buffer_size)%nat).
  assert (Hchunks :
            map (fun i =>
                   _read_chunk_sync arr (i * buffer_size)
                     (Nat.min buffer_size
                              (length arr * itemsize - i * buffer_size)))
                (seq 0 k)
            = map (fun i => take 512 (drop (i * 512) arr)) (seq 0 k)).
  { apply map_ext. intros i. apply read_chunk_is_slice. }
  rewrite Hchunks.
  assert (Hall : concat (map (fun i => take 512 (drop (i * 512) arr))
                             (seq 0 k)) = arr).
  { rewrite chunks_concat. apply take_ge. unfold k, itemsize, buffer_size.
    assert (length arr * 8 + 4096 - 1 < (S ((length arr * 8 + 4096 - 1) / 4096)) * 4096)%nat.
    { pose proof (Nat.div_mod_eq (length arr * 8 + 4096 - 1) 4096).
      pose proof (Nat.mod_upper_bound (length arr * 8 + 4096 - 1) 4096
                                      ltac:(lia)).
      lia. }
    lia. }
  destruct (map np.sort _) as [|c cs] eqn:E.
  - destruct (seq 0 k) as [|i l]; [|discriminate].
    simpl in Hall. now rewrite <- Hall.
  - rewrite <- E, merge_sorted_arrays_perm, concat_map_sort_perm.
    now rewrite Hall.
Qed.

End Strategies.

(** ** Block sort *)

Lemma write_slice_middle (pre block post vals : list Q) :
  length vals = length block ->
  Pure.write_slice (length pre) vals (pre ++ block ++ post)
  = pre ++ vals ++ post.
Proof.
  intros Hlen. unfold Pure.write_slice.
  rewrite take_app_length. f_equal. f_equal.
  rewrite drop_app_add, Hlen. apply drop_app_length.
Qed.

Section BlockSort.

Variable env : Env.
Variable cfg : Config.

(** Only a clustered block is sorted, by [_bucket_sort]: for every
    other block the sort that is chosen runs into [_insertion_sort]. *)
Lemma optimize_block_sort_cases (block : list Q) (s : State) :
  _optimize_block_sort env block s
  = if clustered block then _bucket_sort env block s
    else (raise TypingError, s).
Proof.
  unfold _optimize_block_sort, clustered.
  destruct (length block <? 16)%nat eqn:E.
  - apply Nat.ltb_lt in E.
    replace (16 <=? length block)%nat with false
      by (symmetry; apply Nat.leb_gt; exact E).
    reflexivity.
  - apply Nat.ltb_ge in E.
    replace (16 <=? length block)%nat with true
      by (symmetry; apply Nat.leb_le; exact E).
    cbn [andb]. unfold bind, lift.
    destruct (np.ptp block) as [e|range_size] eqn:Ep.
    + destruct block; [simpl in E; lia|discriminate].
    + destruct (std_below_range_percent _ _); [reflexivity|].
      destruct (length block <? 1000)%nat.
      * now rewrite quicksort_raises.
      * rewrite introsort_raises; [reflexivity|].
        intros ->. simpl in E. lia.
Qed.

Lemma preserves_optimize_block_sort (block : list Q) :
  preserves_input (_optimize_block_sort env block).
Proof.
  intros s. rewrite optimize_block_sort_cases.
  destruct (clustered block); [apply preserves_bucket_sort|reflexivity].
Qed.

Lemma optimize_block_sort_spec (block : list Q) (s s' : State) (r : list Q) :
  _optimize_block_sort env block s = (inr r, s') ->
  clustered block = true /\ _bucket_sort env block s = (inr r, s').
Proof.
  rewrite optimize_block_sort_cases.
  destruct (clustered block); [now split|discriminate].
Qed.

Lemma block_sorts_spec (blocks : list (list Q)) :
  forall (s s' : State) (rs : list (list Q)),
    mapM (_optimize_block_sort env) blocks s = (inr rs, s') ->
    Permutation (concat rs) (concat blocks)
    /\ length rs = length blocks.
Proof.
  induction blocks as [|b blocks IH]; intros s s' rs H.
  - simpl in H. apply ret_ok in H as [-> ->]. now split.
  - cbn [mapM] in H.
    apply bind_ok in H as (r & s1 & Hb & H).
    apply bind_ok in H as (rs' & s2 & Hrest & H).
    apply ret_ok in H as [-> ->].
    apply optimize_block_sort_spec in Hb as [_ Hb].
    pose proof (bucket_sort_perm env b _ _ _ Hb) as Hr.
    destruct (IH _ _ _ Hrest) as (Hrs & Hlen).
    split; [cbn [concat]; now rewrite Hr, Hrs|].
    simpl. now rewrite Hlen.
Qed.

Lemma getitem_ok {A : Type} (l : list A) (i : nat) (x : A) :
  getitem l i = ok x -> l !! i = Some x.
Proof.
  unfold getitem. destruct (l !! i); [|discriminate].
  intros H. now injection H as ->.
Qed.

Lemma preserves_advanced_block_sort (arr : list Q) :
  preserves_input (_advanced_block_sort env cfg arr).
Proof.
  unfold _advanced_block_sort.
  destruct (length arr <? 1000)%nat; [apply preserves_ret|].
  apply preserves_bind; [apply preserves_lift|]. intros blocks.
  apply preserves_bind;
    [apply preserves_mapM, preserves_optimize_block_sort|].
  intros rs. apply preserves_lift.
Qed.

(** [_advanced_block_sort] returns the elements of the array. *)
Lemma advanced_block_sort_spec (arr : list Q) (s s' : State) (r : list Q) :
  _advanced_block_sort env cfg arr s = (inr r, s') ->
  Permutation r arr.
Proof.
  intros H. unfold _advanced_block_sort in H.
  destruct (length arr <? 1000)%nat.
  - apply ret_ok in H as [-> ->]. apply sort_perm.
  - apply bind_ok in H as (blocks & s1 & Hsplit & H).
    apply lift_ok in Hsplit as [Hsplit ->].
    apply bind_ok in H as (rs & s2 & Hsorts & H).
    apply lift_ok in H as [Hfirst ->].
    assert (Hconcat : concat blocks = arr).
    { unfold Pure.split_into_blocks in Hsplit.
      destruct (block_size cfg); [discriminate|].
      exact (array_split_concat _ _ _ Hsplit). }
    destruct (block_sorts_spec _ _ _ _ Hsorts) as (Hrs & Hlen).
    destruct (merge_rounds_perm (length rs) rs (le_n _)) as (Hm & Hone & _).
    apply getitem_ok in Hfirst.
    destruct (merge_rounds (length rs) rs) as [|first [|second rest]];
      [discriminate| |simpl in Hone; lia].
    simpl in Hfirst. injection Hfirst as ->.
    simpl in Hm. rewrite app_nil_r in Hm.
    now rewrite Hm, Hrs, Hconcat.
Qed.


(** *** [_memory_efficient_sort] *)

Lemma sort_chunks_raises (i : nat) (rest : list nat) (chunk_size_ : nat)
      (result_ : list Q) (s : State) :
  sort_chunks (i :: rest) chunk_size_ result_ s = (inl TypeError, s).
Proof. reflexivity. Qed.

Lemma range_step_empty (n step : nat) :
  range_step n step = ok [] -> n = 0%nat.
Proof.
  unfold range_step. destruct step as [|step]; [discriminate|].
  intros H. unfold ok in H. injection H as H.
  apply map_eq_nil in H.
  assert (Hz : ((n + S step - 1) / S step = 0)%nat).
  { apply (f_equal (@length nat)) in H. now rewrite length_seq in H. }
  apply Nat.div_small_iff in Hz; lia.
Qed.

(** Whenever [_memory_efficient_sort] returns, the array was empty. *)
Lemma memory_efficient_sort_spec (arr : list Q) (s s' : State)
      (r : list Q * SortStats) :
  _memory_efficient_sort env cfg arr s = (inr r, s') ->
  arr = [] /\ fst r = [] /\ input_array s' = input_array s.
Proof.
  intros H. unfold _memory_efficient_sort in H.
  apply bind_ok in H as (chunk_size_ & s1 & Hc & H).
  apply lift_ok in Hc as [_ ->].
  apply bind_ok in H as (starts & s1 & Hs & H).
  apply lift_ok in Hs as [Hs ->].
  apply bind_ok in H as (result_ & s1 & Hloop & H).
  destruct starts as [|i rest]; [|rewrite sort_chunks_raises in Hloop;
                                   discriminate].
  apply range_step_empty in Hs.
  apply ret_ok in Hloop as [-> ->].
  apply bind_ok in H as (arr' & s1 & Hread & H).
  unfold read_input in Hread. injection Hread as <- <-.
  apply bind_ok in H as (stats & s2 & Hstats & H).
  apply ret_ok in H as [-> ->].
  assert (arr = []) as -> by (now destruct arr).
  split; [reflexivity|]. split; [reflexivity|].
  exact (preserves_ok _ _ _ _ (preserves_calculate_stats env _ _ _ _ _ _ _)
                      Hstats).
Qed.

End BlockSort.

(** ** [sort]: dispatch, verification, fallback *)

Section Sort.

Variable env : Env.
Variable cfg : Config.

Lemma calculate_stats_ok (arr : list Q) (st al : string) (chunks : nat)
      (ratio : Q) (detected : bool) (s s' : State) (stats : SortStats) :
  _calculate_stats env arr st al false chunks ratio detected s
  = (inr stats, s') ->
  strategy_used stats = st /\ algorithm_used stats = al
  /\ error_detected stats = detected /\ items_processed stats = length arr
  /\ input_array s' = input_array s.
Proof.
  intros H.
  pose proof (preserves_ok _ _ _ _
                (preserves_calculate_stats env arr st al false chunks
                                           ratio detected) H) as Hin.
  unfold _calculate_stats in H.
  apply bind_ok in H as (distribution & s1 & _ & H).
  apply ret_ok in H as [-> _]. simpl. auto.
Qed.

Lemma dispatch_parallel_spec (arr : list Q) (s s' : State) (d : Dispatched) :
  (let* (r, stats) := _parallel_sort env cfg arr in
   ret (Computed (WithStats r stats))) s = (inr d, s') ->
  input_array s = arr ->
  exists r : SortResult,
    d = Computed r
    /\ Permutation (input_array s') arr
    /\ (True -> Permutation (result_array r) arr).
Proof.
  intros H Hin.
  apply bind_ok in H as ([r stats] & s1 & Hr & H).
  apply ret_ok in H as [-> ->].
  exists (WithStats r stats). split; [reflexivity|].
  split; [now rewrite (preserves_ok _ _ _ _
                         (preserves_parallel_sort env cfg arr) Hr), Hin|].
  intros _. exact (parallel_sort_perm env cfg arr _ _ _ Hr).
Qed.

Lemma dispatch_spec (strategy_ : SortStrategy) (dt : dtype) (arr : list Q)
      (s s' : State) (d : Dispatched) :
  dispatch env cfg strategy_ dt arr s = (inr d, s') ->
  input_array s = arr ->
  strategy_ <> STREAM ->
  exists r : SortResult,
    d = Computed r
    /\ Permutation (input_array s') arr
    /\ (keeps_elements strategy_ dt arr -> Permutation (result_array r) arr).
Proof.
  intros H Hin Hns.
  destruct strategy_; cbn [dispatch keeps_elements] in *;
    try (exact (dispatch_parallel_spec arr s s' d H Hin)); try congruence.
  - (* MEMORY_EFFICIENT *)
    apply bind_ok in H as ([r stats] & s1 & Hr & H).
    apply ret_ok in H as [-> ->].
    destruct (memory_efficient_sort_spec env cfg _ _ _ _ Hr)
      as (-> & Hr0 & Hs).
    simpl in Hr0. subst r.
    exists (WithStats [] stats). split; [reflexivity|].
    split; [now rewrite Hs, Hin|]. reflexivity.
  - (* HYBRID *)
    apply bind_ok in H as (r & s1 & Hr & H).
    apply lift_ok in Hr as [Hr ->].
    apply bind_ok in H as (stats & s1 & Hstats & H).
    apply ret_ok in H as [-> ->].
    apply calculate_stats_ok in Hstats as (_ & _ & _ & _ & Hs).
    exists (WithStats r stats). split; [reflexivity|].
    split; [now rewrite Hs, Hin|].
    intros Hlen. rewrite (hybrid_sort_small _ _ Hlen Hr). apply sort_perm.
  - (* ADAPTIVE *)
    apply bind_ok in H as ([r stats] & s1 & Hr & H).
    apply ret_ok in H as [-> ->].
    exists (WithStats r stats). split; [reflexivity|].
    split; [now rewrite (preserves_ok _ _ _ _
                           (preserves_adaptive_sort env cfg arr) Hr), Hin|].
    intros Hlen. exact (adaptive_sort_perm env cfg arr Hlen _ _ _ Hr).
  - (* BLOCK_SORT *)
    apply bind_ok in H as (r & s1 & Hr & H).
    apply ret_ok in H as [-> ->].
    pose proof (advanced_block_sort_spec env cfg _ _ _ _ Hr) as Hp.
    exists (Bare r). split; [reflexivity|].
    split; [|now intros _].
    now rewrite (preserves_ok _ _ _ _
                   (preserves_advanced_block_sort env cfg arr) Hr), Hin.
  - (* BUCKET_SORT *)
    apply bind_ok in H as (r & s1 & Hr & H).
    apply ret_ok in H as [-> ->].
    exists (Bare r). split; [reflexivity|].
    split; [now rewrite (preserves_ok _ _ _ _
                           (preserves_bucket_sort env arr) Hr), Hin|].
    intros _. exact (bucket_sort_perm env arr _ _ _ Hr).
  - (* RADIX_SORT *)
    apply bind_ok in H as (r & s1 & Hr & H).
    apply lift_ok in Hr as [Hr ->].
    apply bind_ok in H as (stats & s1 & Hstats & H).
    apply ret_ok in H as [-> ->].
    apply calculate_stats_ok in Hstats as (_ & _ & _ & _ & Hs).
    exists (WithStats r stats). split; [reflexivity|].
    split; [now rewrite Hs, Hin|].
    intros _. exact (radix_sort_perm _ _ _ Hr).
  - (* COMPRESSION_SORT *)
    apply bind_ok in H as ([r ratio] & s1 & Hr & H).
    apply lift_ok in Hr as [Hr ->].
    apply bind_ok in H as (stats & s1 & Hstats & H).
    apply ret_ok in H as [-> ->].
    apply calculate_stats_ok in Hstats as (_ & _ & _ & _ & Hs).
    exists (WithStats r stats). split; [reflexivity|].
    split; [now rewrite Hs, Hin|].
    intros _. unfold _compression_sort in Hr.
    destruct (_ <? _); [injection Hr as <- _; reflexivity|].
    destruct (length arr * itemsize)%nat; [discriminate|].
    destruct (Qgtb _ _); injection Hr as <- _;
      [reflexivity|apply sort_perm].
  - (* EXTERNAL_SORT *)
    apply bind_ok in H as (stats & s1 & Hstats & H).
    apply ret_ok in H as [-> ->].
    apply calculate_stats_ok in Hstats as (_ & _ & _ & _ & Hs).
    eexists. split; [reflexivity|].
    split; [now rewrite Hs, Hin|].
    intros ->. apply external_sort_perm.
Qed.

Lemma dispatch_stream (dt : dtype) (arr : list Q) (s s' : State)
      (d : Dispatched) :
  dispatch env cfg STREAM dt arr s = (inr d, s') ->
  exists r : SortResult, d = ReturnNow r.
Proof.
  cbn [dispatch]. intros H.
  apply bind_ok in H as ([r stats] & s1 & _ & H).
  apply ret_ok in H as [-> _]. eexists. reflexivity.
Qed.

(** The verification: what [sort] hands back was checked to be
    non-decreasing, or is the stable sort of the input array. *)
Lemma verify_or_fall_back_spec (r out : SortResult) (s s' : State) :
  verify_or_fall_back env r s = (inr out, s') ->
  (np.is_sorted (result_array r) = true /\ out = r /\ s' = s)
  \/ (np.is_sorted (result_array r) = false
      /\ exists stats : SortStats,
          _calculate_stats env (input_array s) "fallback"
                           (Algorithm_value fallback_algorithm)
                           false 0 1 true s = (inr stats, s')
          /\ out = WithStats (np.sort (input_array s)) stats).
Proof.
  unfold verify_or_fall_back. intros H.
  destruct (np.is_sorted (result_array r)).
  - left. apply ret_ok in H as [-> ->]. auto.
  - right. split; [reflexivity|].
    apply bind_ok in H as (arr & s1 & Hread & H).
    unfold read_input in Hread. injection Hread as <- <-.
    apply bind_ok in H as (stats & s2 & Hstats & H).
    apply ret_ok in H as [-> ->].
    exists stats. now split.
Qed.

End Sort.

Section SortTheorems.

Variable env : Env.
Variable cfg : Config.

Lemma sort_of_array (x : sort_input) (s : State) :
  stream_mode cfg = false -> is_array x ->
  sort env cfg x s
  = try_except (sort_body env cfg (input_dtype x) (input_values x))
               (sort_failed env x) s.
Proof.
  intros Hmode Hx. unfold sort. rewrite Hmode.
  destruct x; [reflexivity|reflexivity|destruct Hx].
Qed.

Lemma try_except_ok {A : Type} (m : M A) (handler : exn -> M A)
      (s s' : State) (a : A) :
  m s = (inr a, s') -> try_except m handler s = (inr a, s').
Proof. unfold try_except. now intros ->. Qed.

(** X27.  [sort] is given a list or an array and stream mode is off;
    the body of its [try] block runs a strategy other than [STREAM]
    and completes without raising.  Then [sort] returns what the block
    computed; the returned array is non-decreasing, since it has passed
    the verification or is the fallback; and it is a permutation of
    the input whenever the strategy is known to build its result from
    every element ([keeps_elements]): always, except for [HYBRID] and
    [ADAPTIVE] on 1000 elements or more, where the percentile split
    can run, and for the external sort of an array that is not a
    [float64] array. *)
Theorem sort_returns_sorted_permutation
        (x : sort_input) (s s1 s' : State) (strategy_ : SortStrategy)
        (r : SortResult) :
  stream_mode cfg = false ->
  is_array x ->
  select_strategy env cfg (input_values x)
                  (snd (set_input (input_values x) s))
  = (inr strategy_, s1) ->
  strategy_ <> STREAM ->
  sort_body env cfg (input_dtype x) (input_values x) s = (inr r, s') ->
  sort env cfg x s = (inr r, s')
  /\ Sorted Qle (result_array r)
  /\ (keeps_elements strategy_ (input_dtype x) (input_values x) ->
      Permutation (result_array r) (input_values x)).
Proof.
  intros Hmode Hx Hsel Hns Hbody.
  split.
  { rewrite sort_of_array by assumption. now apply try_except_ok. }
  unfold sort_body in Hbody.
  apply bind_ok in Hbody as (u & s0 & Hset & Hbody).
  assert (Hs0 : s0 = snd (set_input (input_values x) s))
    by (now rewrite Hset).
  assert (Hin0 : input_array s0 = input_values x)
    by (unfold set_input in Hset; now injection Hset as _ <-).
  apply bind_ok in Hbody as (strategy' & s1' & Hsel' & Hbody).
  rewrite Hs0, Hsel in Hsel'. injection Hsel' as <- <-.
  apply bind_ok in Hbody as (d & s2 & Hd & Hbody).
  assert (Hin1 : input_array s1 = input_values x).
  { rewrite <- Hin0, Hs0.
    exact (preserves_ok _ _ _ _
             (preserves_select_strategy env cfg (input_values x)) Hsel). }
  destruct (dispatch_spec env cfg _ _ _ _ _ _ Hd Hin1 Hns)
    as (r0 & -> & Hin2 & Hperm).
  destruct (verify_or_fall_back_spec env _ _ _ _ Hbody)
    as [(Hsorted & -> & ->)|(Hunsorted & stats & Hstats & ->)].
  - split; [now apply is_sorted_true|exact Hperm].
  - cbn [result_array]. split; [apply sort_sorted|].
    intros _. now rewrite sort_perm.
Qed.

(** C2, as the code has it.  For a list or an array, stream mode off,
    and a strategy that hands its result to the verification (every
    strategy but [STREAM]): if that result is not non-decreasing and
    the statistics of the fallback can be computed, [sort] returns the
    stable sort of the input array object, which holds the elements of
    the input, with [error_detected] set and [algorithm_used] the
    fallback algorithm. *)
Theorem sort_falls_back_on_unsorted_result
        (x : sort_input) (s s1 s2 s3 : State) (strategy_ : SortStrategy)
        (r : SortResult) (stats : SortStats) :
  stream_mode cfg = false ->
  is_array x ->
  select_strategy env cfg (input_values x)
                  (snd (set_input (input_values x) s))
  = (inr strategy_, s1) ->
  dispatch env cfg strategy_ (input_dtype x) (input_values x) s1
  = (inr (Computed r), s2) ->
  np.is_sorted (result_array r) = false ->
  _calculate_stats env (input_array s2) "fallback"
                   (Algorithm_value fallback_algorithm) false 0 1 true s2
  = (inr stats, s3) ->
  sort env cfg x s
  = (inr (WithStats (np.sort (input_array s2)) stats), s3)
  /\ error_detected stats = true
  /\ algorithm_used stats = Algorithm_value MERGESORT
  /\ Sorted Qle (np.sort (input_array s2))
  /\ Permutation (np.sort (input_array s2)) (input_values x).
Proof.
  intros Hmode Hx Hsel Hd Hunsorted Hstats.
  assert (Hns : strategy_ <> STREAM).
  { intros ->. apply dispatch_stream in Hd as [r0 Hr0]. discriminate. }
  assert (Hin1 : input_array s1 = input_values x).
  { rewrite (preserves_ok _ _ _ _
               (preserves_select_strategy env cfg (input_values x)) Hsel).
    reflexivity. }
  destruct (dispatch_spec env cfg _ _ _ _ _ _ Hd Hin1 Hns)
    as (r0 & Hr0 & Hin2 & _).
  split; [|split; [|split; [|split]]].
  - rewrite sort_of_array by assumption.
    apply try_except_ok. unfold sort_body, bind.
    cbn [set_input]. 
    change (mkState (cache s) (stream_processor s) (rng_calls s)
                    (input_values x))
      with (snd (set_input (input_values x) s)).
    rewrite Hsel, Hd. unfold verify_or_fall_back.
    rewrite Hunsorted. unfold bind, read_input, ok. cbv iota beta.
    rewrite Hstats. reflexivity.
  - now apply calculate_stats_ok in Hstats as (_ & _ & -> & _).
  - now apply calculate_stats_ok in Hstats as (_ & -> & _).
  - apply sort_sorted.
  - now rewrite sort_perm.
Qed.

End SortTheorems.

(** A forced bucket sort of three elements, through the theorem. *)
Lemma sort_returns_sorted_permutation_witness :
  Sorted Qle [1; 2; 3]%Q /\ Permutation [1; 2; 3]%Q [3; 1; 2]%Q.
Proof.
  pose (env := example_env (fun _ => 0%nat) 0).
  pose (cfg := forced BUCKET_SORT None false 10000).
  pose (x := PyList [3; 1; 2]%Q).
  pose (s := __init__ cfg).
  pose (s' := snd (sort_body env cfg (input_dtype x) (input_values x) s)).
  destruct (sort_returns_sorted_permutation
              env cfg x s (snd (set_input (input_values x) s)) s'
              BUCKET_SORT (Bare [1; 2; 3]%Q))
    as (_ & Hsorted & Hperm).
  - reflexivity.
  - exact I.
  - reflexivity.
  - discriminate.
  - vm_compute. reflexivity.
  - split; [exact Hsorted|exact (Hperm I)].
Defined.

(** A forced compression sort below the threshold hands the array back
    as it is; the verification replaces it: through the theorem. *)
Lemma sort_falls_back_on_unsorted_result_witness :
  exists (stats : SortStats) (s' : State),
    sort (example_env (fun _ => 0%nat) 0)
         (forced COMPRESSION_SORT None false 10000)
         (PyList [3; 1; 2]%Q)
         (__init__ (forced COMPRESSION_SORT None false 10000))
    = (inr (WithStats [1; 2; 3]%Q stats), s')
    /\ error_detected stats = true
    /\ algorithm_used stats = "mergesort"%string.
Proof.
  pose (env := example_env (fun _ => 0%nat) 0).
  pose (cfg := forced COMPRESSION_SORT None false 10000).
  pose (x := PyList [3; 1; 2]%Q).
  pose (s := __init__ cfg).
  pose (s1 := snd (set_input (input_values x) s)).
  pose (d := dispatch env cfg COMPRESSION_SORT (input_dtype x)
                      (input_values x) s1).
  pose (s2 := snd d).
  pose (f := _calculate_stats env (input_array s2) "fallback"
                              (Algorithm_value fallback_algorithm)
                              false 0 1 true s2).
  pose (stats := mkStats 3 [2%nat] "fallback" "mergesort" 0 1 true "None").
  destruct (sort_falls_back_on_unsorted_result
              env cfg x s s1 s2 (snd f) COMPRESSION_SORT
              (WithStats [3; 1; 2]%Q
                         (mkStats 3 [2%nat] "compression" "mergesort" 0 1
                                  false "None"))
              stats)
    as (Hsort & Herr & Halg & _ & _).
  - reflexivity.
  - exact I.
  - reflexivity.
  - vm_compute. reflexivity.
  - reflexivity.
  - vm_compute. reflexivity.
  - exists stats, (snd f). split; [exact Hsort|]. split; assumption.
Defined.

(** C2, as stated, fails for the [STREAM] strategy: its result returns
    from [sort] at once.  With a chunk size of 2 the windows of
    [3, 4, 1, 2] are [3, 4] and [1, 2]; their concatenation is not
    non-decreasing and comes back as it is, with no error flagged. *)
Lemma stream_strategy_is_not_verified :
  let env := example_env (fun _ => 0%nat) 0 in
  let cfg := forced STREAM (Some 2%nat) false 10000 in
  exists (stats : SortStats) (s' : State),
    sort env cfg (PyList [3; 4; 1; 2]%Q) (__init__ cfg)
    = (inr (WithStats [3; 4; 1; 2]%Q stats), s')
    /\ np.is_sorted [3; 4; 1; 2]%Q = false
    /\ np.sort [3; 4; 1; 2]%Q = [1; 2; 3; 4]%Q
    /\ error_detected stats = false
    /\ algorithm_used stats = "timsort"%string.
Proof.
  cbv zeta.
  eexists (mkStats 4 [3%nat] "stream" "timsort" 2 1 false "None"), _.
  split; [vm_compute; reflexivity|].
  repeat split; vm_compute; reflexivity.
Qed.

(** Stream mode returns the concatenation of the sorted windows as
    it is: with a chunk size of 2, [sort] completes on [3, 4, 1, 2]
    without raising and returns [3, 4, 1, 2]. *)
Lemma sort_in_stream_mode_is_not_sorted :
  let env := example_env (fun _ => 0%nat) 0 in
  let cfg := forced AUTO (Some 2%nat) true 10000 in
  exists (stats : SortStats) (s' : State),
    sort env cfg (PyList [3; 4; 1; 2]%Q) (__init__ cfg)
    = (inr (WithStats [3; 4; 1; 2]%Q stats), s')
    /\ error_detected stats = false
    /\ ~ Sorted Qle [3; 4; 1; 2]%Q.
Proof.
  cbv zeta.
  eexists (mkStats 4 [3%nat] "stream" "timsort" 2 1 false "None"), _.
  split; [vm_compute; reflexivity|]. split; [reflexivity|].
  intros H. apply is_sorted_true in H. vm_compute in H. discriminate.
Qed.

(** In stream mode elements are lost as well: after two windows the
    chunk size asked for is 1000, the buffer still holds 2, and of
    [9, 8, 7] only the last two are emitted. *)
Example sort_in_stream_mode_loses_elements :
  let env := example_env (fun _ => 0%nat) 0 in
  let cfg := forced AUTO (Some 2%nat) true 10000 in
  exists (stats : SortStats) (s' : State),
    sort env cfg (PyList [3; 4; 1; 2; 9; 8; 7]%Q) (__init__ cfg)
    = (inr (WithStats [3; 4; 1; 2; 7; 8]%Q stats), s').
Proof.
  cbv zeta.
  eexists (mkStats 6 [5%nat] "stream" "timsort" 3 1 false "None"), _.
  vm_compute. reflexivity.
Qed.

(** C1.  The claim fails on the code with stream mode off and no
    exception anywhere.  A forced [HYBRID] sort of the 1000 values
    0, ..., 999 completes its [try] block; the percentile split has
    dropped the maximum, the 999 values that are left are in order and
    pass the verification, which looks at the order only, and [sort]
    returns them with [error_detected] unset: what it returns is not a
    permutation of its input. *)
Theorem sort_loses_the_maximum :
  let env := example_env (fun _ => 0%nat) 0 in
  let cfg := forced HYBRID None false 10000 in
  exists (stats : SortStats) (s' : State),
    sort env cfg (PyList (arange 1000)) (__init__ cfg)
    = (inr (WithStats (arange 999) stats), s')
    /\ sort_body env cfg Float64 (arange 1000) (__init__ cfg)
       = (inr (WithStats (arange 999) stats), s')
    /\ stream_mode cfg = false
    /\ error_detected stats = false
    /\ strategy_used stats = "hybrid"%string
    /\ Sorted Qle (arange 999)
    /\ length (arange 999) = 999%nat
    /\ length (arange 1000) = 1000%nat
    /\ ~ Permutation (arange 999) (arange 1000).
Proof.
  cbv zeta.
  destruct (sort_body (example_env (fun _ => 0%nat) 0)
                      (forced HYBRID None false 10000) Float64 (arange 1000)
                      (__init__ (forced HYBRID None false 10000)))
    as [r s'] eqn:E.
  assert (Hr : exists stats : SortStats,
             r = inr (WithStats (arange 999) stats)
             /\ error_detected stats = false
             /\ strategy_used stats = "hybrid"%string).
  { vm_compute in E. injection E as <- _.
    eexists. split; [reflexivity|]. split; reflexivity. }
  destruct Hr as (stats & -> & Herr & Hstr).
  assert (Hlen : forall n : nat, length (arange n) = n)
    by (intros n; unfold arange; now rewrite length_map, length_seq).
  exists stats, s'.
  split.
  { rewrite (sort_of_array (example_env (fun _ => 0%nat) 0)
                           (forced HYBRID None false 10000)
                           (PyList (arange 1000)) _ eq_refl I).
    apply try_except_ok. exact E. }
  split; [reflexivity|]. split; [reflexivity|].
  split; [exact Herr|]. split; [exact Hstr|].
  split; [apply is_sorted_true; vm_compute; reflexivity|].
  split; [apply Hlen|]. split; [apply Hlen|].
  intros Hp. apply Permutation_length in Hp. rewrite !Hlen in Hp.
  discriminate.
Qed.

(** ** What is done in place *)

(** [_memory_efficient_sort] raises on every non-empty array, before
    it has written anything. *)
Lemma memory_efficient_sort_raises (env : Env) (cfg : Config)
      (arr : list Q) (s : State) :
  arr <> [] ->
  exists e : exn, _memory_efficient_sort env cfg arr s = (inl e, s).
Proof.
  intros Hne. unfold _memory_efficient_sort, bind, lift.
  destruct (_adaptive_chunk_size env cfg (length arr)) as [e|chunk_size_];
    [now exists e|].
  unfold range_step.
  destruct chunk_size_ as [|c]; [now exists ValueError|].
  assert (Hk : exists k : nat,
             ((length arr + S c - 1) / S c = S k)%nat).
  { destruct ((length arr + S c - 1) / S c)%nat as [|k] eqn:E;
      [|now exists k].
    apply Nat.div_small_iff in E; [|lia].
    destruct arr; [contradiction|simpl in E; lia]. }
  destruct Hk as [k ->]. cbn [seq map ok].
  exists TypeError. now rewrite sort_chunks_raises.
Qed.

(** C9.  The claim fails on the code for the memory-efficient path:
    [np.sort] takes no [out] argument, so [np.sort(chunk, out=chunk)]
    raises [TypeError] in the first turn of the loop.  A forced
    [MEMORY_EFFICIENT] sort of the array [3, 1, 2] leaves the array as
    it was and returns it with the statistics of a failed sort. *)
Theorem memory_efficient_sort_leaves_input_unsorted :
  let env := example_env (fun _ => 0%nat) 0 in
  let cfg := forced MEMORY_EFFICIENT None false 10000 in
  let s0 := snd (set_input [3; 1; 2]%Q (__init__ cfg)) in
  _memory_efficient_sort env cfg [3; 1; 2]%Q s0 = (inl TypeError, s0)
  /\ exists s' : State,
      sort env cfg (NDArray Float64 [3; 1; 2]%Q) (__init__ cfg)
      = (inr (WithStats [3; 1; 2]%Q
                (mkStats 3 [] "failed" "none" 0 1 true "None")), s')
      /\ input_array s' = [3; 1; 2]%Q.
Proof.
  cbv zeta. split; [vm_compute; reflexivity|].
  eexists. split; vm_compute; reflexivity.
Qed.

(** Nothing else is sorted in place either: [_insertion_sort], which
    would sort the view of the input array it is given, raises before
    it runs, so a block of fewer than 16 elements is left as it is. *)
Lemma small_block_is_not_sorted (env : Env) (block : list Q) (s : State) :
  (length block < 16)%nat ->
  _optimize_block_sort env block s = (inl TypingError, s).
Proof.
  intros Hlen. unfold _optimize_block_sort.
  apply Nat.ltb_lt in Hlen. now rewrite Hlen.
Qed.

(** ** The bucket-count heuristic *)

(** C4.  The claim fails on the code for an array of 1000 equal
    elements: the sample has range zero, [std_dev / range_size] is
    [nan], and [int(nan)] raises [ValueError]; no count is returned.
    [_bucket_sort] asks for the count before it compares the minimum
    with the maximum, so it raises too, and a forced [BUCKET_SORT]
    ends in the [except] clause of [sort]. *)
Theorem bucket_count_of_constant_array_raises :
  let env := example_env (fun _ => 0%nat) 0 in
  let cfg := forced BUCKET_SORT None false 10000 in
  let arr := repeat 5%Q 1000 in
  fst (_optimize_bucket_count env arr (__init__ cfg)) = inl ValueError
  /\ fst (_bucket_sort env arr (__init__ cfg)) = inl ValueError
  /\ exists stats : SortStats,
      fst (sort env cfg (PyList arr) (__init__ cfg))
      = inr (WithStats arr stats)
      /\ strategy_used stats = "failed"%string
      /\ error_detected stats = true.
Proof.
  cbv zeta. split; [vm_compute; reflexivity|].
  split; [vm_compute; reflexivity|].
  eexists. split; [vm_compute; reflexivity|]. split; reflexivity.
Qed.

(** *** Sums, extrema and the spread of a sample *)

Lemma sum_cons (x : Q) (a : list Q) : (np.sum (x :: a) == x + np.sum a)%Q.
Proof. unfold np.sum. simpl. apply Qred_correct. Qed.



Lemma foldl_Qmax_spec (rest : list Q) :
  forall x : Q,
    In (foldl np.Qmax x rest) (x :: rest)
    /\ Forall (fun y => y <= foldl np.Qmax x rest)%Q (x :: rest).
Proof.
  induction rest as [|y rest IH]; intros x; simpl.
  - split; [now left|]. constructor; [lra|constructor].
  - destruct (IH (np.Qmax x y)) as [Hin Hall].
    inversion Hall as [|? ? Hhd Htl]; subst.
    unfold np.Qmax in *. destruct (Qleb x y) eqn:E.
    + apply Qleb_true in E. split.
      * destruct Hin as [<-|Hin]; [right; now left|right; now right].
      * constructor; [lra|]. constructor; [exact Hhd|exact Htl].
    + apply Qleb_false in E. split.
      * destruct Hin as [<-|Hin]; [now left|right; now right].
      * constructor; [exact Hhd|]. constructor; [lra|exact Htl].
Qed.

Lemma foldl_Qmin_spec (rest : list Q) :
  forall x : Q,
    In (foldl np.Qmin x rest) (x :: rest)
    /\ Forall (fun y => foldl np.Qmin x rest <= y)%Q (x :: rest).
Proof.
  induction rest as [|y rest IH]; intros x; simpl.
  - split; [now left|]. constructor; [lra|constructor].
  - destruct (IH (np.Qmin x y)) as [Hin Hall].
    inversion Hall as [|? ? Hhd Htl]; subst.
    unfold np.Qmin in *. destruct (Qleb x y) eqn:E.
    + apply Qleb_true in E. split.
      * destruct Hin as [<-|Hin]; [now left|right; now right].
      * constructor; [exact Hhd|]. constructor; [lra|exact Htl].
    + apply Qleb_false in E. split.
      * destruct Hin as [<-|Hin]; [right; now left|right; now right].
      * constructor; [lra|]. constructor; [exact Hhd|exact Htl].
Qed.











(** ** The integer forms of the two floors *)

(** [floor_n_over_log2 n] is the [k] with [n ^ k <= 2 ^ n < n ^ (k + 1)],
    that is with [k * log2(n) <= n < (k + 1) * log2(n)]. *)
Lemma count_powers_spec (fuel : nat) :
  forall (n : Z) (k0 : nat),
    n ^ Z.of_nat k0 <= 2 ^ n ->
    let k := count_powers fuel n k0 in
    n ^ Z.of_nat k <= 2 ^ n
    /\ (2 ^ n < n ^ Z.of_nat (S k) \/ k = (k0 + fuel)%nat).
Proof.
  induction fuel as [|fuel IH]; intros n k0 H0; cbn [count_powers].
  - split; [exact H0|right; lia].
  - destruct (n ^ Z.of_nat (S k0) <=? 2 ^ n) eqn:E.
    + apply Z.leb_le in E. destruct (IH n (S k0) E) as [H1 H2].
      split; [exact H1|]. destruct H2 as [H2|H2]; [now left|right; lia].
    + apply Z.leb_gt in E. split; [exact H0|now left].
Qed.

Lemma floor_n_over_log2_spec (n : nat) :
  (3 <= n)%nat ->
  let k := floor_n_over_log2 n in
  Z.of_nat n ^ Z.of_nat k <= 2 ^ Z.of_nat n < Z.of_nat n ^ Z.of_nat (S k).
Proof.
  intros Hn. unfold floor_n_over_log2.
  assert (H0 : Z.of_nat n ^ Z.of_nat 0 <= 2 ^ Z.of_nat n).
  { rewrite Z.pow_0_r.
    pose proof (Z.pow_pos_nonneg 2 (Z.of_nat n) ltac:(lia) ltac:(lia)).
    lia. }
  destruct (count_powers_spec n (Z.of_nat n) 0 H0) as [H1 [H2|H2]].
  - split; assumption.
  - exfalso. simpl in H2. rewrite H2 in H1.
    assert (2 ^ Z.of_nat n < Z.of_nat n ^ Z.of_nat n)
      by (apply Z.pow_lt_mono_l; lia).
    lia.
Qed.

(** [floor_scaled_spread n v r] is the [k] with
    [k ^ 2 <= 4 * n * v / r ^ 2 < (k + 1) ^ 2], that is with
    [k <= sqrt(n) * (sqrt(v) / r) * 2 < k + 1]. *)
Lemma floor_scaled_spread_spec (n : nat) (v range_size : Q) :
  let q := (4 * inject_Z (Z.of_nat n) * v / (range_size * range_size))%Q in
  let k := Z.of_nat (floor_scaled_spread n v range_size) in
  (0 <= q)%Q ->
  (inject_Z (k * k) <= q)%Q /\ (q < inject_Z ((k + 1) * (k + 1)))%Q.
Proof.
  intros q k Hq. unfold k, floor_scaled_spread. fold q.
  assert (Hf : 0 <= Qfloor q).
  { change 0 with (Qfloor 0). now apply Qfloor_resp_le. }
  pose proof (Z.sqrt_spec (Qfloor q) Hf) as [Hlo Hhi].
  rewrite Z2Nat.id by apply Z.sqrt_nonneg.
  set (r := Z.sqrt (Qfloor q)) in *.
  split.
  - apply Qle_trans with (inject_Z (Qfloor q)); [|apply Qfloor_le].
    rewrite <- Zle_Qle. exact Hlo.
  - apply Qlt_le_trans with (inject_Z (Qfloor q + 1)).
    + apply Qlt_floor.
    + rewrite <- Zle_Qle. unfold Z.succ in Hhi. lia.
Qed.

(** ** The loop of [_radix_sort] ends within its fuel *)

Lemma radix_condition_false (max_val : Q) (exp : Z) :
  0 < exp -> (max_val < inject_Z exp)%Q ->
  (0 <? Qfloor (max_val / inject_Z exp)) = false.
Proof.
  intros Hexp Hmax. apply Z.ltb_ge.
  assert (Hpos : (0 < inject_Z exp)%Q).
  { change 0%Q with (inject_Z 0). now rewrite <- Zlt_Qlt. }
  assert (Hlt : (max_val / inject_Z exp < 1)%Q).
  { apply Qlt_shift_div_r; [exact Hpos|lra]. }
  pose proof (Qfloor_le (max_val / inject_Z exp)) as Hfl.
  assert (Hz : (inject_Z (Qfloor (max_val / inject_Z exp)) < inject_Z 1)%Q).
  { change (inject_Z 1) with 1%Q. lra. }
  rewrite <- Zlt_Qlt in Hz. lia.
Qed.

(** One unit of fuel is for the test that ends the loop. *)
Lemma radix_loop_fuel (fuel : nat) :
  forall (extra : nat) (max_val : Q) (exp : Z) (dt : dtype) (arr : list Q),
    0 < exp ->
    (max_val < inject_Z (exp * 10 ^ Z.of_nat fuel))%Q ->
    radix_loop (S fuel + extra) max_val exp dt arr
    = radix_loop (S fuel) max_val exp dt arr.
Proof.
  induction fuel as [|fuel IH]; intros extra max_val exp dt arr Hexp Hmax.
  - rewrite Z.pow_0_r, Z.mul_1_r in Hmax. cbn [plus radix_loop].
    destruct (int64_max <? exp); [reflexivity|].
    now rewrite radix_condition_false.
  - change (S (S fuel) + extra)%nat with (S (S fuel + extra)).
    cbn [radix_loop].
    destruct (int64_max <? exp); [reflexivity|].
    destruct (0 <? Qfloor (max_val / inject_Z exp)); [|reflexivity].
    destruct (radix_pass dt exp arr (repeat [] 10)) as [e|buckets];
      [reflexivity|].
    cbn [rbind]. apply IH; [lia|].
    replace (exp * 10 * 10 ^ Z.of_nat fuel)
      with (exp * 10 ^ Z.of_nat (S fuel)); [exact Hmax|].
    rewrite Nat2Z.inj_succ, Z.pow_succ_r by lia. ring.
Qed.

Lemma radix_fuel_enough (max_val : Q) :
  (max_val < inject_Z (1 * 10 ^ Z.of_nat (radix_fuel max_val - 1)))%Q.
Proof.
  unfold radix_fuel. set (m := Z.max 1 (Qfloor max_val)).
  assert (Hm : (max_val < inject_Z (m + 1))%Q).
  { apply Qlt_le_trans with (inject_Z (Qfloor max_val + 1));
      [apply Qlt_floor|].
    rewrite <- Zle_Qle. lia. }
  apply Qlt_le_trans with (inject_Z (m + 1)); [exact Hm|].
  rewrite <- Zle_Qle, Z.mul_1_l.
  set (t := Z.log2_up (m + 1)).
  assert (Ht : 0 <= t) by apply Z.log2_up_nonneg.
  assert (H2 : m + 1 <= 2 ^ t).
  { apply Z.log2_up_spec. lia. }
  replace (S (Z.to_nat t) - 1)%nat with (Z.to_nat t) by lia.
  rewrite Z2Nat.id by exact Ht.
  assert (H10 : 2 ^ t <= 10 ^ t) by (apply Z.pow_le_mono_l; lia).
  lia.
Qed.

(** More fuel than [radix_fuel] gives the same result: the loop of
    [_radix_sort] has ended. *)
Lemma radix_sort_fuel (extra : nat) (dt : dtype) (arr : list Q) (max_val : Q) :
  radix_loop (radix_fuel max_val + extra) max_val 1 dt arr
  = radix_loop (radix_fuel max_val) max_val 1 dt arr.
Proof.
  pose proof (radix_fuel_enough max_val) as H.
  unfold radix_fuel in *.
  replace (S (Z.to_nat (Z.log2_up (Z.max 1 (Qfloor max_val) + 1))) - 1)%nat
    with (Z.to_nat (Z.log2_up (Z.max 1 (Qfloor max_val) + 1))) in H by lia.
  apply radix_loop_fuel; [lia|exact H].
Qed.


(** ** [_heapsort] sorts *)

Lemma nth_swap (i j k : nat) (arr : list Q) :
  (i < length arr)%nat -> (j < length arr)%nat ->
  nth k (Algo.swap i j arr) 0%Q
  = if (k =? j)%nat then nth i arr 0%Q
    else if (k =? i)%nat then nth j arr 0%Q else nth k arr 0%Q.
Proof.
  intros Hi Hj. unfold Algo.swap. rewrite !(nth_lookup _ k).
  destruct (k =? j)%nat eqn:Ej.
  - apply Nat.eqb_eq in Ej. subst k.
    rewrite list_lookup_insert_eq by (rewrite length_insert; lia).
    simpl. now rewrite nth_lookup.
  - apply Nat.eqb_neq in Ej.
    rewrite list_lookup_insert_ne by lia.
    destruct (k =? i)%nat eqn:Ei.
    + apply Nat.eqb_eq in Ei. subst k.
      rewrite list_lookup_insert_eq by lia. simpl. now rewrite nth_lookup.
    + apply Nat.eqb_neq in Ei. now rewrite list_lookup_insert_ne by lia.
Qed.

(** The node [heapify] picks: [k] or one of its children inside the
    heap, holding the greatest of the three values. *)
Lemma heapify_largest (n k : nat) (arr : list Q) :
  let l1 :=
    if (2 * k + 1 <? n)%nat
       && Qgtb (nth (2 * k + 1) arr 0%Q) (nth k arr 0%Q)
    then (2 * k + 1)%nat else k in
  let l2 :=
    if (2 * k + 2 <? n)%nat
       && Qgtb (nth (2 * k + 2) arr 0%Q) (nth l1 arr 0%Q)
    then (2 * k + 2)%nat else l1 in
  (l2 = k \/ ((l2 = 2 * k + 1 \/ l2 = 2 * k + 2) /\ l2 < n))%nat
  /\ (nth k arr 0 <= nth l2 arr 0)%Q
  /\ forall c : nat,
      (c = 2 * k + 1 \/ c = 2 * k + 2)%nat -> (c < n)%nat ->
      (nth c arr 0 <= nth l2 arr 0)%Q.
Proof.
  intros l1 l2. subst l1 l2. unfold Qgtb.
  destruct (2 * k + 1 <? n)%nat eqn:E1;
    [apply Nat.ltb_lt in E1|apply Nat.ltb_ge in E1]; cbn [andb];
    (destruct (2 * k + 2 <? n)%nat eqn:E2;
     [apply Nat.ltb_lt in E2|apply Nat.ltb_ge in E2]); cbn [andb];
    try (destruct (Qltb (nth k arr 0%Q) (nth (2 * k + 1) arr 0%Q)) eqn:E3;
         [apply Qltb_true in E3|apply Qltb_false in E3]);
    cbv iota;
    try (match goal with
         | |- context [Qltb ?a ?b] =>
           let E := fresh "E" in
           destruct (Qltb a b) eqn:E;
             [apply Qltb_true in E|apply Qltb_false in E]
         end);
    (split; [lia|]); (split; [lra|]);
    intros c [-> | ->] Hc; try lia; lra.
Qed.

Lemma heapify_heap (fuel : nat) :
  forall (lo n k : nat) (arr : list Q),
    (n <= length arr)%nat -> (lo <= k)%nat -> (n - k <= fuel)%nat ->
    heap_except lo n k arr ->
    let out := Algo.heapify fuel n k arr in
    is_heap lo n out
    /\ (forall j : nat, (n <= j)%nat -> nth j out 0%Q = nth j arr 0%Q)
    /\ (forall x : nat, (x < n)%nat ->
          exists x' : nat, (x' < n)%nat /\ nth x out 0%Q = nth x' arr 0%Q).
Proof.
  induction fuel as [|fuel IH]; intros lo n k arr Hn Hlo Hfuel [Hj Hg].
  - simpl. split; [|split].
    + intros j Hjn. apply Hj; lia.
    + reflexivity.
    + intros x Hx. now exists x.
  - cbn [Algo.heapify]. cbv zeta.
    pose proof (heapify_largest n k arr) as Hl. cbv zeta in Hl.
    set (l1 := if _ && _ then _ else k) in *.
    set (l2 := if _ && _ then _ else l1) in *.
    destruct Hl as (Hl2 & Hkl & Hcl).
    destruct (l2 =? k)%nat eqn:E.
    + apply Nat.eqb_eq in E. rewrite E in *.
      split; [|split].
      * intros j Hjn. destruct (Nat.eq_dec j k) as [->|Hne].
        -- intros c Hc Hcn. now apply Hcl.
        -- now apply Hj.
      * reflexivity.
      * intros x Hx. now exists x.
    + apply Nat.eqb_neq in E.
      destruct Hl2 as [Hl2|[Hl2 Hl2n]]; [contradiction|].
      assert (Hk : (k < length arr)%nat) by lia.
      assert (Hl2len : (l2 < length arr)%nat) by lia.
      pose proof (fun x => nth_swap k l2 x arr Hk Hl2len) as Hsw.
      assert (Hex : heap_except lo n l2 (Algo.swap k l2 arr)).
      { split.
        - intros j Hjn Hjl c Hc Hcn. rewrite !Hsw.
          destruct (Nat.eq_dec j k) as [->|Hjk].
          + replace (k =? l2)%nat with false
              by (symmetry; apply Nat.eqb_neq; lia).
            rewrite Nat.eqb_refl.
            destruct (c =? l2)%nat eqn:Ec.
            * exact Hkl.
            * apply Nat.eqb_neq in Ec.
              replace (c =? k)%nat with false
                by (symmetry; apply Nat.eqb_neq; lia).
              now apply Hcl.
          + replace (j =? l2)%nat with false
              by (symmetry; apply Nat.eqb_neq; lia).
            replace (j =? k)%nat with false
              by (symmetry; apply Nat.eqb_neq; lia).
            replace (c =? l2)%nat with false
              by (symmetry; apply Nat.eqb_neq; lia).
            destruct (c =? k)%nat eqn:Ec.
            * apply Nat.eqb_eq in Ec. subst c.
              apply (Hg j l2); try lia.
            * now apply Hj.
        - intros p c Hp Hpk Hc Hcn. rewrite !Hsw.
          assert (p = k) by lia. subst p.
          replace (k =? l2)%nat with false
            by (symmetry; apply Nat.eqb_neq; lia).
          rewrite Nat.eqb_refl.
          replace (c =? l2)%nat with false
            by (symmetry; apply Nat.eqb_neq; lia).
          replace (c =? k)%nat with false
            by (symmetry; apply Nat.eqb_neq; lia).
          apply (Hj l2); lia. }
      destruct (IH lo n l2 (Algo.swap k l2 arr)) as (H1 & H2 & H3);
        [rewrite swap_length; lia|lia|lia|exact Hex|].
      split; [exact H1|]. split.
      * intros j Hjn. rewrite H2 by exact Hjn. rewrite Hsw.
        replace (j =? l2)%nat with false
          by (symmetry; apply Nat.eqb_neq; lia).
        replace (j =? k)%nat with false
          by (symmetry; apply Nat.eqb_neq; lia).
        reflexivity.
      * intros x Hx. destruct (H3 x Hx) as (x' & Hx' & ->).
        rewrite Hsw.
        destruct (x' =? l2)%nat; [exists k; split; [lia|reflexivity]|].
        destruct (x' =? k)%nat; [exists l2; split; [lia|reflexivity]|].
        exists x'. now split.
Qed.

(** The root of a heap holds its greatest value. *)
Lemma heap_root_max (n : nat) (arr : list Q) :
  is_heap 0 n arr ->
  forall j : nat, (j < n)%nat -> (nth j arr 0 <= nth 0 arr 0)%Q.
Proof.
  intros Hh j. induction j as [j IH] using lt_wf_ind. intros Hj.
  destruct j as [|j]; [apply Qle_refl|].
  pose proof (Nat.div_mod_eq j 2) as Hd.
  pose proof (Nat.mod_upper_bound j 2 ltac:(lia)) as Hm.
  apply Qle_trans with (nth (j / 2) arr 0%Q).
  - apply (Hh (j / 2)%nat); lia.
  - apply IH; lia.
Qed.

Lemma foldl_rev_seq_inv {A : Type} (f : A -> nat -> A)
      (I : nat -> A -> Prop) (start len : nat) :
  forall a : A,
    I (start + len)%nat a ->
    (forall i a, (start <= i < start + len)%nat -> I (S i) a -> I i (f a i)) ->
    I start (foldl f a (rev (seq start len))).
Proof.
  induction len as [|len IH]; intros a Ha Hstep.
  - simpl. now rewrite Nat.add_0_r in Ha.
  - rewrite seq_S, rev_app_distr. simpl.
    apply IH.
    + apply Hstep; [lia|]. now replace (S (start + len)) with (start + S len)%nat by lia.
    + intros i b Hi Hb. apply Hstep; [lia|exact Hb].
Qed.

Lemma sorted_of_nth (l : list Q) :
  (forall x y : nat, (x <= y < length l)%nat -> (nth x l 0 <= nth y l 0)%Q) ->
  Sorted Qle l.
Proof.
  induction l as [|a l IH]; intros H; [constructor|].
  constructor.
  - apply IH. intros x y Hxy. apply (H (S x) (S y)). simpl. lia.
  - destruct l as [|b l]; constructor.
    apply (H 0%nat 1%nat). simpl. lia.
Qed.

Lemma heapsort_sorted (arr : list Q) : Sorted Qle (Algo._heapsort arr).
Proof.
  unfold Algo._heapsort. set (n := length arr).
  destruct (Nat.eq_dec n 0%nat) as [Hz|Hnz].
  { rewrite Hz. simpl. destruct arr; [constructor|discriminate]. }
  set (a1 := foldl (fun a i => Algo.heapify n n i a) arr
                   (Algo.range_down (n / 2))).
  assert (Hdiv : (n / 2 <= n)%nat) by (apply Nat.Div0.div_le_upper_bound; lia).
  assert (H1 : length a1 = n /\ is_heap 0 n a1).
  { subst a1. unfold Algo.range_down.
    apply (foldl_rev_seq_inv
             (fun a i => Algo.heapify n n i a)
             (fun i a => length a = n /\ is_heap i n a) 0%nat (n / 2)%nat).
    - split; [reflexivity|].
      intros j Hj c Hc Hcn. exfalso.
      pose proof (Nat.div_mod_eq n 2).
      pose proof (Nat.mod_upper_bound n 2 ltac:(lia)). lia.
    - intros i a Hi [Hlen Hh]. split.
      + rewrite heapify_length; lia.
      + apply heapify_heap; try lia. split.
        * intros j Hj Hne. apply Hh. lia.
        * intros p c Hp Hk. lia. }
  destruct H1 as [Hlen1 Hheap1].
  pose (J := fun (i : nat) (a : list Q) =>
               length a = n
               /\ is_heap 0 i a
               /\ (forall x y : nat, (x < i <= y)%nat -> (y < n)%nat ->
                     (nth x a 0 <= nth y a 0)%Q)
               /\ (forall x y : nat, (i <= x <= y)%nat -> (y < n)%nat ->
                     (nth x a 0 <= nth y a 0)%Q)).
  assert (H2 : J 1%nat
                 (foldl (fun a i => Algo.heapify n i 0 (Algo.swap 0 i a)) a1
                        (rev (seq 1 (n - 1))))).
  { apply (foldl_rev_seq_inv _ J 1%nat (n - 1)%nat).
    - replace (1 + (n - 1))%nat with n by lia.
      split; [exact Hlen1|]. split; [exact Hheap1|].
      split; intros x y Hxy Hy; [lia|].
      replace y with x by lia. apply Qle_refl.
    - intros i a Hi (Hlen & Hh & Hcross & Hsuf).
      assert (H0 : (0 < length a)%nat) by lia.
      assert (Hia : (i < length a)%nat) by lia.
      pose proof (fun x => nth_swap 0 i x a H0 Hia) as Hsw.
      pose proof (heap_root_max (S i) a Hh) as Hmax.
      destruct (heapify_heap n 0%nat i 0%nat (Algo.swap 0 i a)) as (G1 & G2 & G3);
        [rewrite swap_length; lia|lia|lia| |].
      { split.
        - intros j Hj Hne c Hc Hcn. rewrite !Hsw.
          replace (c =? i)%nat with false
            by (symmetry; apply Nat.eqb_neq; lia).
          replace (c =? 0)%nat with false
            by (symmetry; apply Nat.eqb_neq; lia).
          replace (j =? i)%nat with false
            by (symmetry; apply Nat.eqb_neq; lia).
          replace (j =? 0)%nat with false
            by (symmetry; apply Nat.eqb_neq; lia).
          apply (Hh j); lia.
        - intros p c Hp Hk. lia. }
      assert (Hpre : forall x : nat, (x < i)%nat ->
                 exists x' : nat, (x' <= i)%nat
                   /\ nth x (Algo.heapify n i 0 (Algo.swap 0 i a)) 0%Q
                      = nth x' a 0%Q).
      { intros x Hx. destruct (G3 x Hx) as (x' & Hx' & ->).
        rewrite Hsw.
        destruct (x' =? i)%nat; [exists 0%nat; split; [lia|reflexivity]|].
        destruct (x' =? 0)%nat; [exists i; split; [lia|reflexivity]|].
        exists x'. split; [lia|reflexivity]. }
      assert (Hpost : forall y : nat, (i <= y)%nat ->
                 nth y (Algo.heapify n i 0 (Algo.swap 0 i a)) 0%Q
                 = if (y =? i)%nat then nth 0 a 0%Q else nth y a 0%Q).
      { intros y Hy. rewrite G2 by exact Hy. rewrite Hsw.
        destruct (y =? i)%nat eqn:E; [reflexivity|].
        apply Nat.eqb_neq in E.
        replace (y =? 0)%nat with false
          by (symmetry; apply Nat.eqb_neq; lia).
        reflexivity. }
      split; [|split; [exact G1|split]].
      + rewrite heapify_length; rewrite swap_length; lia.
      + intros x y Hxy Hy.
        destruct (Hpre x ltac:(lia)) as (x' & Hx' & ->).
        rewrite Hpost by lia.
        destruct (y =? i)%nat eqn:E.
        * apply Hmax. lia.
        * apply Nat.eqb_neq in E. apply Hcross; lia.
      + intros x y Hxy Hy. rewrite !Hpost by lia.
        destruct (x =? i)%nat eqn:Ex;
          [apply Nat.eqb_eq in Ex|apply Nat.eqb_neq in Ex];
          (destruct (y =? i)%nat eqn:Ey;
           [apply Nat.eqb_eq in Ey|apply Nat.eqb_neq in Ey]).
        * apply Qle_refl.
        * apply Hcross; lia.
        * lia.
        * apply Hsuf; lia. }
  destruct H2 as (Hlen & _ & Hcross & Hsuf).
  apply sorted_of_nth. intros x y Hxy. rewrite Hlen in Hxy.
  destruct x as [|x].
  - destruct y as [|y]; [apply Qle_refl|]. apply Hcross; lia.
  - apply Hsuf; lia.
Qed.

(** ** The three-way split around the pivot *)

Lemma three_way_bounds (arr : list Q) (q : Q) :
  let '(left_, middle, right_) := Algo.three_way arr (Finite q) in
  Forall (fun x => x < q)%Q left_
  /\ Forall (fun x => x == q)%Q middle
  /\ Forall (fun x => q < x)%Q right_.
Proof.
  unfold Algo.three_way, np.select. cbn [lt_float eq_float gt_float].
  repeat split; apply List.Forall_forall; intros x Hx;
    apply filter_In in Hx as [_ Hx].
  - now apply Qltb_true.
  - now apply Qeqb_true.
  - unfold Qgtb in Hx. now apply Qltb_true.
Qed.

Lemma strongly_sorted_equal (m : list Q) (q : Q) :
  Forall (fun x => x == q)%Q m -> StronglySorted Qle m.
Proof.
  induction 1 as [|x m Hx Hm IH]; constructor; [exact IH|].
  apply List.Forall_forall. intros y Hy.
  pose proof (proj1 (List.Forall_forall _ _) Hm y Hy) as Hyq.
  simpl in Hyq. lra.
Qed.

(** ** [_merge_sorted_arrays] merges *)

Lemma entry_lt_value (e1 e2 : Pure.entry) :
  (Pure.entry_lt e1 e2 = true -> entry_value e1 <= entry_value e2)%Q
  /\ (Pure.entry_lt e1 e2 = false -> entry_value e2 <= entry_value e1)%Q.
Proof.
  destruct e1 as [[v1 i1] j1], e2 as [[v2 i2] j2].
  unfold Pure.entry_lt, entry_value. cbn [fst].
  destruct (Qeqb v1 v2) eqn:E; cbn [negb].
  - apply Qeqb_true in E. split; intros _; lra.
  - split; intros H.
    + apply Qltb_true in H. lra.
    + apply Qltb_false in H. exact H.
Qed.

(** [heappop] hands out an entry of least value. *)
Lemma heappop_from_least (heap : list Pure.entry) :
  forall e : Pure.entry,
    let '(m, others) := Pure.heappop_from e heap in
    Forall (fun o => entry_value m <= entry_value o)%Q (e :: heap).
Proof.
  induction heap as [|e' heap IH]; intros e; simpl.
  - constructor; [apply Qle_refl|constructor].
  - specialize (IH e').
    destruct (Pure.heappop_from e' heap) as [m others].
    destruct (entry_lt_value m e) as [Ht Hf].
    destruct (Pure.entry_lt m e).
    + constructor; [now apply Ht|exact IH].
    + specialize (Hf eq_refl).
      constructor; [apply Qle_refl|].
      eapply Forall_impl; [exact IH|].
      intros o Ho. simpl in Ho. lra.
Qed.

Lemma sorted_drop_head (a : list Q) :
  Sorted Qle a ->
  forall (j : nat) (v : Q),
    a !! j = Some v -> Forall (fun y => v <= y)%Q (drop j a).
Proof.
  intros Hs. apply Sorted_StronglySorted in Hs; [|exact Qle_trans_].
  induction Hs as [|x a Hs IH Hall]; intros j v Hj; [discriminate|].
  destruct j as [|j]; simpl in *.
  - injection Hj as ->. constructor; [apply Qle_refl|exact Hall].
  - now apply IH.
Qed.

Lemma nth_sorted (arrays : list (list Q)) (i : nat) :
  Forall (Sorted Qle) arrays -> Sorted Qle (nth i arrays []).
Proof.
  intros H. destruct (Nat.lt_ge_cases i (length arrays)) as [Hi|Hi].
  - exact (proj1 (List.Forall_forall _ _) H _ (nth_In _ _ Hi)).
  - rewrite nth_overflow by exact Hi. constructor.
Qed.

(** Everything still to be emitted for an entry is at least its
    value. *)
Lemma pending_above_value (arrays : list (list Q)) (e : Pure.entry) :
  Forall (Sorted Qle) arrays -> entry_ok arrays e ->
  Forall (fun y => entry_value e <= y)%Q (pending arrays e).
Proof.
  intros Hs Hok. destruct e as [[v i] j].
  unfold entry_ok in Hok. unfold pending, entry_value. cbn [fst].
  apply sorted_drop_head; [now apply nth_sorted|exact Hok].
Qed.

Lemma merge_loop_sorted (arrays : list (list Q)) (fuel : nat) :
  Forall (Sorted Qle) arrays ->
  forall (heap : list Pure.entry) (merged : list Q),
    Forall (entry_ok arrays) heap ->
    StronglySorted Qle merged ->
    (forall x y : Q,
        In x merged -> In y (concat (map (pending arrays) heap)) ->
        (x <= y)%Q) ->
    StronglySorted Qle (Pure.merge_loop fuel arrays heap merged).
Proof.
  intros Hs.
  induction fuel as [|fuel IH]; intros heap merged Hok Hm Hcross;
    [exact Hm|].
  cbn [Pure.merge_loop]. unfold Pure.heappush.
  destruct heap as [|e rest]; [exact Hm|].
  pose proof (heappop_from_perm rest e) as Hpop.
  pose proof (heappop_from_least rest e) as Hleast.
  destruct (Pure.heappop_from e rest) as [[[val arr_idx] elem_idx] heap'].
  assert (Hok' : Forall (entry_ok arrays) ((val, arr_idx, elem_idx) :: heap')).
  { now rewrite Hpop. }
  inversion Hok' as [|? ? Hentry Hheap']; subst.
  assert (Hpend : Permutation
                    (concat (map (pending arrays) (e :: rest)))
                    (pending arrays (val, arr_idx, elem_idx)
                     ++ concat (map (pending arrays) heap'))).
  { rewrite <- Hpop. reflexivity. }
  assert (Hall : forall y : Q,
             In y (concat (map (pending arrays) (e :: rest))) ->
             (val <= y)%Q).
  { intros y Hy. apply in_concat in Hy as (p & Hp & Hy).
    apply in_map_iff in Hp as (o & <- & Ho).
    pose proof (proj1 (List.Forall_forall _ _) Hleast o Ho) as Hvo.
    pose proof (proj1 (List.Forall_forall _ _) Hok o Ho) as Hoo.
    pose proof (proj1 (List.Forall_forall _ _)
                      (pending_above_value arrays o Hs Hoo) y Hy) as Hoy.
    unfold entry_value in Hvo. cbn [fst] in Hvo. simpl in Hoy.
    unfold entry_value in Hoy. lra. }
  pose proof Hentry as Hentry'. unfold entry_ok in Hentry'.
  assert (Hval : In val (concat (map (pending arrays) (e :: rest)))).
  { apply (Permutation_in _ (Permutation_sym Hpend)).
    apply in_or_app. left. cbn [pending].
    rewrite (drop_S _ _ _ Hentry'). now left. }
  assert (Hm' : StronglySorted Qle (merged ++ [val])).
  { apply strongly_sorted_app; [exact Hm|repeat constructor|].
    intros x y Hx [<-|[]]. now apply Hcross. }
  assert (Hsub : forall (y : Q) (tail_ : list Q),
             (forall z, In z tail_ ->
                        In z (drop (S elem_idx) (nth arr_idx arrays []))) ->
             In y (tail_ ++ concat (map (pending arrays) heap')) ->
             In y (concat (map (pending arrays) (e :: rest)))).
  { intros y tail_ Ht Hy.
    apply (Permutation_in _ (Permutation_sym Hpend)).
    cbn [pending]. rewrite (drop_S _ _ _ Hentry').
    apply in_app_or in Hy as [Hy|Hy].
    - apply in_or_app. left. right. now apply Ht.
    - apply in_or_app. now right. }
  assert (Hcross' : forall (tail_ : list Q),
             (forall z, In z tail_ ->
                        In z (drop (S elem_idx) (nth arr_idx arrays []))) ->
             forall x y : Q,
               In x (merged ++ [val]) ->
               In y (tail_ ++ concat (map (pending arrays) heap')) ->
               (x <= y)%Q).
  { intros tail_ Ht x y Hx Hy.
    pose proof (Hsub y tail_ Ht Hy) as Hy'.
    apply in_app_or in Hx as [Hx|[<-|[]]].
    - now apply Hcross.
    - now apply Hall. }
  destruct (elem_idx + 1 <? length (nth arr_idx arrays []))%nat eqn:E.
  - apply Nat.ltb_lt in E.
    destruct (nth_lookup_in_range (nth arr_idx arrays []) (elem_idx + 1) E)
      as [Hnext _].
    apply IH.
    + constructor; [exact Hnext|exact Hheap'].
    + exact Hm'.
    + cbn [map concat pending].
      apply Hcross'. intros z Hz.
      now replace (S elem_idx) with (elem_idx + 1)%nat by lia.
  - apply IH.
    + exact Hheap'.
    + exact Hm'.
    + apply (Hcross' []). intros z [].
Qed.

Lemma merge_sorted_arrays_sorted_ (arrays : list (list Q)) :
  Forall (Sorted Qle) arrays -> Sorted Qle (Pure._merge_sorted_arrays arrays).
Proof.
  intros Hs. unfold Pure._merge_sorted_arrays.
  destruct (initial_heap_ok arrays []) as [Hok _]. simpl in Hok.
  apply StronglySorted_Sorted. apply merge_loop_sorted.
  - exact Hs.
  - exact Hok.
  - constructor.
  - intros x y [].
Qed.

(** ** [_bucket_sort] sorts *)

Lemma py_int_nonneg (q : Q) : (0 <= q)%Q -> py_int q = Qfloor q.
Proof.
  intros H. unfold py_int.
  destruct (Qltb q 0) eqn:E; [|reflexivity].
  apply Qltb_true in E. lra.
Qed.

Lemma bucket_width_positive (n_buckets : nat) (min_val max_val : Q) :
  (1 <= n_buckets)%nat -> (min_val < max_val)%Q ->
  (0 < (max_val - min_val) / inject_Z (Z.of_nat n_buckets))%Q.
Proof.
  intros Hn Hlt. apply Qlt_shift_div_l.
  - change 0%Q with (inject_Z 0). rewrite <- Zlt_Qlt. lia.
  - lra.
Qed.

Lemma bucket_of_range (n_buckets : nat) (min_val max_val x : Q) :
  (1 <= n_buckets)%nat -> (min_val < max_val)%Q ->
  (min_val <= x <= max_val)%Q ->
  let width := ((max_val - min_val) / inject_Z (Z.of_nat n_buckets))%Q in
  0 <= bucket_of n_buckets min_val width x < Z.of_nat n_buckets.
Proof.
  intros Hn Hlt Hx width.
  pose proof (bucket_width_positive n_buckets min_val max_val Hn Hlt) as Hw.
  fold width in Hw.
  assert (Hn0 : (0 < inject_Z (Z.of_nat n_buckets))%Q).
  { change 0%Q with (inject_Z 0). rewrite <- Zlt_Qlt. lia. }
  assert (Hq0 : (0 <= (x - min_val) / width)%Q).
  { apply Qle_shift_div_l; [exact Hw|]. lra. }
  assert (Hqn : ((x - min_val) / width <= inject_Z (Z.of_nat n_buckets))%Q).
  { apply Qle_shift_div_r; [exact Hw|].
    unfold width. rewrite Qmult_div_r by lra. lra. }
  unfold bucket_of. cbv zeta. rewrite py_int_nonneg by exact Hq0.
  pose proof (Qfloor_resp_le _ _ Hq0) as H0. change (Qfloor 0) with 0 in H0.
  pose proof (Qfloor_resp_le _ _ Hqn) as H1. rewrite Qfloor_Z in H1.
  destruct (Qfloor ((x - min_val) / width) =? Z.of_nat n_buckets) eqn:E.
  - apply Z.eqb_eq in E. lia.
  - apply Z.eqb_neq in E. lia.
Qed.

Lemma bucket_of_monotone (n_buckets : nat) (min_val width x y : Q) :
  (0 < width)%Q -> (min_val <= x)%Q -> (x <= y)%Q ->
  bucket_of n_buckets min_val width x <= bucket_of n_buckets min_val width y.
Proof.
  intros Hw Hx Hxy.
  assert (Hq0 : (0 <= (x - min_val) / width)%Q).
  { apply Qle_shift_div_l; [exact Hw|]. lra. }
  assert (Hqxy : ((x - min_val) / width <= (y - min_val) / width)%Q).
  { apply Qle_shift_div_l; [exact Hw|].
    unfold Qdiv. rewrite <- Qmult_assoc, (Qmult_comm (/ width)).
    rewrite Qmult_inv_r by lra. lra. }
  unfold bucket_of. cbv zeta.
  rewrite !py_int_nonneg by lra.
  pose proof (Qfloor_resp_le _ _ Hqxy) as H.
  repeat match goal with
         | |- context [?a =? ?b] =>
           let E := fresh "E" in
           destruct (a =? b) eqn:E;
             [apply Z.eqb_eq in E|apply Z.eqb_neq in E]
         end; lia.
Qed.

Lemma fill_buckets_holds (n_buckets : nat) (min_val width : Q)
      (xs : list Q) :
  forall buckets : list (list Q),
    length buckets = n_buckets ->
    Forall (fun x => 0 <= bucket_of n_buckets min_val width x
                     < Z.of_nat n_buckets) xs ->
    buckets_hold n_buckets min_val width buckets ->
    exists buckets' : list (list Q),
      fill_buckets n_buckets min_val width xs buckets = ok buckets'
      /\ length buckets' = n_buckets
      /\ buckets_hold n_buckets min_val width buckets'.
Proof.
  induction xs as [|x xs IH]; intros buckets Hlen Hxs Hb.
  - exists buckets. now split.
  - inversion Hxs as [|? ? Hx Hxs']; subst.
    change (fill_buckets (length buckets) min_val width (x :: xs) buckets)
      with (rbind (bucket_append buckets
                     (bucket_of (length buckets) min_val width x) x)
                  (fill_buckets (length buckets) min_val width xs)).
    set (i := bucket_of (length buckets) min_val width x) in *.
    unfold bucket_append, py_index.
    replace ((0 <=? i) && (i <? Z.of_nat (length buckets))) with true
      by (symmetry; apply andb_true_iff; split;
          [apply Z.leb_le|apply Z.ltb_lt]; lia).
    cbn [rbind ok].
    apply IH.
    + now rewrite length_alter.
    + exact Hxs'.
    + intros j b y Hj Hy.
      destruct (Nat.eq_dec (Z.to_nat i) j) as [<-|Hne].
      * rewrite list_lookup_alter_eq in Hj.
        destruct (buckets !! Z.to_nat i) as [b0|] eqn:Eb; [|discriminate].
        simpl in Hj. injection Hj as <-.
        apply in_app_or in Hy as [Hy|[<-|[]]].
        -- exact (Hb _ _ _ Eb Hy).
        -- fold i. lia.
      * rewrite list_lookup_alter_ne in Hj by exact Hne.
        exact (Hb _ _ _ Hj Hy).
Qed.

Lemma concat_nonempty_filter (parts : list (list Q)) :
  concat (List.filter nonempty parts) = concat parts.
Proof.
  induction parts as [|p parts IH]; [reflexivity|].
  cbn [List.filter]. destruct p as [|x p]; simpl.
  - exact IH.
  - now rewrite IH.
Qed.

(** Sorted parts in ascending order of their values, one after the
    other, are sorted. *)
Lemma concat_in_order_sorted (parts : list (list Q)) :
  Forall (Sorted Qle) parts ->
  (forall (i j : nat) (p q : list Q) (x y : Q),
      (i < j)%nat -> parts !! i = Some p -> parts !! j = Some q ->
      In x p -> In y q -> (x <= y)%Q) ->
  StronglySorted Qle (concat parts).
Proof.
  induction parts as [|p parts IH]; intros Hs Hord; [constructor|].
  inversion Hs as [|? ? Hp Hs']; subst. simpl.
  apply strongly_sorted_app.
  - apply Sorted_StronglySorted; [exact Qle_trans_|exact Hp].
  - apply IH; [exact Hs'|].
    intros i j p' q' x y Hij Hi Hj. apply (Hord (S i) (S j)); [lia|exact Hi|exact Hj].
  - intros x y Hx Hy. apply in_concat in Hy as (q' & Hq' & Hy).
    apply list_elem_of_In, list_elem_of_lookup in Hq' as [j Hj].
    apply (Hord 0%nat (S j) p q'); [lia|reflexivity|exact Hj|exact Hx|exact Hy].
Qed.

Lemma buckets_in_order_sorted (n_buckets : nat) (min_val width : Q)
      (buckets : list (list Q)) :
  (0 < width)%Q ->
  Forall (Forall (fun x => min_val <= x)%Q) buckets ->
  buckets_hold n_buckets min_val width buckets ->
  StronglySorted Qle (concat (map np.sort buckets)).
Proof.
  intros Hw Hmin Hb. apply concat_in_order_sorted.
  - apply List.Forall_forall. intros p Hp.
    apply in_map_iff in Hp as (b & <- & _). apply sort_sorted.
  - intros i j p q x y Hij Hi Hj Hx Hy.
    rewrite list_lookup_fmap in Hi, Hj.
    destruct (buckets !! i) as [bi|] eqn:Ei; [|discriminate].
    destruct (buckets !! j) as [bj|] eqn:Ej; [|discriminate].
    simpl in Hi, Hj. injection Hi as <-. injection Hj as <-.
    apply (Permutation_in _ (sort_perm bi)) in Hx.
    apply (Permutation_in _ (sort_perm bj)) in Hy.
    pose proof (Hb _ _ _ Ei Hx) as Bx.
    pose proof (Hb _ _ _ Ej Hy) as By.
    destruct (Qlt_le_dec y x) as [Hlt|Hle]; [|exact Hle].
    exfalso.
    assert (Hy0 : (min_val <= y)%Q).
    { apply list_elem_of_lookup_2, list_elem_of_In in Ej.
      pose proof (proj1 (List.Forall_forall _ _) Hmin _ Ej) as Fj.
      exact (proj1 (List.Forall_forall _ _) Fj _ Hy). }
    pose proof (bucket_of_monotone n_buckets min_val width y x Hw Hy0
                                   (Qlt_le_weak _ _ Hlt)).
    lia.
Qed.

Lemma min_max_bounds (a : Q) (rest : list Q) :
  let lo := foldl np.Qmin a rest in
  let hi := foldl np.Qmax a rest in
  In lo (a :: rest) /\ In hi (a :: rest)
  /\ Forall (fun x => lo <= x <= hi)%Q (a :: rest).
Proof.
  intros lo hi.
  destruct (foldl_Qmin_spec rest a) as [Hlo Flo].
  destruct (foldl_Qmax_spec rest a) as [Hhi Fhi].
  split; [exact Hlo|]. split; [exact Hhi|].
  apply List.Forall_forall. intros x Hx.
  pose proof (proj1 (List.Forall_forall _ _) Flo x Hx).
  pose proof (proj1 (List.Forall_forall _ _) Fhi x Hx).
  simpl in *. now split.
Qed.

Lemma concatenate_nonempty {A : Type} (parts : list (list A)) :
  parts <> [] -> np.concatenate parts = ok (concat parts).
Proof. destruct parts; [contradiction|reflexivity]. Qed.

(** With a bucket count of at least 1, [_bucket_sort] returns the
    array sorted, unless its range overflows. *)
Lemma bucket_sort_run (env : Env) (arr : list Q) (s s' : State)
      (n_buckets : nat) :
  _optimize_bucket_count env arr s = (inr n_buckets, s') ->
  (1 <= n_buckets)%nat ->
  (exists r : list Q,
      _bucket_sort env arr s = (inr r, s') /\ Sorted Qle r)
  \/ (_bucket_sort env arr s = (inl ValueError, s')
      /\ exists lo hi : Q,
          np.min arr = ok lo /\ np.max arr = ok hi
          /\ float64_overflows (hi - lo) = true).
Proof.
  intros Hcount Hn. destruct arr as [|a rest].
  - unfold _optimize_bucket_count in Hcount. simpl in Hcount.
    apply ret_ok in Hcount as [_ ->].
    left. exists []. split; [reflexivity|constructor].
  - destruct (min_max_bounds a rest) as (Hlo & Hhi & Hall).
    cbv zeta in Hlo, Hhi, Hall.
    unfold _bucket_sort. unfold bind at 1. rewrite Hcount.
    cbn [np.min np.max]. unfold bind, lift, ok.
    set (lo := foldl np.Qmin a rest) in *.
    set (hi := foldl np.Qmax a rest) in *.
    set (arr := a :: rest) in *.
    destruct (Qeqb lo hi) eqn:E.
    + apply Qeqb_true in E. left. exists arr. split; [reflexivity|].
      apply StronglySorted_Sorted, strongly_sorted_equal with lo.
      eapply Forall_impl; [exact Hall|]. intros x Hx. simpl in Hx. lra.
    + destruct (float64_overflows (hi - lo)) eqn:Eo.
      { right. split; [|now exists lo, hi].
        rewrite Hcount.
        rewrite (fill_buckets_inf_value_error n_buckets lo arr hi Hn Hhi Eo)
          by apply repeat_length.
        reflexivity. }
      left.
      assert (Hlt : (lo < hi)%Q).
      { destruct (Qlt_le_dec lo hi) as [H|H]; [exact H|].
        exfalso.
        pose proof (proj1 (List.Forall_forall _ _) Hall lo Hlo) as H1.
        simpl in H1.
        assert (lo == hi)%Q as Heq by lra.
        apply Qeqb_true in Heq. congruence. }
      destruct n_buckets as [|b]; [lia|].
      set (n := S b) in *.
      set (width := ((hi - lo) / inject_Z (Z.of_nat n))%Q).
      pose proof (bucket_width_positive n lo hi Hn Hlt) as Hw.
      fold width in Hw.
      destruct (fill_buckets_holds n lo width arr (repeat [] n))
        as (buckets' & Hfill & Hlen & Hhold).
      { apply repeat_length. }
      { eapply Forall_impl; [exact Hall|]. intros x Hx.
        apply (bucket_of_range n lo hi x Hn Hlt Hx). }
      { intros i b0 x Hi Hx.
        apply list_elem_of_lookup_2, list_elem_of_In, repeat_spec in Hi.
        subst b0. destruct Hx. }
      rewrite Hfill.
      pose proof (fill_buckets_perm _ _ _ _ _ _ Hfill) as Hperm.
      rewrite concat_repeat_nil in Hperm. simpl in Hperm.
      assert (Hconcat : concat (List.filter nonempty (map np.sort buckets'))
                        = concat (map np.sort buckets')).
      { apply concat_nonempty_filter. }
      assert (Hne : List.filter nonempty (map np.sort buckets') <> []).
      { intros Hnil. rewrite Hnil in Hconcat. simpl in Hconcat.
        pose proof (concat_map_sort_perm buckets') as Hp.
        rewrite <- Hconcat, Hperm in Hp.
        apply Permutation_nil in Hp. discriminate. }
      unfold ok. cbv iota beta.
      rewrite (concatenate_nonempty _ Hne). unfold ok.
      eexists. split; [reflexivity|].
      rewrite Hconcat. apply StronglySorted_Sorted.
      apply (buckets_in_order_sorted n lo width); [exact Hw| |exact Hhold].
      apply List.Forall_forall. intros b0 Hb0.
      apply List.Forall_forall. intros x Hx.
      assert (Hin : In x arr).
      { apply (Permutation_in _ Hperm). apply in_concat. now exists b0. }
      exact (proj1 (proj1 (List.Forall_forall _ _) Hall x Hin)).
Qed.

(** ** Percentiles *)

Lemma sorted_nth_le (s : list Q) :
  Sorted Qle s ->
  forall i j : nat, (i <= j < length s)%nat -> (nth i s 0 <= nth j s 0)%Q.
Proof.
  intros Hs. apply Sorted_StronglySorted in Hs; [|exact Qle_trans_].
  induction Hs as [|x s Hs IH Hall]; intros i j Hij; [simpl in Hij; lia|].
  destruct i as [|i], j as [|j]; simpl in *; try lia.
  - apply Qle_refl.
  - apply (proj1 (List.Forall_forall _ _) Hall). apply nth_In. lia.
  - apply IH. lia.
Qed.

Lemma Qfloor_bounds (v : Q) (N : Z) :
  (0 <= v)%Q -> (v <= inject_Z N)%Q -> 0 <= Qfloor v <= N.
Proof.
  intros H0 HN. split.
  - change 0 with (Qfloor 0). now apply Qfloor_resp_le.
  - rewrite <- (Qfloor_Z N). now apply Qfloor_resp_le.
Qed.

(** The virtual index of a percentile between 0 and 100 lies inside
    the array and grows with the percentile. *)
Lemma virtual_index_bounds (N : Z) (q q' : Q) :
  0 <= N -> (0 <= q)%Q -> (q <= q')%Q -> (q' <= 100)%Q ->
  (0 <= inject_Z N * q / 100)%Q
  /\ (inject_Z N * q / 100 <= inject_Z N * q' / 100)%Q
  /\ (inject_Z N * q' / 100 <= inject_Z N)%Q.
Proof.
  intros HN H0 Hq H100.
  assert (HN' : (0 <= inject_Z N)%Q).
  { change 0%Q with (inject_Z 0). now rewrite <- Zle_Qle. }
  pose proof (Qmult_le_0_compat _ _ HN' H0) as H1.
  assert (H2 : (inject_Z N * q <= inject_Z N * q')%Q).
  { rewrite !(Qmult_comm (inject_Z N)). now apply Qmult_le_compat_r. }
  assert (H3 : (inject_Z N * q' <= inject_Z N * 100)%Q).
  { rewrite !(Qmult_comm (inject_Z N)). now apply Qmult_le_compat_r. }
  repeat split.
  - apply Qle_shift_div_l; [reflexivity|]. rewrite Qmult_0_l. exact H1.
  - unfold Qdiv. apply Qmult_le_compat_r; [exact H2|discriminate].
  - apply Qle_shift_div_r; [reflexivity|exact H3].
Qed.

Lemma percentile1_monotone (a : list Q) (q q' : Q) :
  a <> [] -> (0 <= q)%Q -> (q <= q')%Q -> (q' <= 100)%Q ->
  (np.percentile1 a q <= np.percentile1 a q')%Q.
Proof.
  intros Hne H0 Hq H100. unfold np.percentile1. cbv zeta.
  pose proof (sort_sorted a) as Hs. pose proof (sort_length a) as Hlen.
  set (s := np.sort a) in *. set (n := length s) in *.
  assert (Hn : (1 <= n)%nat).
  { rewrite Hlen. destruct a; [contradiction|simpl; lia]. }
  set (N := Z.of_nat (n - 1)).
  destruct (virtual_index_bounds N q q' ltac:(lia) H0 Hq H100)
    as (Hv0 & Hvv & HvN).
  set (v := (inject_Z N * q / 100)%Q) in *.
  set (v' := (inject_Z N * q' / 100)%Q) in *.
  assert (Hv'0 : (0 <= v')%Q) by lra.
  assert (HvN' : (v <= inject_Z N)%Q) by lra.
  pose proof (Qfloor_bounds v N Hv0 HvN') as Hf.
  pose proof (Qfloor_bounds v' N Hv'0 HvN) as Hf'.
  pose proof (Qfloor_resp_le _ _ Hvv) as Hff.
  pose proof (Qfloor_le v) as Hfl. pose proof (Qlt_floor v) as Hfu.
  pose proof (Qfloor_le v') as Hfl'. pose proof (Qlt_floor v') as Hfu'.
  set (f := Qfloor v) in *. set (f' := Qfloor v') in *.
  rewrite inject_Z_plus in Hfu, Hfu'.
  change (inject_Z 1) with 1%Q in Hfu, Hfu'.
  set (lo := Z.to_nat f). set (lo' := Z.to_nat f').
  set (hi := Nat.min (lo + 1) (n - 1)). set (hi' := Nat.min (lo' + 1) (n - 1)).
  assert (Hd : (0 <= nth hi s 0 - nth lo s 0)%Q).
  { pose proof (sorted_nth_le s Hs lo hi ltac:(subst lo hi N; fold n; lia)).
    lra. }
  assert (Hd' : (0 <= nth hi' s 0 - nth lo' s 0)%Q).
  { pose proof (sorted_nth_le s Hs lo' hi' ltac:(subst lo' hi' N; fold n; lia)).
    lra. }
  destruct (Z.eq_dec f f') as [Heq|Hneq].
  - assert (lo' = lo) as -> by (subst lo lo'; now rewrite Heq).
    subst hi'. fold hi. rewrite <- Heq.
    assert ((v - inject_Z f) * (nth hi s 0 - nth lo s 0)
            <= (v' - inject_Z f) * (nth hi s 0 - nth lo s 0))%Q.
    { apply Qmult_le_compat_r; [lra|exact Hd]. }
    lra.
  - assert (H1 : ((v - inject_Z f) * (nth hi s 0 - nth lo s 0)
                  <= 1 * (nth hi s 0 - nth lo s 0))%Q).
    { apply Qmult_le_compat_r; [lra|exact Hd]. }
    assert (H2 : (0 <= (v' - inject_Z f') * (nth hi' s 0 - nth lo' s 0))%Q).
    { apply Qmult_le_0_compat; [lra|exact Hd']. }
    pose proof (sorted_nth_le s Hs hi lo' ltac:(subst lo lo' hi N; fold n; lia)).
    lra.
Qed.

Lemma percentile1_at_0 (a : list Q) (q : Q) :
  (q == 0)%Q -> (np.percentile1 a q == nth 0 (np.sort a) 0)%Q.
Proof.
  intros Hq. unfold np.percentile1. cbv zeta.
  set (s := np.sort a). set (N := inject_Z (Z.of_nat (length s - 1))).
  assert (Hv : (N * q / 100 == 0)%Q).
  { rewrite Hq. unfold Qdiv. rewrite Qmult_0_r. apply Qmult_0_l. }
  rewrite (Qfloor_comp _ _ Hv). change (Qfloor 0) with 0.
  change (Z.to_nat 0) with 0%nat.
  rewrite Hv. change (inject_Z 0) with 0%Q. ring.
Qed.

Lemma percentile1_at_100 (a : list Q) (q : Q) :
  (q == 100)%Q ->
  (np.percentile1 a q == nth (length a - 1) (np.sort a) 0)%Q.
Proof.
  intros Hq. unfold np.percentile1. cbv zeta.
  pose proof (sort_length a) as Hlen.
  set (s := np.sort a) in *. rewrite Hlen.
  set (N := Z.of_nat (length a - 1)).
  assert (Hv : (inject_Z N * q / 100 == inject_Z N)%Q).
  { rewrite Hq. field. }
  rewrite (Qfloor_comp _ _ Hv), Qfloor_Z. rewrite Hv.
  unfold N at 1 2 3. rewrite Nat2Z.id.
  replace (Nat.min (length a - 1 + 1) (length a - 1)) with (length a - 1)%nat
    by lia.
  ring.
Qed.

(** The ends of the sorted array are the extremes of the array. *)
Lemma sort_extremes (a : Q) (rest : list Q) :
  let arr := a :: rest in
  (nth 0 (np.sort arr) 0 == foldl np.Qmin a rest)%Q
  /\ (nth (length arr - 1) (np.sort arr) 0 == foldl np.Qmax a rest)%Q.
Proof.
  intros arr.
  destruct (min_max_bounds a rest) as (Hlo & Hhi & Hall).
  cbv zeta in Hlo, Hhi, Hall. fold arr in Hlo, Hhi, Hall.
  pose proof (sort_sorted arr) as Hs. pose proof (sort_length arr) as Hlen.
  pose proof (sort_perm arr) as Hp.
  assert (Hn : (1 <= length arr)%nat) by (simpl; lia).
  assert (Hin : forall i, (i < length arr)%nat ->
                          In (nth i (np.sort arr) 0%Q) arr).
  { intros i Hi. apply (Permutation_in _ Hp). apply nth_In. lia. }
  assert (Hidx : forall x, In x arr ->
                           exists i, (i < length arr)%nat
                                     /\ nth i (np.sort arr) 0%Q = x).
  { intros x Hx. apply (Permutation_in _ (Permutation_sym Hp)) in Hx.
    destruct (In_nth _ _ 0%Q Hx) as (i & Hi & Hnth).
    exists i. split; [lia|exact Hnth]. }
  pose proof (proj1 (List.Forall_forall _ _) Hall) as Hb.
  split.
  - destruct (Hidx _ Hlo) as (i & Hi & Hnth).
    pose proof (sorted_nth_le _ Hs 0%nat i ltac:(lia)) as H1.
    rewrite Hnth in H1.
    pose proof (Hb _ (Hin 0%nat ltac:(lia))) as H2. cbv beta in H2. lra.
  - destruct (Hidx _ Hhi) as (i & Hi & Hnth).
    pose proof (sorted_nth_le _ Hs i (length arr - 1)%nat ltac:(lia)) as H1.
    rewrite Hnth in H1.
    pose proof (Hb _ (Hin (length arr - 1)%nat ltac:(lia))) as H2.
    cbv beta in H2. lra.
Qed.

(** ** The percentile split *)

Lemma between_empty (arr : list Q) (lo hi : Q) :
  (hi <= lo)%Q -> between lo hi arr = [].
Proof.
  intros H. unfold between, np.select.
  induction arr as [|x arr IH]; [reflexivity|]. cbn [List.filter].
  destruct (Qgeb x lo) eqn:E1; [|exact IH].
  destruct (Qltb x hi) eqn:E2; [|exact IH].
  apply Qleb_true in E1. apply Qltb_true in E2. lra.
Qed.

Lemma between_split (arr : list Q) (lo mid hi : Q) :
  (lo <= mid)%Q -> (mid <= hi)%Q ->
  Permutation (between lo mid arr ++ between mid hi arr) (between lo hi arr).
Proof.
  intros H1 H2. unfold between, np.select.
  induction arr as [|x arr IH]; [reflexivity|]. cbn [List.filter].
  unfold Qgeb.
  destruct (Qle_bool lo x) eqn:E1; [apply (Qleb_true lo x) in E1
                                   |apply (Qleb_false lo x) in E1];
    (destruct (Qle_bool mid x) eqn:E2; [apply (Qleb_true mid x) in E2
                                       |apply (Qleb_false mid x) in E2]);
    (destruct (Qltb x mid) eqn:E3; [apply Qltb_true in E3
                                   |apply Qltb_false in E3]);
    (destruct (Qltb x hi) eqn:E4; [apply Qltb_true in E4
                                  |apply Qltb_false in E4]);
    cbn [andb app]; try lra; try exact IH.
  - rewrite <- Permutation_middle. now constructor.
  - now constructor.
Qed.

Lemma partitions_between_cons (arr : list Q) (lo hi : Q) (rest : list Q) :
  concat (Algo.partitions_between arr (lo :: hi :: rest))
  = between lo hi arr ++ concat (Algo.partitions_between arr (hi :: rest))
  /\ concat (map np.sort (Algo.partitions_between arr (lo :: hi :: rest)))
     = np.sort (between lo hi arr)
       ++ concat (map np.sort (Algo.partitions_between arr (hi :: rest))).
Proof.
  change (Algo.partitions_between arr (lo :: hi :: rest))
    with ((if (0 <? length (between lo hi arr))%nat
           then [between lo hi arr] else [])
          ++ Algo.partitions_between arr (hi :: rest)).
  destruct (between lo hi arr) as [|x part]; split; reflexivity.
Qed.

Section PivotsInOrder.

Variable arr : list Q.
Variable P : nat -> Q.

Lemma partitions_between_perm (len : nat) :
  forall start : nat,
    (forall i j : nat, (start <= i <= j)%nat -> (j <= start + len)%nat ->
                       (P i <= P j)%Q) ->
    Permutation
      (concat (Algo.partitions_between arr (map P (seq start (S len)))))
      (between (P start) (P (start + len)) arr).
Proof.
  induction len as [|len IH]; intros start Hmono.
  - rewrite Nat.add_0_r. simpl. rewrite between_empty; [reflexivity|].
    apply Qle_refl.
  - change (map P (seq start (S (S len))))
      with (P start :: P (S start) :: map P (seq (S (S start)) len)).
    rewrite (proj1 (partitions_between_cons _ _ _ _)).
    change (P (S start) :: map P (seq (S (S start)) len))
      with (map P (seq (S start) (S len))).
    rewrite IH by (intros i j Hij Hj; apply Hmono; lia).
    replace (S start + len)%nat with (start + S len)%nat by lia.
    apply between_split; apply Hmono; lia.
Qed.

Lemma partitions_between_sorted (len : nat) :
  forall start : nat,
    (forall i j : nat, (start <= i <= j)%nat -> (j <= start + len)%nat ->
                       (P i <= P j)%Q) ->
    let out :=
      concat (map np.sort
                  (Algo.partitions_between arr (map P (seq start (S len))))) in
    StronglySorted Qle out /\ Forall (fun x => P start <= x)%Q out.
Proof.
  induction len as [|len IH]; intros start Hmono; cbv zeta.
  - simpl. split; constructor.
  - change (map P (seq start (S (S len))))
      with (P start :: P (S start) :: map P (seq (S (S start)) len)).
    rewrite (proj2 (partitions_between_cons _ _ _ _)).
    change (P (S start) :: map P (seq (S (S start)) len))
      with (map P (seq (S start) (S len))).
    destruct (IH (S start)) as [Hs Hlow];
      [intros i j Hij Hj; apply Hmono; lia|].
    assert (Hpart : forall x, In x (np.sort (between (P start) (P (S start)) arr))
                              -> (P start <= x < P (S start))%Q).
    { intros x Hx. apply (Permutation_in _ (sort_perm _)) in Hx.
      unfold between, np.select in Hx. apply filter_In in Hx as [_ Hx].
      apply andb_true_iff in Hx as [Ha Hb].
      apply Qleb_true in Ha. apply Qltb_true in Hb. now split. }
    pose proof (proj1 (List.Forall_forall _ _) Hlow) as Hlow'.
    split.
    + apply strongly_sorted_app.
      * apply Sorted_StronglySorted; [exact Qle_trans_|apply sort_sorted].
      * exact Hs.
      * intros x y Hx Hy. specialize (Hpart x Hx). specialize (Hlow' y Hy).
        cbv beta in Hlow'. lra.
    + apply List.Forall_forall. intros x Hx.
      apply in_app_or in Hx as [Hx|Hx].
      * now apply Hpart.
      * specialize (Hlow' x Hx). cbv beta in Hlow'.
        pose proof (Hmono start (S start) ltac:(lia) ltac:(lia)). lra.
Qed.

Lemma partitions_between_nonempty (pivots : list Q) :
  Forall (fun part => part <> []) (Algo.partitions_between arr pivots).
Proof.
  induction pivots as [|lo pivots IH]; [constructor|].
  destruct pivots as [|hi rest]; [constructor|].
  change (Algo.partitions_between arr (lo :: hi :: rest))
    with ((if (0 <? length (between lo hi arr))%nat
           then [between lo hi arr] else [])
          ++ Algo.partitions_between arr (hi :: rest)).
  apply List.Forall_app. split; [|exact IH].
  destruct (between lo hi arr); simpl; repeat constructor. discriminate.
Qed.

End PivotsInOrder.

Lemma quantile_bounds (k i j : nat) :
  (2 <= k)%nat -> (i <= j)%nat -> (j <= k - 1)%nat ->
  (0 <= quantile k i)%Q /\ (quantile k i <= quantile k j)%Q
  /\ (quantile k j <= 100)%Q.
Proof.
  intros Hk Hij Hj. unfold quantile.
  set (d := inject_Z (Z.of_nat (k - 1))).
  assert (Hd : (0 < d)%Q).
  { unfold d. change 0%Q with (inject_Z 0). rewrite <- Zlt_Qlt. lia. }
  set (step := ((100 - 0) / d)%Q).
  assert (Hstep : (0 <= step)%Q).
  { unfold step. apply Qle_shift_div_l; [exact Hd|]. lra. }
  assert (Hi : (0 <= inject_Z (Z.of_nat i))%Q).
  { change 0%Q with (inject_Z 0). rewrite <- Zle_Qle. lia. }
  assert (Hij' : (inject_Z (Z.of_nat i) <= inject_Z (Z.of_nat j))%Q).
  { rewrite <- Zle_Qle. lia. }
  assert (Hj' : (inject_Z (Z.of_nat j) <= d)%Q).
  { unfold d. rewrite <- Zle_Qle. lia. }
  pose proof (Qmult_le_0_compat _ _ Hi Hstep) as H1.
  pose proof (Qmult_le_compat_r _ _ step Hij' Hstep) as H2.
  pose proof (Qmult_le_compat_r _ _ step Hj' Hstep) as H3.
  assert (H4 : (d * step == 100)%Q).
  { unfold step. rewrite Qmult_div_r by lra. ring. }
  repeat split; lra.
Qed.

Lemma quantile_ends (k : nat) :
  (2 <= k)%nat -> (quantile k 0 == 0)%Q /\ (quantile k (k - 1) == 100)%Q.
Proof.
  intros Hk. unfold quantile. split.
  - change (inject_Z (Z.of_nat 0)) with 0%Q. ring.
  - set (d := inject_Z (Z.of_nat (k - 1))).
    assert (Hd : (0 < d)%Q).
    { unfold d. change 0%Q with (inject_Z 0). rewrite <- Zlt_Qlt. lia. }
    field. lra.
Qed.

(** From 1000 elements on, the pivots of [_advanced_partition] are the
    percentiles of [k] evenly spaced quantiles, [2 <= k <= 10]. *)
Lemma advanced_partition_pivots (arr : list Q) :
  (1000 <= length arr)%nat ->
  exists k : nat,
    (2 <= k)%nat
    /\ Algo._advanced_partition arr
       = Algo.partitions_between
           arr
           (map (fun i => np.percentile1 arr (quantile k i)) (seq 0 (S (k - 1)))).
Proof.
  intros Hlen. unfold Algo._advanced_partition.
  destruct (length arr <? 1000)%nat eqn:E; [apply Nat.ltb_lt in E; lia|].
  set (k := Nat.min (length arr / 1000 + 1) 10).
  assert (Hk : (2 <= k)%nat).
  { unfold k.
    assert (1 <= length arr / 1000)%nat
      by (apply Nat.div_le_lower_bound; lia).
    lia. }
  exists k. split; [exact Hk|].
  unfold np.percentile, np.linspace.
  destruct k as [|[|k']]; [lia|lia|].
  rewrite map_map.
  replace (S (S (S k') - 1)) with (S (S k')) by lia.
  reflexivity.
Qed.

Lemma below_spec (m : Q) (arr : list Q) (x : Q) :
  In x (below m arr) <-> In x arr /\ (x < m)%Q.
Proof.
  unfold below, np.select. rewrite filter_In, Qltb_true. reflexivity.
Qed.

Lemma advanced_partition_spec (arr : list Q) (m : Q) :
  (1000 <= length arr)%nat -> np.max arr = ok m ->
  Permutation (concat (Algo._advanced_partition arr)) (below m arr)
  /\ Forall (fun part => part <> []) (Algo._advanced_partition arr)
  /\ Sorted Qle (concat (map np.sort (Algo._advanced_partition arr))).
Proof.
  intros Hlen Hmax.
  destruct (advanced_partition_pivots arr Hlen) as (k & Hk & ->).
  set (P := fun i => np.percentile1 arr (quantile k i)).
  destruct arr as [|a rest]; [simpl in Hlen; lia|].
  cbn [np.max] in Hmax. unfold ok in Hmax. injection Hmax as Hm.
  set (arr := a :: rest) in *.
  assert (Hne : arr <> []) by discriminate.
  assert (Hmono : forall i j : nat,
             (0 <= i <= j)%nat -> (j <= 0 + (k - 1))%nat -> (P i <= P j)%Q).
  { intros i j Hij Hj. unfold P.
    destruct (quantile_bounds k i j Hk ltac:(lia) ltac:(lia)) as (H0 & H1 & H2).
    now apply percentile1_monotone. }
  destruct (quantile_ends k Hk) as [Hq0 Hq100].
  destruct (sort_extremes a rest) as [Hlo Hhi]. cbv zeta in Hlo, Hhi.
  fold arr in Hlo, Hhi. rewrite Hm in Hhi.
  destruct (min_max_bounds a rest) as (_ & _ & Hall). cbv zeta in Hall.
  fold arr in Hall. rewrite Hm in Hall.
  assert (HP0 : (P 0%nat == foldl np.Qmin a rest)%Q).
  { unfold P. now rewrite (percentile1_at_0 arr _ Hq0). }
  assert (HPk : (P (k - 1)%nat == m)%Q).
  { unfold P. now rewrite (percentile1_at_100 arr _ Hq100). }
  split; [|split].
  - rewrite (partitions_between_perm arr P (k - 1) 0 Hmono).
    cbn [plus]. unfold between, below, np.select.
    erewrite filter_ext_in; [reflexivity|].
    intros x Hx. cbv beta.
    pose proof (proj1 (List.Forall_forall _ _) Hall x Hx) as Hb.
    cbv beta in Hb.
    replace (Qgeb x (P 0%nat)) with true
      by (symmetry; apply Qleb_true; lra).
    cbn [andb].
    destruct (Qltb x (P (k - 1)%nat)) eqn:E1; destruct (Qltb x m) eqn:E2;
      try reflexivity.
    + apply Qltb_true in E1. apply Qltb_false in E2. lra.
    + apply Qltb_false in E1. apply Qltb_true in E2. lra.
  - apply partitions_between_nonempty.
  - apply StronglySorted_Sorted.
    apply (partitions_between_sorted arr P (k - 1) 0 Hmono).
Qed.

Lemma hybrid_sort_spec (arr : list Q) (m : Q) :
  (1000 <= length arr)%nat -> np.max arr = ok m ->
  match Algo._hybrid_sort arr with
  | inr r =>
    Sorted Qle r /\ Permutation r (below m arr) /\ below m arr <> []
  | inl e => e = ValueError /\ Forall (fun x => x == m)%Q arr
  end.
Proof.
  intros Hlen Hmax.
  destruct (advanced_partition_spec arr m Hlen Hmax) as (Hp & Hne & Hs).
  unfold Algo._hybrid_sort.
  destruct (length arr <? 1000)%nat eqn:E; [apply Nat.ltb_lt in E; lia|].
  destruct (Algo._advanced_partition arr) as [|part parts] eqn:Eparts.
  - simpl. split; [reflexivity|].
    simpl in Hp. apply Permutation_nil in Hp.
    destruct arr as [|a rest]; [constructor|].
    cbn [np.max] in Hmax. unfold ok in Hmax. injection Hmax as Hm.
    destruct (min_max_bounds a rest) as (_ & _ & Hall). cbv zeta in Hall.
    rewrite Hm in Hall.
    apply List.Forall_forall. intros x Hx.
    pose proof (proj1 (List.Forall_forall _ _) Hall x Hx) as Hb.
    cbv beta in Hb.
    destruct (Qlt_le_dec x m) as [Hlt|Hge]; [|lra].
    exfalso. assert (In x (below m (a :: rest))) as Hin
        by (apply below_spec; now split).
    rewrite Hp in Hin. destruct Hin.
  - cbn [map np.concatenate]. unfold ok.
    split; [exact Hs|].
    split.
    + change (concat (np.sort part :: map np.sort parts))
        with (concat (map np.sort (part :: parts))).
      now rewrite concat_map_sort_perm.
    + intros Hnil. rewrite Hnil in Hp.
      apply Permutation_sym, Permutation_nil in Hp.
      inversion Hne as [|? ? Hpart _]; subst.
      destruct part; [contradiction|discriminate].
Qed.

(** ** What the strategies return is sorted *)

Lemma hybrid_sort_sorted (arr r : list Q) :
  Algo._hybrid_sort arr = ok r -> Sorted Qle r.
Proof.
  intros H. destruct (Nat.lt_ge_cases (length arr) 1000) as [Hlt|Hge].
  - rewrite (hybrid_sort_small _ _ Hlt H). apply sort_sorted.
  - destruct arr as [|a rest]; [simpl in Hge; lia|].
    pose proof (hybrid_sort_spec (a :: rest) (foldl np.Qmax a rest) Hge
                                 eq_refl) as Hspec.
    rewrite H in Hspec. apply Hspec.
Qed.

Lemma all_sorted_map_sort (chunks : list (list Q)) :
  Forall (Sorted Qle) (map np.sort chunks).
Proof.
  apply List.Forall_forall. intros c Hc.
  apply in_map_iff in Hc as (c0 & <- & _). apply sort_sorted.
Qed.

Section SortedStrategies.

Variable env : Env.
Variable cfg : Config.

Lemma bucket_sort_sorted (arr : list Q) :
  returns (_bucket_sort env arr) (Sorted Qle).
Proof.
  intros s r s' H.
  pose proof H as H0. unfold _bucket_sort in H0.
  destruct arr as [|a rest].
  { apply ret_ok in H0 as [-> _]. constructor. }
  apply bind_ok in H0 as (n_buckets & s1 & Hcount & H0).
  destruct n_buckets as [|n].
  - apply bind_ok in H0 as (lo & s2 & Hlo & H0).
    apply bind_ok in H0 as (hi & s3 & Hhi & H0).
    apply lift_ok in Hlo as [Hlo _]. apply lift_ok in Hhi as [Hhi _].
    cbn [np.min np.max] in Hlo, Hhi. unfold ok in Hlo, Hhi.
    injection Hlo as <-. injection Hhi as <-.
    destruct (Qeqb _ _) eqn:E.
    2:{ exfalso. destruct (float64_overflows _) eqn:Eo; [|discriminate].
        apply bind_ok in H0 as (b & s4 & Hfill & _).
        apply lift_ok in Hfill as [Hfill _].
        destruct (min_max_bounds a rest) as (_ & Hmax & _). cbv zeta in Hmax.
        destruct (fill_buckets_inf_raises 0 _ (a :: rest) _ Hmax Eo
                                          (repeat [] 0)) as [e He].
        rewrite He in Hfill. discriminate. }
    apply ret_ok in H0 as [-> _]. apply Qeqb_true in E.
    destruct (min_max_bounds a rest) as (_ & _ & Hall). cbv zeta in Hall.
    apply StronglySorted_Sorted,
      strongly_sorted_equal with (foldl np.Qmin a rest).
    eapply Forall_impl; [exact Hall|]. intros x Hx. cbv beta in Hx. lra.
  - destruct (bucket_sort_run env (a :: rest) s s1 (S n) Hcount ltac:(lia))
      as [(r' & Hr' & Hs)|[Hr' _]]; rewrite H in Hr'; [|discriminate].
    injection Hr' as -> _. exact Hs.
Qed.

Lemma parallel_sort_sorted (arr : list Q) :
  returns (_parallel_sort env cfg arr) (fun r => Sorted Qle (fst r)).
Proof.
  unfold _parallel_sort.
  eapply returns_bind; [apply returns_any|]. intros chunk_size_ _.
  eapply returns_bind; [apply returns_any|]. intros sections _.
  eapply returns_bind; [apply returns_any|]. intros chunks _.
  eapply returns_bind; [apply returns_any|]. intros stats _.
  apply returns_ret. cbn [fst].
  apply merge_sorted_arrays_sorted_, all_sorted_map_sort.
Qed.

Lemma adaptive_sort_sorted (arr : list Q) :
  returns (_adaptive_sort env cfg arr) (fun r => Sorted Qle (fst r)).
Proof.
  unfold _adaptive_sort.
  eapply returns_bind; [apply returns_any|]. intros sample _.
  eapply returns_bind
    with (Q := fun p : Algorithm * list Q => Sorted Qle (snd p)).
  - destruct (is_nearly_sorted sample).
    + apply returns_ret. apply sort_sorted.
    + eapply returns_bind; [apply returns_any|]. intros hi _.
      eapply returns_bind; [apply returns_any|]. intros lo _.
      destruct (std_below_range_percent _ _).
      * eapply returns_bind; [apply parallel_sort_sorted|].
        intros [r stats] Hr. now apply returns_ret.
      * eapply returns_bind.
        -- apply returns_lift. intros r Hr. exact (hybrid_sort_sorted _ _ Hr).
        -- intros r Hr. now apply returns_ret.
  - intros [algorithm r] Hr.
    eapply returns_bind; [apply returns_any|]. intros stats _.
    now apply returns_ret.
Qed.

Lemma external_sort_sorted (arr : list Q) :
  Sorted Qle (_external_sort env Float64 arr).
Proof.
  unfold _external_sort. cbv zeta.
  destruct (map np.sort _) as [|c cs] eqn:E; [constructor|].
  rewrite <- E. apply merge_sorted_arrays_sorted_, all_sorted_map_sort.
Qed.

Lemma optimize_block_sort_sorted (block : list Q) :
  returns (_optimize_block_sort env block) (Sorted Qle).
Proof.
  intros s r s' H. apply optimize_block_sort_spec in H as [_ H].
  exact (bucket_sort_sorted block _ _ _ H).
Qed.

Lemma block_sorts_sorted (blocks : list (list Q)) :
  returns (mapM (_optimize_block_sort env) blocks) (Forall (Sorted Qle)).
Proof.
  induction blocks as [|b blocks IH]; cbn [mapM].
  - apply returns_ret. constructor.
  - eapply returns_bind; [apply optimize_block_sort_sorted|]. intros r Hr.
    eapply returns_bind; [exact IH|]. intros rs Hrs.
    apply returns_ret. now constructor.
Qed.

Lemma merge_pairs_sorted (n : nat) :
  forall blocks : list (list Q),
    (length blocks <= n)%nat ->
    Forall (Sorted Qle) blocks -> Forall (Sorted Qle) (merge_pairs blocks).
Proof.
  induction n as [|n IH]; intros blocks Hlen Hs.
  - destruct blocks; [constructor|simpl in Hlen; lia].
  - destruct blocks as [|b1 [|b2 rest]]; try exact Hs.
    cbn [merge_pairs].
    inversion Hs as [|? ? H1 Hs1]; subst.
    inversion Hs1 as [|? ? H2 Hs2]; subst.
    constructor.
    + apply merge_sorted_arrays_sorted_. now repeat constructor.
    + apply IH; [simpl in Hlen; lia|exact Hs2].
Qed.

Lemma merge_rounds_sorted (fuel : nat) :
  forall blocks : list (list Q),
    Forall (Sorted Qle) blocks ->
    Forall (Sorted Qle) (merge_rounds fuel blocks).
Proof.
  induction fuel as [|fuel IH]; intros blocks Hs; [exact Hs|].
  cbn [merge_rounds]. destruct (1 <? length blocks)%nat; [|exact Hs].
  apply IH. now apply (merge_pairs_sorted (length blocks)).
Qed.

Lemma advanced_block_sort_sorted (arr : list Q) :
  returns (_advanced_block_sort env cfg arr) (Sorted Qle).
Proof.
  unfold _advanced_block_sort.
  destruct (length arr <? 1000)%nat.
  - apply returns_ret. apply sort_sorted.
  - eapply returns_bind; [apply returns_any|]. intros blocks _.
    eapply returns_bind; [apply block_sorts_sorted|]. intros rs Hrs.
    apply returns_lift. intros r Hr. apply getitem_ok in Hr.
    pose proof (merge_rounds_sorted (length rs) rs Hrs) as Hm.
    apply list_elem_of_lookup_2, list_elem_of_In in Hr.
    exact (proj1 (List.Forall_forall _ _) Hm _ Hr).
Qed.

End SortedStrategies.

(** ** [StreamProcessor]: chunk sizes of 1000 and more lose nothing *)

Lemma sum_all_equal (v : Q) (l : list Q) :
  Forall (fun y => y == v)%Q l -> (np.sum l == np.len l * v)%Q.
Proof.
  induction 1 as [|y l Hy Hl IH].
  - unfold np.len. simpl. ring.
  - cbv beta in Hy. rewrite sum_cons, IH. unfold np.len. cbn [length].
    rewrite Hy.
    rewrite Nat2Z.inj_succ, <- Z.add_1_r, inject_Z_plus.
    change (inject_Z 1) with 1%Q. ring.
Qed.

Lemma len_positive (l : list Q) : l <> [] -> (0 < np.len l)%Q.
Proof.
  intros H. unfold np.len. change 0%Q with (inject_Z 0).
  rewrite <- Zlt_Qlt. destruct l; [contradiction|simpl; lia].
Qed.

(** The least-squares line through equal values predicts that value. *)
Lemma linear_predict_next_constant (v : Q) (ys : list Q) :
  ys <> [] -> Forall (fun y => y == v)%Q ys ->
  (StreamProcessor.linear_predict_next ys == v)%Q.
Proof.
  intros Hne Hall. unfold StreamProcessor.linear_predict_next. cbv zeta.
  set (xs := map (fun i => inject_Z (Z.of_nat i)) (seq 1 (length ys))).
  set (xbar := (np.sum xs / np.len xs)%Q).
  assert (Hybar : (np.sum ys / np.len ys == v)%Q).
  { rewrite (sum_all_equal v ys Hall). field.
    pose proof (len_positive ys Hne). lra. }
  assert (Hsxy : (np.sum
                    (map (fun '(x, y) =>
                            (x - xbar) * (y - np.sum ys / np.len ys))%Q
                         (combine xs ys)) == 0)%Q).
  { rewrite (sum_all_equal 0).
    - ring.
    - apply List.Forall_forall. intros t Ht.
      apply in_map_iff in Ht as ([x y] & <- & Hxy).
      apply in_combine_r in Hxy.
      pose proof (proj1 (List.Forall_forall _ _) Hall y Hxy) as Hy.
      cbv beta in Hy. rewrite Hybar, Hy. ring. }
  rewrite Hsxy, Hybar. unfold Qdiv. ring.
Qed.

Lemma py_int_of_nat (q : Q) (c : nat) :
  (q == inject_Z (Z.of_nat c))%Q -> py_int q = Z.of_nat c.
Proof.
  intros H. rewrite py_int_nonneg.
  - rewrite (Qfloor_comp _ _ H). apply Qfloor_Z.
  - rewrite H. change 0%Q with (inject_Z 0). rewrite <- Zle_Qle. lia.
Qed.

Lemma update_chunk_size_steady (c : nat) (sp : StreamProcessor.t) :
  (1000 <= c)%nat ->
  Forall (fun n => n = c) (Deque.items (StreamProcessor.chunk_history sp)) ->
  StreamProcessor.chunk_size sp = c ->
  StreamProcessor._update_chunk_size sp = sp.
Proof.
  intros Hc Hhist Hsize. unfold StreamProcessor._update_chunk_size.
  destruct (Deque.len (StreamProcessor.chunk_history sp) <? 2)%nat eqn:E;
    [reflexivity|].
  apply Nat.ltb_ge in E. unfold Deque.len in E.
  set (hist := Deque.items (StreamProcessor.chunk_history sp)) in *.
  rewrite (py_int_of_nat _ c).
  - replace (Z.to_nat (Z.max 1000 (Z.of_nat c))) with c by lia.
    destruct sp as [cs b p l h]. simpl in Hsize. subst cs. reflexivity.
  - apply linear_predict_next_constant.
    + destruct hist; [simpl in E; lia|discriminate].
    + apply List.Forall_forall. intros y Hy.
      apply in_map_iff in Hy as (n & <- & Hn).
      rewrite (proj1 (List.Forall_forall _ _) Hhist n Hn). reflexivity.
Qed.

Lemma deque_append_items {A : Type} (x : A) (d : Deque.deque A) :
  (length (Deque.items d) < Deque.maxlen d)%nat ->
  Deque.append x d = Deque.mk (Deque.maxlen d) (Deque.items d ++ [x]).
Proof.
  intros H. unfold Deque.append.
  destruct (Deque.maxlen d =? 0)%nat eqn:E0;
    [apply Nat.eqb_eq in E0; lia|].
  destruct (Deque.maxlen d <=? length (Deque.items d))%nat eqn:E;
    [apply Nat.leb_le in E; lia|reflexivity].
Qed.

Lemma deque_append_all {A : Type} (P : A -> Prop) (x : A) (d : Deque.deque A) :
  P x -> Forall P (Deque.items d) -> Forall P (Deque.items (Deque.append x d)).
Proof.
  intros Hx Hd. unfold Deque.append.
  destruct (Deque.maxlen d =? 0)%nat; [exact Hd|].
  destruct (Deque.maxlen d <=? length (Deque.items d))%nat; simpl.
  - apply List.Forall_app. split; [|now constructor].
    destruct (Deque.items d); [constructor|]. now inversion Hd.
  - apply List.Forall_app. split; [exact Hd|now constructor].
Qed.

(** One item: the window, if one is emitted, and the buffer afterwards
    hold the buffer before and the item. *)
Lemma feed_steady (c : nat) (item : Q) (sp : StreamProcessor.t) :
  (1000 <= c)%nat -> steady c sp ->
  let '(sp', w) := StreamProcessor.feed item sp in
  steady c sp'
  /\ Permutation
       (concat (StreamProcessor.emit w)
        ++ Deque.items (StreamProcessor.buffer sp'))
       (Deque.items (StreamProcessor.buffer sp) ++ [item])
  /\ Forall (fun window => Sorted Qle window /\ length window = c)
            (StreamProcessor.emit w)
  /\ StreamProcessor.chunks_processed sp'
     = (StreamProcessor.chunks_processed sp
        + length (StreamProcessor.emit w))%nat.
Proof.
  intros Hc (Hsize & Hmax & Hlen & Hhist). unfold StreamProcessor.feed.
  rewrite deque_append_items by lia. unfold Deque.len. cbn [Deque.items].
  rewrite Hsize, length_app. cbn [length].
  destruct (c <=? length (Deque.items (StreamProcessor.buffer sp)) + 1)%nat
    eqn:E.
  - apply Nat.leb_le in E.
    rewrite update_chunk_size_steady with (c := c).
    + cbn -[np.sort]. split; [|split; [|split]].
      * unfold steady. cbn. split; [reflexivity|]. split; [exact Hmax|].
        split; [lia|]. apply deque_append_all; [lia|exact Hhist].
      * rewrite !app_nil_r. apply sort_perm.
      * constructor; [|constructor]. split; [apply sort_sorted|].
        rewrite sort_length, length_app. simpl. lia.
      * lia.
    + exact Hc.
    + cbn [StreamProcessor.chunk_history].
      apply deque_append_all; [lia|exact Hhist].
    + reflexivity.
  - apply Nat.leb_gt in E. cbn. split; [|split; [|split]].
    + unfold steady. cbn. rewrite length_app. simpl.
      repeat split; try assumption; lia.
    + reflexivity.
    + constructor.
    + lia.
Qed.

Lemma process_items_steady (c : nat) (data_stream : list Q) :
  (1000 <= c)%nat ->
  forall sp : StreamProcessor.t,
    steady c sp ->
    let '(sp', ws) := StreamProcessor.process_items data_stream sp in
    steady c sp'
    /\ Permutation
         (concat ws ++ Deque.items (StreamProcessor.buffer sp'))
         (Deque.items (StreamProcessor.buffer sp) ++ data_stream)
    /\ Forall (fun window => Sorted Qle window /\ length window = c) ws
    /\ StreamProcessor.chunks_processed sp'
       = (StreamProcessor.chunks_processed sp + length ws)%nat.
Proof.
  intros Hc. induction data_stream as [|item rest IH]; intros sp Hsp.
  - simpl. rewrite app_nil_r.
    split; [exact Hsp|]. split; [reflexivity|]. split; [constructor|lia].
  - cbn [StreamProcessor.process_items].
    pose proof (feed_steady c item sp Hc Hsp) as Hfeed.
    destruct (StreamProcessor.feed item sp) as [sp1 w].
    destruct Hfeed as (H1 & Hp1 & Hw & Hn1).
    specialize (IH sp1 H1).
    destruct (StreamProcessor.process_items rest sp1) as [sp2 ws].
    destruct IH as (H2 & Hp2 & Hws & Hn2).
    split; [|split; [|split]].
    + exact H2.
    + rewrite concat_app, <- app_assoc, Hp2.
      rewrite app_assoc, Hp1, <- app_assoc. reflexivity.
    + apply List.Forall_app. split; [exact Hw|exact Hws].
    + rewrite length_app. lia.
Qed.

Lemma process_stream_steady (c : nat) (data_stream : list Q)
      (sp : StreamProcessor.t) :
  (1000 <= c)%nat -> steady c sp ->
  let '(sp', ws) := StreamProcessor.process_stream data_stream sp in
  Permutation (concat ws)
              (Deque.items (StreamProcessor.buffer sp) ++ data_stream)
  /\ Forall (Sorted Qle) ws
  /\ StreamProcessor.chunk_size sp' = c
  /\ StreamProcessor.chunks_processed sp'
     = (StreamProcessor.chunks_processed sp + length ws)%nat.
Proof.
  intros Hc Hsp. unfold StreamProcessor.process_stream.
  pose proof (process_items_steady c data_stream Hc sp Hsp) as H.
  destruct (StreamProcessor.process_items data_stream sp) as [sp1 ws].
  destruct H as ((Hsize & _) & Hp & Hws & Hn).
  assert (Hws' : Forall (Sorted Qle) ws).
  { eapply Forall_impl; [exact Hws|]. now intros w [Hw _]. }
  unfold StreamProcessor.finish.
  destruct (Deque.items (StreamProcessor.buffer sp1)) as [|x l] eqn:E.
  - cbn [StreamProcessor.emit]. rewrite !app_nil_r in *.
    split; [exact Hp|]. split; [exact Hws'|]. split; [exact Hsize|exact Hn].
  - cbn -[np.sort]. split; [|split; [|split]].
    + rewrite concat_app. cbn -[np.sort]. rewrite app_nil_r.
      now rewrite sort_perm.
    + apply List.Forall_app. split; [exact Hws'|].
      constructor; [apply sort_sorted|constructor].
    + exact Hsize.
    + rewrite length_app. simpl. lia.
Qed.

Lemma init_steady (c : nat) :
  (1 <= c)%nat -> steady c (StreamProcessor.__init__ c).
Proof.
  intros Hc. unfold steady. simpl.
  split; [reflexivity|]. split; [reflexivity|]. split; [lia|constructor].
Qed.

(** ** [StreamProcessor]: what is left in the buffer *)

(** A stream that does not fill the buffer is kept in it. *)
Lemma process_items_short (data_stream : list Q) :
  forall sp : StreamProcessor.t,
    let b := StreamProcessor.buffer sp in
    (length (Deque.items b) + length data_stream
     < Nat.min (StreamProcessor.chunk_size sp) (Deque.maxlen b))%nat ->
    StreamProcessor.process_items data_stream sp
    = (StreamProcessor.mk (StreamProcessor.chunk_size sp)
                          (Deque.mk (Deque.maxlen b)
                                    (Deque.items b ++ data_stream))
                          (StreamProcessor.chunks_processed sp)
                          (StreamProcessor.last_chunk_size sp)
                          (StreamProcessor.chunk_history sp), []).
Proof.
  induction data_stream as [|item rest IH]; intros sp b Hlen.
  - simpl. rewrite app_nil_r. destruct sp as [cs [m items] p l h]. reflexivity.
  - cbn [StreamProcessor.process_items]. unfold StreamProcessor.feed.
    subst b. simpl in Hlen.
    rewrite deque_append_items by lia. unfold Deque.len. cbn [Deque.items].
    rewrite length_app. cbn [length].
    destruct (_ <=? _)%nat eqn:E; [apply Nat.leb_le in E; lia|].
    rewrite IH.
    + cbn. rewrite <- app_assoc. reflexivity.
    + cbn. rewrite length_app. simpl. lia.
Qed.

(** ** [_get_bucket_distribution] *)







Lemma filter_length_lt {A : Type} (f : A -> bool) (l : list A) (x : A) :
  In x l -> f x = false -> (length (List.filter f l) < length l)%nat.
Proof.
  induction l as [|y l IH]; intros Hin Hf; [destruct Hin|].
  cbn [List.filter length].
  pose proof (List.filter_length_le f l) as Hle.
  destruct Hin as [->|Hin].
  - rewrite Hf. lia.
  - specialize (IH Hin Hf). destruct (f y); simpl; lia.
Qed.

Lemma below_shorter (a : Q) (rest : list Q) :
  (length (below (foldl np.Qmax a rest) (a :: rest))
   < length (a :: rest))%nat.
Proof.
  destruct (min_max_bounds a rest) as (_ & Hhi & _). cbv zeta in Hhi.
  unfold below, np.select.
  apply filter_length_lt with (foldl np.Qmax a rest); [exact Hhi|].
  apply Qltb_false, Qle_refl.
Qed.

(** ** The choice of the strategy *)

Lemma predict_strategy_range (env : Env) (cfg : Config) (arr : list Q) :
  use_ml_prediction cfg = true ->
  returns (_predict_strategy env cfg arr)
          (fun st => In st predicted_strategies).
Proof.
  intros Hml. unfold _predict_strategy. rewrite Hml. cbn [negb].
  eapply returns_bind; [apply returns_any|]. intros sample _.
  eapply returns_bind; [apply returns_any|]. intros range_size _.
  unfold predicted_strategies.
  destruct (ml_predict env sample (length arr)) as [|[|[|[|[|[|n]]]]]];
    apply returns_ret; simpl; tauto.
Qed.

Lemma choose_optimal_strategy_range (env : Env) (cfg : Config)
      (arr : list Q) :
  returns (_choose_optimal_strategy env cfg arr)
          (fun st => In st rule_strategies
                     /\ (st = EXTERNAL_SORT ->
                         external_sort_threshold cfg
                         < Z.of_nat (length arr))).
Proof.
  unfold _choose_optimal_strategy.
  eapply returns_bind; [apply returns_any|]. intros sample _.
  eapply returns_bind; [apply returns_any|]. intros range_size _.
  unfold rule_strategies.
  repeat match goal with
         | |- returns (if ?c then _ else _) _ =>
           let E := fresh "E" in destruct c eqn:E
         end;
    apply returns_ret; (split; [simpl; tauto|]); try discriminate.
  intros _. now apply Z.ltb_lt.
Qed.

(** ** [sort] never lets an exception out *)

Lemma sort_failed_spec (env : Env) (x : sort_input) (e : exn) (s : State) :
  sort_failed env x e s
  = (inr (WithStats (original_arr x s)
                    (failed_stats (length (original_arr x s)))), s).
Proof. destruct x; reflexivity. Qed.

Lemma random_sample_empty (env : Env) (s : State) :
  (exists e s', random_sample env [] 0 s = (inl e, s'))
  \/ (exists s', random_sample env [] 0 s = (inr [], s')).
Proof.
  unfold random_sample. cbn [length Nat.eqb Nat.ltb Nat.leb andb orb negb].
  destruct (choice env (rng_calls s) 0 0) as [|i l]; simpl.
  - right. eexists. reflexivity.
  - left. eexists _, _. reflexivity.
Qed.

Lemma select_strategy_empty (env : Env) (cfg : Config) (s : State) :
  0 <= external_sort_threshold cfg ->
  use_ml_prediction cfg = true \/ strategy cfg = AUTO ->
  exists e s', select_strategy env cfg [] s = (inl e, s').
Proof.
  intros Hthr Hauto. unfold select_strategy.
  replace (external_sort_threshold cfg <? Z.of_nat (length (@nil Q)))
    with false by (symmetry; apply Z.ltb_ge; simpl; lia).
  assert (Hp : exists e s', _choose_optimal_strategy env cfg [] s = (inl e, s')).
  { unfold _choose_optimal_strategy. cbn [length Nat.min].
    unfold bind at 1.
    destruct (random_sample_empty env s) as [(e & s' & ->)|(s' & ->)].
    - now exists e, s'.
    - unfold bind, lift. simpl. now exists ValueError, s'. }
  assert (Hq : use_ml_prediction cfg = true ->
               exists e s', _predict_strategy env cfg [] s = (inl e, s')).
  { intros Hml. unfold _predict_strategy. rewrite Hml. cbn [negb length Nat.min].
    unfold bind at 1.
    destruct (random_sample_empty env s) as [(e & s' & ->)|(s' & ->)].
    - now exists e, s'.
    - unfold bind, lift. simpl. now exists ValueError, s'. }
  destruct (use_ml_prediction cfg) eqn:Eml; [now apply Hq|].
  destruct Hauto as [Hml| ->]; [discriminate|]. exact Hp.
Qed.

(** ** What passes the verification *)

Section Verification.

Variable env : Env.
Variable cfg : Config.

Lemma dispatch_sorted (st : SortStrategy) (dt : dtype) (arr : list Q)
      (s s' : State) (r : SortResult) :
  dispatch env cfg st dt arr s = (inr (Computed r), s') ->
  st <> RADIX_SORT -> st <> COMPRESSION_SORT ->
  (st = EXTERNAL_SORT -> dt = Float64) ->
  Sorted Qle (result_array r).
Proof.
  intros H Hr Hc Hdt.
  assert (Hpar : forall d,
             (let* (r, stats) := _parallel_sort env cfg arr in
              ret (Computed (WithStats r stats))) s = (inr (Computed d), s') ->
             Sorted Qle (result_array d)).
  { intros d Hd. apply bind_ok in Hd as ([r0 stats] & s1 & Hp & Hd).
    apply ret_ok in Hd as [Hd _]. injection Hd as ->.
    exact (parallel_sort_sorted env cfg arr _ _ _ Hp). }
  destruct st; cbn [dispatch] in H; try contradiction;
    try (exact (Hpar r H)).
  - (* MEMORY_EFFICIENT *)
    apply bind_ok in H as ([r0 stats] & s1 & Hm & H).
    apply ret_ok in H as [H _]. injection H as ->.
    destruct (memory_efficient_sort_spec env cfg _ _ _ _ Hm) as (_ & Hnil & _).
    simpl in Hnil. subst r0. simpl. constructor.
  - (* HYBRID *)
    apply bind_ok in H as (r0 & s1 & Hh & H).
    apply lift_ok in Hh as [Hh ->].
    apply bind_ok in H as (stats & s1 & _ & H).
    apply ret_ok in H as [H _]. injection H as ->.
    exact (hybrid_sort_sorted _ _ Hh).
  - (* ADAPTIVE *)
    apply bind_ok in H as ([r0 stats] & s1 & Ha & H).
    apply ret_ok in H as [H _]. injection H as ->.
    exact (adaptive_sort_sorted env cfg arr _ _ _ Ha).
  - (* STREAM *)
    apply bind_ok in H as ([r0 stats] & s1 & _ & H).
    apply ret_ok in H as [H _]. discriminate.
  - (* BLOCK_SORT *)
    apply bind_ok in H as (r0 & s1 & Hb & H).
    apply ret_ok in H as [H _]. injection H as ->.
    exact (advanced_block_sort_sorted env cfg arr _ _ _ Hb).
  - (* BUCKET_SORT *)
    apply bind_ok in H as (r0 & s1 & Hb & H).
    apply ret_ok in H as [H _]. injection H as ->.
    exact (bucket_sort_sorted env arr _ _ _ Hb).
  - (* EXTERNAL_SORT *)
    apply bind_ok in H as (stats & s1 & _ & H).
    apply ret_ok in H as [H _]. injection H as ->.
    rewrite (Hdt eq_refl). apply external_sort_sorted.
Qed.

End Verification.

(** ** [AdaptiveCache] under writes of distinct keys *)

Section CacheFifo.

Context {V : Type}.

Lemma put_fifo (m : nat) (l : list (key * V)) (k : key) (v : V)
      (c : AdaptiveCache.t V) :
  (1 <= m)%nat -> holds_fifo m l c -> NoDup l.*1 -> (length l <= m)%nat ->
  k ∉ l.*1 ->
  exists c' : AdaptiveCache.t V,
    AdaptiveCache.put k v c = inr c'
    /\ holds_fifo m (drop (length l + 1 - m) (l ++ [(k, v)])) c'.
Proof.
  intros Hm (Hsize & Hmax & Hitems & Hcache) Hnd Hlen Hk.
  unfold AdaptiveCache.put, dict_len.
  rewrite Hcache, map_size_list_to_map by exact Hnd. rewrite Hsize.
  destruct (m <=? length l)%nat eqn:E.
  - apply Nat.leb_le in E.
    destruct l as [|[o vo] l0]; [simpl in E; lia|].
    unfold Deque.popleft. rewrite Hitems. cbn [fmap list_fmap fst].
    cbn [rbind raise ok].
    eexists. split; [reflexivity|].
    assert (Ho : o ∉ l0.*1).
    { cbn [fmap list_fmap fst] in Hnd. now apply NoDup_cons in Hnd. }
    assert (Hk0 : k ∉ l0.*1).
    { cbn [fmap list_fmap fst] in Hk. intros Hin. apply Hk. now right. }
    replace (length ((o, vo) :: l0) + 1 - m)%nat with 1%nat
      by (simpl in *; lia).
    cbn [app drop].
    unfold holds_fifo. cbn. rewrite ?Hsize, ?Hmax. split; [reflexivity|].
    split; [rewrite deque_append_maxlen; cbn; now rewrite ?Hmax|]. split.
    + rewrite deque_append_items
        by (cbn; rewrite length_fmap; simpl in *; lia).
      cbn [Deque.items Deque.maxlen]. now rewrite drop_0, fmap_app.
    + rewrite drop_0, list_to_map_snoc by exact Hk0.
      rewrite delete_insert_eq.
      rewrite delete_id by (now apply not_elem_of_list_to_map_1).
      reflexivity.
  - apply Nat.leb_gt in E. cbn [rbind raise ok].
    eexists. split; [reflexivity|].
    replace (length l + 1 - m)%nat with 0%nat by lia. rewrite drop_0.
    unfold holds_fifo.
    cbn [AdaptiveCache.size AdaptiveCache._access_history
         AdaptiveCache.cache].
    rewrite ?Hsize. split; [reflexivity|].
    rewrite deque_append_items by (rewrite Hitems, length_fmap; lia).
    cbn [Deque.maxlen Deque.items]. split; [exact Hmax|]. split.
    + now rewrite Hitems, fmap_app.
    + now rewrite list_to_map_snoc by exact Hk.
Qed.

Lemma put_all_fifo (m : nat) (kvs : list (key * V)) :
  (1 <= m)%nat ->
  forall (l : list (key * V)) (c : AdaptiveCache.t V),
    holds_fifo m l c -> NoDup (l ++ kvs).*1 -> (length l <= m)%nat ->
    exists c' : AdaptiveCache.t V,
      put_all kvs c = inr c'
      /\ holds_fifo m (drop (length (l ++ kvs) - m) (l ++ kvs)) c'.
Proof.
  intros Hm. induction kvs as [|[k v] rest IH]; intros l c Hc Hnd Hlen.
  - exists c. split; [reflexivity|]. rewrite app_nil_r.
    replace (length l - m)%nat with 0%nat by lia. exact Hc.
  - assert (Hsplit : l ++ (k, v) :: rest = (l ++ [(k, v)]) ++ rest)
      by (now rewrite <- app_assoc).
    rewrite Hsplit in Hnd |- *.
    rewrite fmap_app in Hnd. apply NoDup_app in Hnd as (Hnd1 & Hdis & Hnd2).
    pose proof Hnd1 as HndL.
    rewrite fmap_app in Hnd1. apply NoDup_app in Hnd1 as (Hl & Hlk & _).
    assert (Hk : k ∉ l.*1).
    { intros Hin. apply (Hlk k Hin). cbn. now left. }
    destruct (put_fifo m l k v c Hm Hc Hl Hlen Hk) as (c1 & Hput & Hc1).
    cbn [put_all]. rewrite Hput. cbn [rbind].
    set (d := (length l + 1 - m)%nat) in *.
    set (L := l ++ [(k, v)]) in *.
    assert (HL : length L = (length l + 1)%nat)
      by (unfold L; rewrite length_app; reflexivity).
    destruct (IH (drop d L) c1 Hc1) as (c' & Hall & Hc').
    + rewrite fmap_app. apply NoDup_app. split; [|split].
      * rewrite fmap_drop. fold L in HndL.
        rewrite <- (take_drop d (L.*1)) in HndL.
        now apply NoDup_app in HndL as (_ & _ & HndD).
      * intros x Hx. apply Hdis. rewrite fmap_drop in Hx.
        rewrite <- (take_drop d (L.*1)). apply elem_of_app. now right.
      * exact Hnd2.
    + rewrite length_drop. lia.
    + exists c'. split; [exact Hall|].
      replace (drop (length (L ++ rest) - m) (L ++ rest))
        with (drop (length (drop d L ++ rest) - m) (drop d L ++ rest));
        [exact Hc'|].
      rewrite <- (drop_app_le L rest d) by lia.
      rewrite drop_drop. f_equal.
      rewrite length_drop, !length_app. lia.
Qed.

End CacheFifo.

(** ** [BlockManager] *)

Lemma merge_blocks_fold (blocks : list (list Q)) :
  forall (pre : list Q) (z : nat),
    (length (concat blocks) <= z)%nat ->
    fst (foldl (fun '(result_, pos) block =>
                  (Pure.write_slice pos block result_,
                   (pos + length block)%nat))
               (pre ++ repeat 0%Q z, length pre) blocks)
    = pre ++ concat blocks ++ repeat 0%Q (z - length (concat blocks)).
Proof.
  induction blocks as [|b blocks IH]; intros pre z Hz.
  - simpl. now rewrite Nat.sub_0_r.
  - cbn [foldl concat]. cbn [concat] in Hz. rewrite length_app in Hz.
    replace z with (length b + (z - length b))%nat at 1 by lia.
    rewrite repeat_app.
    rewrite (write_slice_middle pre (repeat 0%Q (length b)) _ b)
      by (now rewrite repeat_length).
    replace (pre ++ b ++ repeat 0%Q (z - length b))
      with ((pre ++ b) ++ repeat 0%Q (z - length b))
      by (now rewrite <- app_assoc).
    replace (length pre + length b)%nat with (length (pre ++ b))
      by (now rewrite length_app).
    rewrite IH by lia.
    rewrite <- !app_assoc, length_app. f_equal. f_equal. f_equal. f_equal. lia.
Qed.

Lemma merge_blocks_concat (blocks : list (list Q)) :
  Pure.merge_blocks blocks = concat blocks.
Proof.
  unfold Pure.merge_blocks. destruct blocks as [|b blocks]; [reflexivity|].
  pose proof (merge_blocks_fold (b :: blocks) [] _ (le_n _)) as H.
  rewrite Nat.sub_diag in H. cbn [repeat] in H. rewrite app_nil_r in H.
  exact H.
Qed.

Lemma split_sizes_lengths {A : Type} (sizes : list nat) :
  forall a : list A,
    (list_sum sizes <= length a)%nat ->
    map (@length A) (np.split_sizes sizes a) = sizes.
Proof.
  induction sizes as [|n sizes IH]; intros a Ha; [reflexivity|].
  change (list_sum (n :: sizes)) with (n + list_sum sizes)%nat in Ha.
  cbn [np.split_sizes map]. rewrite length_take, IH.
  - f_equal. lia.
  - rewrite length_drop. lia.
Qed.

Lemma array_split_lengths {A : Type} (a : list A) (k : nat)
      (sections : list (list A)) :
  np.array_split a k = ok sections ->
  length sections = k
  /\ Forall (fun b => length b = (length a / k)%nat
                      \/ (length b = S (length a / k)
                          /\ (0 < length a mod k)%nat))
            sections.
Proof.
  unfold np.array_split. destruct k as [|k]; [discriminate|].
  intros H. unfold ok in H.
  set (each := (length a / S k)%nat) in *.
  set (extras := (length a mod S k)%nat) in *.
  set (sizes := repeat (S each) extras ++ repeat each (S k - extras)) in *.
  assert (Hsec : sections = np.split_sizes sizes a) by congruence.
  clear H. subst sections.
  pose proof (Nat.div_mod_eq (length a) (S k)) as Hdm.
  pose proof (Nat.mod_upper_bound (length a) (S k) ltac:(lia)) as Hmod.
  fold each extras in Hdm, Hmod.
  assert (Hsum : list_sum sizes = length a).
  { unfold sizes. rewrite list_sum_app, !list_sum_repeat. nia. }
  pose proof (split_sizes_lengths sizes a ltac:(lia)) as Hlens.
  split.
  - pose proof (f_equal (@length nat) Hlens) as Hl.
    rewrite List.length_map in Hl. rewrite Hl. unfold sizes.
    rewrite length_app, !repeat_length. lia.
  - apply List.Forall_forall. intros b Hb.
    assert (Hin : In (length b) sizes).
    { rewrite <- Hlens. now apply in_map. }
    unfold sizes in Hin. apply in_app_or in Hin as [Hin|Hin].
    + right. split; [now apply repeat_spec in Hin|].
      destruct extras; [destruct Hin|lia].
    + left. now apply repeat_spec in Hin.
Qed.

(** ** The pivot tree *)

Lemma ascending_app (l1 l2 : list (list Q)) :
  ascending_parts l1 -> ascending_parts l2 ->
  (forall x y : Q, In x (concat l1) -> In y (concat l2) -> (x < y)%Q) ->
  ascending_parts (l1 ++ l2).
Proof.
  induction l1 as [|p l1 IH]; intros H1 H2 H12; [exact H2|].
  destruct H1 as [Hp H1]. cbn [app ascending_parts]. split.
  - intros x y Hx Hy. rewrite concat_app in Hy.
    apply in_app_or in Hy as [Hy|Hy].
    + now apply Hp.
    + apply H12; [|exact Hy]. cbn [concat]. apply in_or_app. now left.
  - apply IH; [exact H1|exact H2|].
    intros x y Hx Hy. apply H12; [|exact Hy].
    cbn [concat]. apply in_or_app. now right.
Qed.

Lemma ascending_filter (f : list Q -> bool) (parts : list (list Q)) :
  ascending_parts parts -> ascending_parts (List.filter f parts).
Proof.
  induction parts as [|p parts IH]; intros H; [exact I|].
  destruct H as [Hp H]. cbn [List.filter].
  assert (Hsub : forall y, In y (concat (List.filter f parts)) ->
                           In y (concat parts)).
  { intros y Hy. apply in_concat in Hy as (q & Hq & Hy).
    apply filter_In in Hq as [Hq _]. apply in_concat. now exists q. }
  destruct (f p).
  - split; [|now apply IH]. intros x y Hx Hy. apply Hp; [exact Hx|now apply Hsub].
  - now apply IH.
Qed.

Lemma recursive_partition_ascending (fuel : nat) :
  forall (arr : list Q) (depth : nat),
    ascending_parts (Algo._recursive_partition fuel arr depth).
Proof.
  induction fuel as [|fuel IH]; intros arr depth; cbn [Algo._recursive_partition].
  - destruct (_ || _); simpl; split; try exact I; intros x y _ [].
  - destruct ((length arr <=? 100)%nat || (10 <? depth)%nat) eqn:E.
    + simpl. split; [intros x y _ []|exact I].
    + apply orb_false_iff in E as [E _]. apply Nat.leb_gt in E.
      destruct (ninther_finite_in arr ltac:(lia)) as (q & -> & _).
      pose proof (three_way_bounds arr q) as Hb.
      destruct (Algo.three_way arr (Finite q)) as [[left_ middle] right_].
      destruct Hb as (Fl & Fm & Fr).
      pose proof (proj1 (List.Forall_forall _ _) Fl) as Gl.
      pose proof (proj1 (List.Forall_forall _ _) Fm) as Gm.
      pose proof (proj1 (List.Forall_forall _ _) Fr) as Gr.
      assert (Hleft : forall x,
                 In x (concat (Algo._recursive_partition fuel left_ (depth + 1)))
                 -> (x < q)%Q).
      { intros x Hx. apply Gl.
        exact (Permutation_in _ (recursive_partition_perm _ _ _) Hx). }
      assert (Hright : forall y,
                 In y (concat (Algo._recursive_partition fuel right_ (depth + 1)))
                 -> (q < y)%Q).
      { intros y Hy. apply Gr.
        exact (Permutation_in _ (recursive_partition_perm _ _ _) Hy). }
      apply ascending_app; [apply IH| |].
      * cbn [app ascending_parts]. split; [|apply IH].
        intros x y Hx Hy. specialize (Gm x Hx). specialize (Hright y Hy).
        cbv beta in Gm. lra.
      * intros x y Hx Hy. specialize (Hleft x Hx).
        cbn [app concat] in Hy. apply in_app_or in Hy as [Hy|Hy].
        -- specialize (Gm y Hy). cbv beta in Gm. lra.
        -- specialize (Hright y Hy). lra.
Qed.

Lemma ascending_sorted (parts : list (list Q)) :
  ascending_parts parts -> StronglySorted Qle (concat (map np.sort parts)).
Proof.
  induction parts as [|p parts IH]; intros H; [constructor|].
  destruct H as [Hp H]. cbn [map concat].
  apply strongly_sorted_app.
  - apply Sorted_StronglySorted; [exact Qle_trans_|apply sort_sorted].
  - now apply IH.
  - intros x y Hx Hy.
    apply (Permutation_in _ (sort_perm p)) in Hx.
    apply (Permutation_in _ (concat_map_sort_perm parts)) in Hy.
    apply Qlt_le_weak. now apply Hp.
Qed.

Lemma filter_nonempty_parts (parts : list (list Q)) :
  Forall (fun part => part <> [])
         (List.filter (fun part => (0 <? length part)%nat) parts).
Proof.
  apply List.Forall_forall. intros p Hp. apply filter_In in Hp as [_ Hp].
  destruct p; [discriminate|discriminate].
Qed.

(** ** [BlockManager]: the size of the blocks *)

Lemma block_size_bounds (n bs len : nat) :
  (1 <= bs)%nat -> (bs <= n)%nat ->
  let k := (n / bs)%nat in
  len = (n / k)%nat \/ (len = S (n / k) /\ (0 < n mod k)%nat) ->
  (bs <= len < 2 * bs)%nat.
Proof.
  intros Hbs Hn k Hlen.
  assert (Hk : (1 <= k)%nat) by (apply Nat.div_le_lower_bound; lia).
  pose proof (Nat.div_mod_eq n bs) as H1.
  pose proof (Nat.mod_upper_bound n bs ltac:(lia)) as H2.
  fold k in H1.
  pose proof (Nat.div_mod_eq n k) as H3.
  pose proof (Nat.mod_upper_bound n k ltac:(lia)) as H4.
  set (each := (n / k)%nat) in *. set (extras := (n mod k)%nat) in *.
  set (r := (n mod bs)%nat) in *.
  assert (Hlow : (bs <= each)%nat).
  { destruct (Nat.lt_ge_cases each bs) as [Hlt|Hge]; [|exact Hge]. nia. }
  destruct Hlen as [->|[-> Hex]].
  - split; [exact Hlow|].
    destruct (Nat.lt_ge_cases each (2 * bs)) as [Hlt|Hge]; [exact Hlt|]. nia.
  - split; [lia|].
    destruct (Nat.lt_ge_cases (S each) (2 * bs)) as [Hlt|Hge]; [exact Hlt|].
    exfalso.
    assert (Hk2 : (2 <= k)%nat).
    { destruct (Nat.eq_dec k 1%nat) as [Hk1|Hk1]; [|lia].
      unfold extras in Hex. rewrite Hk1 in Hex. simpl in Hex. lia. }
    nia.
Qed.

(** ** [_radix_sort] at its edges *)

Lemma radix_condition_true (max_val : Q) :
  (1 <= max_val)%Q -> (0 <? Qfloor (max_val / inject_Z 1)) = true.
Proof.
  intros H. apply Z.ltb_lt.
  assert (H1 : (1 <= max_val / inject_Z 1)%Q).
  { change (inject_Z 1) with 1%Q. unfold Qdiv.
    change (/ 1)%Q with 1%Q. rewrite Qmult_1_r. exact H. }
  pose proof (Qfloor_resp_le _ _ H1) as Hf.
  change (Qfloor 1) with 1 in Hf. lia.
Qed.

(** * Further properties of the algorithm library *)

(** X1.  [_insertion_sort] cannot be called: the method is compiled
    by [numba.jit(nopython=True)] with [self] among its arguments, so
    every call [self._insertion_sort(arr)] raises [TypingError],
    whatever the array.  The function under the decorator is a correct
    insertion sort: run on an array, it leaves the array in
    non-decreasing order with exactly the elements it had. *)
Theorem insertion_sort_raises_typing_error (arr : list Q) :
  Algo._insertion_sort arr = raise TypingError
  /\ Sorted Qle (Algo._insertion_sort_py_func arr)
  /\ Permutation (Algo._insertion_sort_py_func arr) arr
  /\ length (Algo._insertion_sort_py_func arr) = length arr.
Proof.
  destruct (insertion_sort_correct arr) as [Hp Hs].
  split; [reflexivity|]. split; [exact Hs|]. split; [exact Hp|].
  now apply Permutation_length.
Qed.

(** X2.  [_heapsort] leaves the array it is given in non-decreasing
    order, with exactly the elements it had: the first loop builds a
    max-heap, the second moves the root behind the heap and restores
    the heap on what is left. *)
Theorem heapsort_sorts (arr : list Q) :
  Sorted Qle (Algo._heapsort arr)
  /\ Permutation (Algo._heapsort arr) arr
  /\ length (Algo._heapsort arr) = length arr.
Proof.
  pose proof (heapsort_perm arr) as Hp.
  split; [apply heapsort_sorted|]. split; [exact Hp|].
  now apply Permutation_length.
Qed.

(** X3.  [_quicksort] raises [TypingError] on every array.  An array
    of at most 16 elements goes to [_insertion_sort], which raises; a
    longer one is split around the ninther pivot, an element of the
    array, so the part to the left is strictly shorter, and the call
    on it, the first to be made, raises.  No amount of recursion
    changes this. *)
Theorem quicksort_raises_typing_error (arr : list Q) :
  Algo._quicksort arr = raise TypingError
  /\ forall fuel : nat,
      (length arr <= fuel)%nat ->
      Algo.quicksort_rec fuel arr = raise TypingError.
Proof.
  split; [apply quicksort_raises|].
  intros fuel Hfuel. apply quicksort_rec_raises. lia.
Qed.

Lemma quicksort_raises_typing_error_witness :
  Algo.quicksort_rec 20 (arange 20) = raise TypingError.
Proof.
  apply (quicksort_raises_typing_error (arange 20)).
  unfold arange. rewrite length_map, length_seq. apply le_n.
Defined.

(** X4.  [_introsort] without a depth never returns: on an empty array
    it raises [ValueError] ([math.log2(0)]), on every other array
    [TypingError].  The depth it starts with, [2 * int(log2(n))],
    leaves room for [2 ^ depth] parts of more than 16 elements side by
    side, which [n] elements cannot fill: some part of at most 16
    elements is reached above depth 0 and handed to [_insertion_sort],
    whatever [_heapsort] has sorted to its left before.  With an
    explicit depth the same holds for every array of fewer than
    [17 * 2 ^ depth] elements. *)
Theorem introsort_never_returns (arr : list Q) :
  Algo._introsort arr
  = raise (match arr with [] => ValueError | _ => TypingError end)
  /\ forall max_depth : nat,
      (length arr < 17 * 2 ^ max_depth)%nat ->
      Algo.introsort_rec max_depth arr = raise TypingError.
Proof.
  split; [|intros d; apply introsort_rec_raises].
  destruct arr as [|x arr]; [reflexivity|].
  now apply introsort_raises.
Qed.

Lemma introsort_never_returns_witness :
  Algo.introsort_rec 1 (arange 30) = raise TypingError.
Proof.
  apply (introsort_never_returns (arange 30)).
  unfold arange. rewrite length_map, length_seq. simpl. lia.
Defined.

(** X5.  [_merge_sorted_arrays] applied to non-decreasing arrays
    returns one non-decreasing array that holds every element of every
    array: the heap hands out an entry of least value, and what follows
    it in its array is no smaller. *)
Theorem merge_sorted_arrays_merges (arrays : list (list Q)) :
  Forall (Sorted Qle) arrays ->
  Sorted Qle (Pure._merge_sorted_arrays arrays)
  /\ Permutation (Pure._merge_sorted_arrays arrays) (concat arrays)
  /\ length (Pure._merge_sorted_arrays arrays)
     = list_sum (map (@length Q) arrays).
Proof.
  intros Hs. pose proof (merge_sorted_arrays_perm arrays) as Hp.
  split; [now apply merge_sorted_arrays_sorted_|]. split; [exact Hp|].
  rewrite (Permutation_length Hp).
  clear. induction arrays as [|a arrays IH]; [reflexivity|].
  cbn [concat map]. rewrite length_app, IH. reflexivity.
Qed.

Lemma merge_sorted_arrays_merges_witness :
  Pure._merge_sorted_arrays [[1; 4; 6]; []; [2; 3; 7]; [5]]%Q
  = [1; 2; 3; 4; 5; 6; 7]%Q
  /\ Sorted Qle (Pure._merge_sorted_arrays [[1; 4; 6]; []; [2; 3; 7]; [5]]%Q).
Proof.
  split; [vm_compute; reflexivity|].
  apply (merge_sorted_arrays_merges [[1; 4; 6]; []; [2; 3; 7]; [5]]%Q).
  repeat constructor; vm_compute; discriminate.
Defined.

(** X6.  The partitions of [_pivot_tree_partition], concatenated, are
    a permutation of the array; they come in ascending order (every
    value of a partition is below every value of a later one), so
    sorting each and concatenating sorts the array; and from 101
    elements on none of them is empty. *)
Theorem pivot_tree_partitions_ascend (arr : list Q) :
  let parts := Algo._pivot_tree_partition arr in
  Permutation (concat parts) arr
  /\ ascending_parts parts
  /\ Sorted Qle (concat (map np.sort parts))
  /\ ((100 < length arr)%nat -> Forall (fun part => part <> []) parts).
Proof.
  cbv zeta.
  assert (Hasc : ascending_parts (Algo._pivot_tree_partition arr)).
  { unfold Algo._pivot_tree_partition.
    destruct (length arr <=? 100)%nat.
    - simpl. split; [intros x y _ []|exact I].
    - apply ascending_filter, recursive_partition_ascending. }
  split; [apply pivot_tree_partition_perm|]. split; [exact Hasc|].
  split; [now apply StronglySorted_Sorted, ascending_sorted|].
  intros Hlen. unfold Algo._pivot_tree_partition.
  destruct (length arr <=? 100)%nat eqn:E; [apply Nat.leb_le in E; lia|].
  apply filter_nonempty_parts.
Qed.

Lemma pivot_tree_partitions_ascend_witness :
  Forall (fun part => part <> [])
         (Algo._pivot_tree_partition (arange 101)).
Proof.
  apply (pivot_tree_partitions_ascend (arange 101)).
  unfold arange. rewrite length_map, length_seq. apply le_n.
Defined.

(** X7.  [_radix_sort] at its edges.  An array whose maximum is below
    1 (fractions, or nothing but negative values) is returned as it
    is, unsorted: the loop [while max_val // exp > 0] is not entered.
    A [float64] array whose maximum is at least 1 raises [TypeError]:
    the digit [(x // exp) % 10] is a float and cannot index the list
    of buckets. *)
Theorem radix_sort_edges (dt : dtype) (arr : list Q) (max_val : Q) :
  np.max arr = ok max_val ->
  ((max_val < 1)%Q -> _radix_sort dt arr = ok arr)
  /\ ((1 <= max_val)%Q -> _radix_sort Float64 arr = raise TypeError).
Proof.
  intros Hmax. destruct arr as [|a rest]; [discriminate|].
  unfold _radix_sort. rewrite Hmax. cbn [rbind ok].
  unfold radix_fuel. cbn [radix_loop]. split; intros H.
  - now rewrite (radix_condition_false max_val 1 ltac:(lia) H).
  - now rewrite (radix_condition_true max_val H).
Qed.

Lemma radix_sort_edges_witness :
  _radix_sort Int64 [-3; -1; -2]%Q = ok [-3; -1; -2]%Q
  /\ _radix_sort Float64 [3; 1; 2]%Q = raise TypeError.
Proof.
  split.
  - apply (radix_sort_edges Int64 [-3; -1; -2]%Q (-1)%Q);
      vm_compute; reflexivity.
  - apply (radix_sort_edges Float64 [3; 1; 2]%Q 3%Q);
      [vm_compute; reflexivity|vm_compute; discriminate].
Defined.

(** * Further properties of the strategies *)

(** X8.  Whenever [_bucket_sort] returns, what it returns is the
    array in non-decreasing order with exactly its elements, and the
    input array is as it was: the bucket index grows with the value.
    It does not always return.  When the range [max - min] of the
    array overflows [float64] (two elements [2 ^ 1024 - 2 ^ 970] apart
    or more), the width of a bucket is [inf] and the index of the
    maximum is [int(nan)]: with a bucket count of at least 1,
    [_bucket_sort] raises [ValueError]. *)
Theorem bucket_sort_sorts_or_overflows (env : Env) (arr : list Q)
        (s : State) :
  (forall (r : list Q) (s' : State),
      _bucket_sort env arr s = (inr r, s') ->
      Sorted Qle r /\ Permutation r arr
      /\ input_array s' = input_array s)
  /\ (forall (n_buckets : nat) (s1 : State) (lo hi : Q),
         _optimize_bucket_count env arr s = (inr n_buckets, s1) ->
         (1 <= n_buckets)%nat ->
         np.min arr = ok lo -> np.max arr = ok hi ->
         float64_overflows (hi - lo) = true ->
         _bucket_sort env arr s = (inl ValueError, s1)).
Proof.
  split.
  - intros r s' H.
    split; [exact (bucket_sort_sorted env arr s r s' H)|].
    split; [exact (bucket_sort_perm env arr s r s' H)|].
    exact (preserves_ok _ _ _ _ (preserves_bucket_sort env arr) H).
  - intros n_buckets s1 lo hi Hcount Hn Hlo Hhi Ho.
    destruct arr as [|a rest]; [discriminate|].
    cbn [np.min np.max] in Hlo, Hhi. unfold ok in Hlo, Hhi.
    injection Hlo as <-. injection Hhi as <-.
    assert (E : Qeqb (foldl np.Qmin a rest) (foldl np.Qmax a rest) = false).
    { destruct (Qeqb _ _) eqn:E; [|reflexivity].
      apply Qeqb_true in E. unfold float64_overflows in Ho.
      apply Qleb_true in Ho. rewrite <- E in Ho.
      assert (0 < float64_overflow)%Q by (vm_compute; reflexivity).
      lra. }
    destruct (min_max_bounds a rest) as (_ & Hmax & _). cbv zeta in Hmax.
    unfold _bucket_sort. cbn [np.min np.max]. unfold bind, lift, ok.
    rewrite Hcount, E, Ho.
    rewrite (fill_buckets_inf_value_error n_buckets _ (a :: rest) _
               Hn Hmax Ho) by apply repeat_length.
    reflexivity.
Qed.

Lemma bucket_sort_sorts_or_overflows_witness :
  let env := example_env (fun _ => 0%nat) 0 in
  let s := __init__ (forced BUCKET_SORT None false 10000) in
  let huge := inject_Z (2 ^ 1023) in
  (exists r : list Q,
      _bucket_sort env [5; 3; 9; 1; 7; 3; 8; 2; 6; 4; 0; 5]%Q s = (inr r, s)
      /\ Sorted Qle r
      /\ Permutation r [5; 3; 9; 1; 7; 3; 8; 2; 6; 4; 0; 5]%Q)
  /\ _bucket_sort env [(- huge)%Q; 0%Q; huge] s = (inl ValueError, s).
Proof.
  cbv zeta. split.
  - destruct (_bucket_sort (example_env (fun _ => 0%nat) 0)
                           [5; 3; 9; 1; 7; 3; 8; 2; 6; 4; 0; 5]%Q
                           (__init__ (forced BUCKET_SORT None false 10000)))
      as [[e|r] s'] eqn:E; [vm_compute in E; discriminate|].
    assert (Hs : s' = __init__ (forced BUCKET_SORT None false 10000)).
    { vm_compute in E. now injection E as _ <-. }
    subst s'. exists r. split; [reflexivity|].
    destruct (proj1 (bucket_sort_sorts_or_overflows
                       (example_env (fun _ => 0%nat) 0)
                       [5; 3; 9; 1; 7; 3; 8; 2; 6; 4; 0; 5]%Q
                       (__init__ (forced BUCKET_SORT None false 10000)))
                    r _ E) as (Hs & Hp & _).
    split; [exact Hs|exact Hp].
  - apply (proj2 (bucket_sort_sorts_or_overflows
                    (example_env (fun _ => 0%nat) 0)
                    [(- inject_Z (2 ^ 1023))%Q; 0%Q; inject_Z (2 ^ 1023)]
                    (__init__ (forced BUCKET_SORT None false 10000)))
                 1%nat _ (- inject_Z (2 ^ 1023))%Q (inject_Z (2 ^ 1023))).
    + reflexivity.
    + apply le_n.
    + vm_compute. reflexivity.
    + vm_compute. reflexivity.
    + vm_compute. reflexivity.
Defined.

(** X9.  For a [float64] array, [_external_sort] returns the array in
    non-decreasing order with exactly its elements: it merges the
    sorted chunks of 512 values that it reads back from the temporary
    file. *)
Theorem external_sort_sorts (env : Env) (arr : list Q) :
  Sorted Qle (_external_sort env Float64 arr)
  /\ Permutation (_external_sort env Float64 arr) arr
  /\ length (_external_sort env Float64 arr) = length arr.
Proof.
  split; [apply external_sort_sorted|].
  split; [apply external_sort_perm|].
  apply Permutation_length, external_sort_perm.
Qed.

(** X10.  [_parallel_sort] raises [ZeroDivisionError] on an empty
    array on a machine with at least one core (the chunk size is
    [min(0, 10000)], and [len(arr) // chunk_size] divides by it);
    whenever it returns, the result is the array in non-decreasing
    order and the input array is as it was. *)
Theorem parallel_sort_sorts_or_divides_by_zero (env : Env) (cfg : Config)
        (s : State) :
  (1 <= cpu_count env ->
   _parallel_sort env cfg [] s = (inl ZeroDivisionError, s))
  /\ forall (arr : list Q) (r : list Q * SortStats) (s' : State),
      _parallel_sort env cfg arr s = (inr r, s') ->
      Sorted Qle (fst r) /\ Permutation (fst r) arr
      /\ input_array s' = input_array s.
Proof.
  split.
  - intros Hcpu. unfold _parallel_sort, _adaptive_chunk_size.
    cbn [length]. unfold itemsize.
    replace (Z.of_nat 0 * Z.of_nat 8 <? cpu_count env * 2 ^ 20) with true
      by (symmetry; apply Z.ltb_lt; lia).
    reflexivity.
  - intros arr r s' H.
    split; [exact (parallel_sort_sorted env cfg arr s r s' H)|].
    split; [exact (parallel_sort_perm env cfg arr s r s' H)|].
    exact (preserves_ok _ _ _ _ (preserves_parallel_sort env cfg arr) H).
Qed.

Lemma parallel_sort_sorts_or_divides_by_zero_witness :
  let env := example_env (fun _ => 0%nat) 0 in
  let cfg := forced PARALLEL None false 10000 in
  _parallel_sort env cfg [] (__init__ cfg) = (inl ZeroDivisionError, __init__ cfg)
  /\ Sorted Qle [1; 2; 3]%Q.
Proof.
  cbv zeta.
  destruct (parallel_sort_sorts_or_divides_by_zero
              (example_env (fun _ => 0%nat) 0)
              (forced PARALLEL None false 10000)
              (__init__ (forced PARALLEL None false 10000))) as [H0 H1].
  split.
  - apply H0. vm_compute. discriminate.
  - apply (H1 [3; 1; 2]%Q
              ([1; 2; 3]%Q,
               mkStats 3 [2%nat] "parallel" "quicksort" 0 1 false "None")
              (__init__ (forced PARALLEL None false 10000))).
    vm_compute. reflexivity.
Defined.

(** X11.  Whenever [_adaptive_sort] returns, its array is
    non-decreasing, whichever of its three branches ran; below 1000
    elements it holds exactly the elements of the input; the input
    array is as it was. *)
Theorem adaptive_sort_sorts (env : Env) (cfg : Config) (arr : list Q)
        (s s' : State) (r : list Q * SortStats) :
  _adaptive_sort env cfg arr s = (inr r, s') ->
  Sorted Qle (fst r)
  /\ ((length arr < 1000)%nat -> Permutation (fst r) arr)
  /\ input_array s' = input_array s.
Proof.
  intros H.
  split; [exact (adaptive_sort_sorted env cfg arr s r s' H)|].
  split.
  - intros Hlen. exact (adaptive_sort_perm env cfg arr Hlen s r s' H).
  - exact (preserves_ok _ _ _ _ (preserves_adaptive_sort env cfg arr) H).
Qed.

Lemma adaptive_sort_sorts_witness :
  Sorted Qle [1; 2; 3]%Q /\ Permutation [1; 2; 3]%Q [3; 1; 2]%Q.
Proof.
  destruct (adaptive_sort_sorts
              (example_env (fun _ => 0%nat) 0)
              (forced ADAPTIVE None false 10000)
              [3; 1; 2]%Q
              (__init__ (forced ADAPTIVE None false 10000))
              (snd (_adaptive_sort (example_env (fun _ => 0%nat) 0)
                                   (forced ADAPTIVE None false 10000)
                                   [3; 1; 2]%Q
                                   (__init__ (forced ADAPTIVE None false 10000))))
              ([1; 2; 3]%Q,
               mkStats 3 [2%nat] "adaptive" "mergesort" 0 1 false "None"))
    as (Hs & Hp & _).
  - vm_compute. reflexivity.
  - split; [exact Hs|]. apply Hp. simpl. lia.
Defined.

(** X12.  From 1000 elements on, the partitions of
    [_advanced_partition] hold exactly the elements strictly below the
    maximum: every occurrence of the maximum is left out, so the
    partitions are always short of the array; no partition is empty,
    and sorting each and concatenating gives a non-decreasing array. *)
Theorem advanced_partition_keeps_all_but_the_maximum (arr : list Q) (m : Q) :
  (1000 <= length arr)%nat ->
  np.max arr = ok m ->
  let parts := Algo._advanced_partition arr in
  Permutation (concat parts) (below m arr)
  /\ (length (concat parts) < length arr)%nat
  /\ Forall (fun part => part <> []) parts
  /\ Sorted Qle (concat (map np.sort parts)).
Proof.
  intros Hlen Hmax. cbv zeta.
  destruct (advanced_partition_spec arr m Hlen Hmax) as (Hp & Hne & Hs).
  split; [exact Hp|]. split; [|split; [exact Hne|exact Hs]].
  rewrite (Permutation_length Hp).
  destruct arr as [|a rest]; [discriminate|].
  cbn [np.max] in Hmax. unfold ok in Hmax. injection Hmax as <-.
  apply below_shorter.
Qed.

Lemma advanced_partition_keeps_all_but_the_maximum_witness :
  Permutation (concat (Algo._advanced_partition (descending 1000)))
              (below 999 (descending 1000))
  /\ (length (concat (Algo._advanced_partition (descending 1000)))
      < length (descending 1000))%nat.
Proof.
  destruct (advanced_partition_keeps_all_but_the_maximum
              (descending 1000) 999%Q) as (Hp & Hl & _).
  - unfold descending, arange.
    rewrite length_rev, length_map, length_seq. apply le_n.
  - vm_compute. reflexivity.
  - split; [exact Hp|exact Hl].
Defined.

(** X13.  From 1000 elements on, [_hybrid_sort] either returns the
    elements strictly below the maximum in non-decreasing order, the
    maximum itself being lost, or, when every element equals the
    maximum and no partition is left, raises [ValueError] from
    [np.concatenate]. *)
Theorem hybrid_sort_loses_every_maximum (arr : list Q) (m : Q) :
  (1000 <= length arr)%nat ->
  np.max arr = ok m ->
  match Algo._hybrid_sort arr with
  | inr r =>
    Sorted Qle r /\ Permutation r (below m arr)
    /\ (length r < length arr)%nat
  | inl e => e = ValueError /\ Forall (fun x => x == m)%Q arr
  end.
Proof.
  intros Hlen Hmax.
  pose proof (hybrid_sort_spec arr m Hlen Hmax) as H.
  destruct (Algo._hybrid_sort arr) as [e|r]; [exact H|].
  destruct H as (Hs & Hp & _).
  split; [exact Hs|]. split; [exact Hp|].
  rewrite (Permutation_length Hp).
  destruct arr as [|a rest]; [discriminate|].
  cbn [np.max] in Hmax. unfold ok in Hmax. injection Hmax as <-.
  apply below_shorter.
Qed.

Lemma hybrid_sort_loses_every_maximum_witness :
  Algo._hybrid_sort (descending 1000) = ok (arange 999)
  /\ Algo._hybrid_sort (repeat 5%Q 1000) = raise ValueError.
Proof.
  split.
  - pose proof (hybrid_sort_loses_every_maximum (descending 1000) 999%Q) as H.
    assert (E : Algo._hybrid_sort (descending 1000) = ok (arange 999))
      by (vm_compute; reflexivity).
    rewrite E in H. exact E.
  - pose proof (hybrid_sort_loses_every_maximum (repeat 5%Q 1000) 5%Q) as H.
    destruct (Algo._hybrid_sort (repeat 5%Q 1000)) as [e|r] eqn:E.
    + destruct H as [-> _].
      * rewrite repeat_length. apply le_n.
      * vm_compute. reflexivity.
      * reflexivity.
    + exfalso. vm_compute in E. discriminate.
Defined.

(** ** Block sort: which blocks are clustered *)









(** X15.  [BlockManager]: merging the blocks of a split gives the
    array back.  The split makes [max(1, len(arr) // block_size)]
    blocks, so [block_size] is the least size of a block, not the
    greatest: an array of at least [block_size] elements is cut into
    blocks of [block_size] to [2 * block_size - 1] elements. *)
Theorem blocks_split_and_merge (block_size_ : nat) (arr : list Q)
        (blocks : list (list Q)) :
  Pure.split_into_blocks block_size_ arr = ok blocks ->
  Pure.merge_blocks blocks = arr
  /\ length blocks = Nat.max 1 (length arr / block_size_)
  /\ ((block_size_ <= length arr)%nat ->
      Forall (fun b => (block_size_ <= length b < 2 * block_size_)%nat)
             blocks).
Proof.
  unfold Pure.split_into_blocks.
  destruct block_size_ as [|bs]; [discriminate|]. intros H.
  set (n := length arr) in *. set (b := S bs) in *.
  destruct (array_split_lengths _ _ _ H) as [Hlen Hall].
  split; [|split].
  - rewrite merge_blocks_concat. exact (array_split_concat _ _ _ H).
  - exact Hlen.
  - intros Hn.
    assert (Hk : Nat.max 1 (n / b) = (n / b)%nat).
    { assert (1 <= n / b)%nat by (apply Nat.div_le_lower_bound; lia). lia. }
    rewrite Hk in Hall.
    eapply Forall_impl; [exact Hall|]. intros blk Hblk. cbv beta in Hblk.
    apply (block_size_bounds n b (length blk)); [lia|exact Hn|exact Hblk].
Qed.

Lemma blocks_split_and_merge_witness :
  Pure.split_into_blocks 3 [1; 2; 3; 4; 5; 6; 7; 8]%Q
  = ok [[1; 2; 3; 4]; [5; 6; 7; 8]]%Q
  /\ Pure.merge_blocks [[1; 2; 3; 4]; [5; 6; 7; 8]]%Q
     = [1; 2; 3; 4; 5; 6; 7; 8]%Q.
Proof.
  assert (E : Pure.split_into_blocks 3 [1; 2; 3; 4; 5; 6; 7; 8]%Q
              = ok [[1; 2; 3; 4]; [5; 6; 7; 8]]%Q) by reflexivity.
  split; [exact E|].
  exact (proj1 (blocks_split_and_merge 3 _ _ E)).
Defined.

(** * Further properties of the stream processor and the cache *)

Lemma calculate_stats_small (env : Env) (arr : list Q)
      (strategy_ algorithm : string) (stream_chunks_ : nat)
      (compression_ratio_ : Q) (error_detected_ : bool) (s : State) :
  arr <> [] ->
  (length arr < 1000)%nat ->
  exists distribution : list nat,
    _calculate_stats env arr strategy_ algorithm false stream_chunks_
                     compression_ratio_ error_detected_ s
    = (inr (mkStats (length arr) distribution strategy_ algorithm
                    stream_chunks_ compression_ratio_ error_detected_
                    "None"), s).
Proof.
  intros Hne Hlen. destruct arr as [|a arr]; [contradiction|].
  unfold _calculate_stats, _get_bucket_distribution, _optimize_bucket_count.
  replace (length (a :: arr) <? 1000)%nat with true
    by (symmetry; apply Nat.ltb_lt; exact Hlen).
  unfold np.min, np.max, bind, ret, lift, ok.
  eexists. reflexivity.
Qed.

Lemma process_stream_short (data_stream : list Q) (sp : StreamProcessor.t) :
  let b := StreamProcessor.buffer sp in
  Deque.items b ++ data_stream <> [] ->
  (length (Deque.items b) + length data_stream
   < Nat.min (StreamProcessor.chunk_size sp) (Deque.maxlen b))%nat ->
  StreamProcessor.process_stream data_stream sp
  = (StreamProcessor.mk
       (StreamProcessor.chunk_size sp)
       (Deque.mk (Deque.maxlen b) (Deque.items b ++ data_stream))
       (S (StreamProcessor.chunks_processed sp))
       (StreamProcessor.last_chunk_size sp)
       (Deque.append (length (Deque.items b ++ data_stream))
                     (StreamProcessor.chunk_history sp)),
     [np.sort (Deque.items b ++ data_stream)]).
Proof.
  intros b Hne Hlen. unfold StreamProcessor.process_stream.
  rewrite process_items_short by exact Hlen. fold b.
  unfold StreamProcessor.finish.
  cbn [StreamProcessor.buffer Deque.items Deque.maxlen
       StreamProcessor.chunk_size StreamProcessor.chunks_processed
       StreamProcessor.last_chunk_size StreamProcessor.chunk_history].
  destruct (Deque.items b ++ data_stream) as [|y l] eqn:E; [contradiction|].
  unfold Deque.len. cbn [Deque.items StreamProcessor.emit app]. reflexivity.
Qed.

(** X16.  A [StreamProcessor] built with a chunk size of 1000 or more
    loses nothing of a stream: its windows, concatenated, are a
    permutation of the stream, each window is sorted, the chunk size
    stays what it was (the regression over equal window sizes predicts
    that size), and [chunks_processed] counts the windows. *)
Theorem stream_windows_keep_every_element (c : nat) (data_stream : list Q) :
  (1000 <= c)%nat ->
  let '(sp, windows) :=
    StreamProcessor.process_stream data_stream (StreamProcessor.__init__ c) in
  Permutation (concat windows) data_stream
  /\ Forall (Sorted Qle) windows
  /\ StreamProcessor.chunk_size sp = c
  /\ StreamProcessor.chunks_processed sp = length windows.
Proof.
  intros Hc.
  pose proof (process_stream_steady c data_stream (StreamProcessor.__init__ c)
                                    Hc (init_steady c ltac:(lia))) as H.
  destruct (StreamProcessor.process_stream data_stream
                                           (StreamProcessor.__init__ c))
    as [sp windows].
  exact H.
Qed.

Lemma stream_windows_keep_every_element_witness :
  let '(sp, windows) :=
    StreamProcessor.process_stream [3; 1; 2]%Q (StreamProcessor.__init__ 1000) in
  Permutation (concat windows) [3; 1; 2]%Q
  /\ Forall (Sorted Qle) windows
  /\ StreamProcessor.chunk_size sp = 1000%nat
  /\ StreamProcessor.chunks_processed sp = length windows.
Proof.
  apply (stream_windows_keep_every_element 1000 [3; 1; 2]%Q). apply le_n.
Defined.

(** X17.  The buffer of a [StreamProcessor] is not cleared after the
    last, partial window: a processor that has served a stream shorter
    than its chunk size still holds it, and the window of the next
    stream contains the elements of both. *)
Theorem stream_buffer_leaks_into_next_stream (c : nat)
        (first second : list Q) :
  first <> [] ->
  (length first + length second < c)%nat ->
  let '(sp1, windows1) :=
    StreamProcessor.process_stream first (StreamProcessor.__init__ c) in
  let '(sp2, windows2) := StreamProcessor.process_stream second sp1 in
  windows1 = [np.sort first]
  /\ windows2 = [np.sort (first ++ second)]
  /\ StreamProcessor.chunks_processed sp2 = 2%nat.
Proof.
  intros Hne Hlen.
  rewrite (process_stream_short first (StreamProcessor.__init__ c))
    by first [exact Hne | simpl; rewrite Nat.min_id; lia].
  cbn [StreamProcessor.__init__ StreamProcessor.buffer Deque.items Deque.maxlen
       Deque.empty StreamProcessor.chunk_size StreamProcessor.chunks_processed
       StreamProcessor.last_chunk_size StreamProcessor.chunk_history app].
  rewrite process_stream_short.
  - cbn [StreamProcessor.buffer Deque.items]. repeat split.
  - cbn [StreamProcessor.buffer Deque.items]. intros E.
    apply app_eq_nil in E as [E _]. contradiction.
  - cbn [StreamProcessor.buffer StreamProcessor.chunk_size Deque.items
         Deque.maxlen]. rewrite Nat.min_id. lia.
Qed.

Lemma stream_buffer_leaks_into_next_stream_witness :
  let '(sp1, windows1) :=
    StreamProcessor.process_stream [3; 1]%Q (StreamProcessor.__init__ 1000) in
  let '(sp2, windows2) := StreamProcessor.process_stream [2]%Q sp1 in
  windows1 = [[1; 3]%Q] /\ windows2 = [[1; 2; 3]%Q].
Proof.
  pose proof (stream_buffer_leaks_into_next_stream 1000 [3; 1]%Q [2]%Q
                ltac:(discriminate) ltac:(simpl; lia)) as H.
  destruct (StreamProcessor.process_stream [3; 1]%Q
                                           (StreamProcessor.__init__ 1000))
    as [sp1 windows1].
  destruct (StreamProcessor.process_stream [2]%Q sp1) as [sp2 windows2].
  destruct H as (H1 & H2 & _). split; [exact H1|exact H2].
Defined.

(** X18.  On the stream path (a generator, or stream mode), a fresh
    engine given a non-empty stream shorter than both its chunk size
    and 1000 returns the stream sorted, as one chunk, with the
    statistics of a stream sort. *)
Theorem sort_of_short_stream (env : Env) (cfg : Config) (x : sort_input) :
  streamed cfg x ->
  input_values x <> [] ->
  (length (input_values x) < Nat.min (stream_chunk_size cfg) 1000)%nat ->
  exists (stats : SortStats) (s' : State),
    sort env cfg x (__init__ cfg)
    = (inr (WithStats (np.sort (input_values x)) stats), s')
    /\ Sorted Qle (np.sort (input_values x))
    /\ Permutation (np.sort (input_values x)) (input_values x)
    /\ strategy_used stats = "stream"%string
    /\ algorithm_used stats = "timsort"%string
    /\ stream_chunks stats = 1%nat
    /\ items_processed stats = length (input_values x)
    /\ error_detected stats = false.
Proof.
  intros Hstream Hne Hlen.
  set (items := input_values x) in *.
  assert (Hsort : sort env cfg x (__init__ cfg)
                  = (let* (r, stats) := _stream_sort_and_collect env items in
                     ret (WithStats r stats)) (__init__ cfg)).
  { unfold sort. fold items. destruct x as [l|dt a|g]; try reflexivity;
      simpl in Hstream; now rewrite Hstream. }
  rewrite Hsort. clear Hsort.
  unfold _stream_sort_and_collect, run_stream_processor.
  unfold bind at 1 2.
  cbn [__init__ stream_processor]. fold (stream_chunk_size cfg).
  set (c := stream_chunk_size cfg) in *.
  rewrite (process_stream_short items (StreamProcessor.__init__ c))
    by first [exact Hne | simpl; rewrite Nat.min_id; lia].
  cbn [StreamProcessor.__init__ StreamProcessor.buffer Deque.items Deque.maxlen
       Deque.empty StreamProcessor.chunk_size StreamProcessor.chunks_processed
       StreamProcessor.last_chunk_size StreamProcessor.chunk_history app].
  unfold ok at 1. cbv iota beta. cbn [concat]. rewrite app_nil_r.
  unfold bind at 1. unfold chunks_processed_now at 1.
  unfold ok at 1. cbv iota beta.
  cbn [stream_processor StreamProcessor.chunks_processed].
  assert (Hsl : length (np.sort items) = length items) by apply sort_length.
  unfold bind at 1.
  match goal with
  | |- context [_calculate_stats env _ _ _ false _ _ false ?st] =>
    destruct (calculate_stats_small env (np.sort items) "stream" "timsort"
                                    1 1 false st) as (d & Hd)
  end.
  { intros E. rewrite E in Hsl. destruct items; [contradiction|discriminate]. }
  { lia. }
  rewrite Hd. unfold ret.
  eexists _, _. split; [reflexivity|].
  cbn [strategy_used algorithm_used stream_chunks items_processed
       error_detected].
  split; [apply sort_sorted|]. split; [apply sort_perm|].
  repeat split. exact Hsl.
Qed.

Lemma sort_of_short_stream_witness :
  exists (stats : SortStats) (s' : State),
    sort (example_env (fun _ => 0%nat) 0) default_config
         (PyGenerator [3; 1; 2]%Q) (__init__ default_config)
    = (inr (WithStats (np.sort [3; 1; 2]%Q) stats), s')
    /\ stream_chunks stats = 1%nat.
Proof.
  destruct (sort_of_short_stream
              (example_env (fun _ => 0%nat) 0) default_config
              (PyGenerator [3; 1; 2]%Q))
    as (stats & s' & H & _ & _ & _ & _ & Hc & _).
  - exact I.
  - discriminate.
  - simpl. lia.
  - exists stats, s'. split; [exact H|exact Hc].
Defined.

(** X19.  Written to with distinct keys and never read, an
    [AdaptiveCache] of capacity [m >= 1] is a first-in first-out
    store: no [put] fails, and after any number of them the cache
    holds exactly the last [m] entries, which are also the keys its
    access history tracks. *)
Theorem cache_keeps_newest_distinct_puts {V : Type} (m : nat)
        (kvs : list (key * V)) :
  (1 <= m)%nat ->
  NoDup kvs.*1 ->
  exists c : AdaptiveCache.t V,
    put_all kvs (AdaptiveCache.__init__ m) = inr c
    /\ AdaptiveCache.cache c = list_to_map (drop (length kvs - m) kvs)
    /\ Deque.items (AdaptiveCache._access_history c)
       = (drop (length kvs - m) kvs).*1
    /\ dict_len (AdaptiveCache.cache c) = Nat.min m (length kvs).
Proof.
  intros Hm Hnd.
  destruct (put_all_fifo m kvs Hm [] (AdaptiveCache.__init__ m))
    as (c & Hput & (_ & _ & Hitems & Hcache)).
  - unfold holds_fifo. simpl. repeat split.
  - exact Hnd.
  - simpl. lia.
  - cbn [app] in *. exists c. split; [exact Hput|]. split; [exact Hcache|].
    split; [exact Hitems|].
    unfold dict_len. rewrite Hcache, map_size_list_to_map.
    + rewrite length_drop. lia.
    + rewrite fmap_drop. rewrite <- (take_drop (length kvs - m) (kvs.*1)) in Hnd.
      now apply NoDup_app in Hnd as (_ & _ & Hnd).
Qed.

Lemma cache_keeps_newest_distinct_puts_witness :
  exists c : AdaptiveCache.t nat,
    put_all [(inr "a"%string, 1%nat); (inr "b"%string, 2%nat);
             (inr "c"%string, 3%nat)]
            (AdaptiveCache.__init__ 2) = inr c
    /\ AdaptiveCache.cache c
       = list_to_map [(inr "b"%string, 2%nat); (inr "c"%string, 3%nat)].
Proof.
  destruct (cache_keeps_newest_distinct_puts
              2 [(inr "a"%string, 1%nat); (inr "b"%string, 2%nat);
                 (inr "c"%string, 3%nat)])
    as (c & Hput & Hcache & _).
  - apply le_S, le_n.
  - apply (bool_decide_unpack _). vm_compute. reflexivity.
  - exists c. split; [exact Hput|exact Hcache].
Defined.

(** X20.  For a key that [get] was never asked for, [get] after [put]
    returns the stored value and counts a hit; asked again, it returns
    the value from the table of [lru_cache] and the hit is not
    counted. *)
Theorem cache_get_after_put_of_fresh_key {V : Type} (k : key) (v : V)
        (c c' : AdaptiveCache.t V) :
  AdaptiveCache.memo_find k (AdaptiveCache.get_memo c) = None ->
  AdaptiveCache.put k v c = inr c' ->
  let '(r1, c1) := AdaptiveCache.get k c' in
  let '(r2, c2) := AdaptiveCache.get k c1 in
  r1 = Some v /\ r2 = Some v
  /\ AdaptiveCache.hits c1 = S (AdaptiveCache.hits c')
  /\ AdaptiveCache.hits c2 = AdaptiveCache.hits c1
  /\ AdaptiveCache.cache c2 = AdaptiveCache.cache c'.
Proof.
  intros Hmemo Hput.
  destruct (put_stores k v c c' Hput) as (Hk & Hm & _).
  unfold AdaptiveCache.get at 1. rewrite Hm, Hmemo.
  unfold AdaptiveCache.get_body. rewrite Hk.
  cbn [AdaptiveCache.get_memo AdaptiveCache.with_memo AdaptiveCache.hits
       AdaptiveCache.cache AdaptiveCache.size AdaptiveCache.misses
       AdaptiveCache._access_history AdaptiveCache.min_size].
  unfold AdaptiveCache.get, AdaptiveCache.lru_maxsize.
  cbn [AdaptiveCache.get_memo AdaptiveCache.with_memo take
       AdaptiveCache.memo_find].
  destruct (decide (k = k)) as [_|Hne]; [|contradiction].
  cbn [AdaptiveCache.hits AdaptiveCache.with_memo AdaptiveCache.cache].
  repeat split.
Qed.

Lemma cache_get_after_put_of_fresh_key_witness :
  match AdaptiveCache.put (inr "k"%string) 7%nat (AdaptiveCache.__init__ 2) with
  | inl _ => False
  | inr c' =>
    let '(r1, c1) := AdaptiveCache.get (inr "k"%string) c' in
    let '(r2, c2) := AdaptiveCache.get (inr "k"%string) c1 in
    r1 = Some 7%nat /\ r2 = Some 7%nat
    /\ AdaptiveCache.hits c1 = 1%nat /\ AdaptiveCache.hits c2 = 1%nat
  end.
Proof.
  destruct (AdaptiveCache.put (inr "k"%string) 7%nat (AdaptiveCache.__init__ 2))
    as [e|c'] eqn:E; [discriminate|].
  pose proof (cache_get_after_put_of_fresh_key
                (inr "k"%string) 7%nat (AdaptiveCache.__init__ 2) c'
                eq_refl E) as H.
  assert (Hh : AdaptiveCache.hits c' = 0%nat).
  { vm_compute in E. injection E as <-. reflexivity. }
  destruct (AdaptiveCache.get (inr "k"%string) c') as [r1 c1].
  destruct (AdaptiveCache.get (inr "k"%string) c1) as [r2 c2].
  destruct H as (H1 & H2 & H3 & H4 & _).
  rewrite Hh in H3. rewrite H3 in H4.
  split; [exact H1|]. split; [exact H2|]. split; [exact H3|exact H4].
Defined.

(** * Further properties of [sort] and of the statistics *)



(** X22.  The strategy [sort] selects.  An array longer than
    [external_sort_threshold] goes to [EXTERNAL_SORT] and nothing is
    sampled.  Otherwise, with the predictor on, the strategy is one of
    the six the predictor names; with [AUTO], one of the five the rules
    name, never [EXTERNAL_SORT], whose rule repeats the test on the
    threshold that has just failed; any other configured strategy is
    taken as it is. *)
Theorem select_strategy_cases (env : Env) (cfg : Config) (arr : list Q)
        (s s' : State) (st : SortStrategy) :
  select_strategy env cfg arr s = (inr st, s') ->
  (external_sort_threshold cfg < Z.of_nat (length arr) ->
   st = EXTERNAL_SORT /\ s' = s)
  /\ (Z.of_nat (length arr) <= external_sort_threshold cfg ->
      (use_ml_prediction cfg = true -> In st predicted_strategies)
      /\ (use_ml_prediction cfg = false ->
          (strategy cfg = AUTO ->
           In st rule_strategies /\ st <> EXTERNAL_SORT)
          /\ (strategy cfg <> AUTO -> st = strategy cfg /\ s' = s))).
Proof.
  intros H. unfold select_strategy in H. split.
  - intros Hlt. apply Z.ltb_lt in Hlt. rewrite Hlt in H.
    unfold ret, ok in H. injection H as <- <-. now split.
  - intros Hle. apply Z.ltb_ge in Hle. rewrite Hle in H. split.
    + intros Hml. rewrite Hml in H.
      exact (predict_strategy_range env cfg arr Hml _ _ _ H).
    + intros Hml. rewrite Hml in H. split.
      * intros Hauto. rewrite Hauto in H.
        destruct (choose_optimal_strategy_range env cfg arr _ _ _ H)
          as [Hin Hext].
        split; [exact Hin|]. intros ->. apply Z.ltb_ge in Hle.
        specialize (Hext eq_refl). lia.
      * intros Hauto.
        destruct (strategy cfg); try contradiction;
          unfold ret, ok in H; injection H as <- <-; now split.
Qed.

Lemma select_strategy_cases_witness :
  let env := example_env (fun _ => 0%nat) 4 in
  let cfg := mkConfig HYBRID None 2000 (8 # 10) false 4096 true 10000 100000 in
  select_strategy env cfg [3; 1; 2]%Q (__init__ cfg)
  = (inr RADIX_SORT, snd (select_strategy env cfg [3; 1; 2]%Q (__init__ cfg)))
  /\ In RADIX_SORT predicted_strategies.
Proof.
  cbv zeta.
  assert (E : select_strategy
                (example_env (fun _ => 0%nat) 4)
                (mkConfig HYBRID None 2000 (8 # 10) false 4096 true 10000
                          100000)
                [3; 1; 2]%Q
                (__init__ (mkConfig HYBRID None 2000 (8 # 10) false 4096 true
                                    10000 100000))
              = (inr RADIX_SORT,
                 snd (select_strategy
                        (example_env (fun _ => 0%nat) 4)
                        (mkConfig HYBRID None 2000 (8 # 10) false 4096 true
                                  10000 100000)
                        [3; 1; 2]%Q
                        (__init__ (mkConfig HYBRID None 2000 (8 # 10) false
                                            4096 true 10000 100000)))))
    by (vm_compute; reflexivity).
  split; [exact E|].
  pose proof (select_strategy_cases _ _ _ _ _ _ E) as [_ H].
  apply H; [vm_compute; discriminate|reflexivity].
Defined.

(** X23.  [sort] lets no exception out for a list or an array: it
    always returns, and when the body of its [try] block raises, what
    it returns is the original array (the copy of a list, or the array
    object as the failed strategy left it) with the statistics of a
    failed sort: no bucket distribution, strategy ["failed"], algorithm
    ["none"], [error_detected] set. *)
Theorem sort_reports_failure_instead_of_raising
        (env : Env) (cfg : Config) (x : sort_input) (s : State) :
  stream_mode cfg = false ->
  is_array x ->
  exists (r : SortResult) (s' : State),
    sort env cfg x s = (inr r, s')
    /\ forall (e : exn) (s1 : State),
        sort_body env cfg (input_dtype x) (input_values x) s = (inl e, s1) ->
        r = WithStats (original_arr x s1)
                      (failed_stats (length (original_arr x s1)))
        /\ s' = s1.
Proof.
  intros Hmode Hx. rewrite (sort_of_array env cfg x s Hmode Hx).
  unfold try_except.
  destruct (sort_body env cfg (input_dtype x) (input_values x) s)
    as [[e|r] s1].
  - rewrite sort_failed_spec. eexists _, _. split; [reflexivity|].
    intros e' s1' E. injection E as _ <-. now split.
  - exists r, s1. split; [reflexivity|]. intros e' s1' E. discriminate.
Qed.

Lemma sort_reports_failure_instead_of_raising_witness :
  exists (r : SortResult) (s' : State),
    sort (example_env (fun _ => 0%nat) 0) default_config
         (PyList [3; 1; 2]%Q) (__init__ default_config) = (inr r, s').
Proof.
  destruct (sort_reports_failure_instead_of_raising
              (example_env (fun _ => 0%nat) 0) default_config
              (PyList [3; 1; 2]%Q) (__init__ default_config) eq_refl I)
    as (r & s' & H & _).
  exists r, s'. exact H.
Defined.

(** X24.  An empty list or array cannot be sorted when the strategy is
    chosen by the rules or by the predictor: [np.ptp] of the empty
    sample raises (or [np.random.choice] does), and [sort] returns the
    empty array with the statistics of a failed sort. *)
Theorem sort_of_empty_array_fails
        (env : Env) (cfg : Config) (x : sort_input) (s : State) :
  stream_mode cfg = false ->
  is_array x ->
  input_values x = [] ->
  0 <= external_sort_threshold cfg ->
  use_ml_prediction cfg = true \/ strategy cfg = AUTO ->
  exists s' : State,
    sort env cfg x s = (inr (WithStats [] (failed_stats 0)), s').
Proof.
  intros Hmode Hx Hnil Hthr Hauto.
  rewrite (sort_of_array env cfg x s Hmode Hx). rewrite Hnil.
  unfold try_except, sort_body. unfold bind at 1.
  unfold set_input at 1. unfold ok at 1. cbv iota beta.
  set (s0 := {| cache := cache s; stream_processor := stream_processor s;
                rng_calls := rng_calls s; input_array := [] |}).
  unfold bind at 1.
  destruct (select_strategy_empty env cfg s0 Hthr Hauto) as (e & s1 & E).
  pose proof (preserves_select_strategy env cfg [] s0) as Hin.
  rewrite E in *. cbn [snd] in Hin.
  rewrite sort_failed_spec.
  assert (Horig : original_arr x s1 = []).
  { destruct x as [l|dt a|g]; simpl in *; [exact Hnil|exact Hin|destruct Hx]. }
  rewrite Horig. now exists s1.
Qed.

Lemma sort_of_empty_array_fails_witness :
  exists s' : State,
    sort (example_env (fun _ => 0%nat) 0) default_config (PyList [])
         (__init__ default_config)
    = (inr (WithStats [] (failed_stats 0)), s').
Proof.
  apply (sort_of_empty_array_fails
           (example_env (fun _ => 0%nat) 0) default_config (PyList [])
           (__init__ default_config)).
  - reflexivity.
  - exact I.
  - reflexivity.
  - vm_compute. discriminate.
  - right. reflexivity.
Defined.

(** X25.  The verification at the end of [sort] can only fail after
    [RADIX_SORT], after [COMPRESSION_SORT], or after the
    [EXTERNAL_SORT] of an array that is not a [float64] array (whose
    bytes the chunks read back as [float64] values).  What any other
    strategy hands to the verification is in non-decreasing order, and
    is returned as it is, the fallback not being taken. *)
Theorem verified_strategies_do_not_fall_back
        (env : Env) (cfg : Config) (st : SortStrategy) (dt : dtype)
        (arr : list Q) (s s' : State) (r : SortResult) :
  dispatch env cfg st dt arr s = (inr (Computed r), s') ->
  st <> RADIX_SORT ->
  st <> COMPRESSION_SORT ->
  (st = EXTERNAL_SORT -> dt = Float64) ->
  Sorted Qle (result_array r)
  /\ verify_or_fall_back env r s' = (inr r, s').
Proof.
  intros H Hr Hc Hdt.
  pose proof (dispatch_sorted env cfg st dt arr s s' r H Hr Hc Hdt) as Hs.
  split; [exact Hs|]. unfold verify_or_fall_back.
  apply is_sorted_true in Hs. rewrite Hs. reflexivity.
Qed.

Lemma verified_strategies_do_not_fall_back_witness :
  let env := example_env (fun _ => 0%nat) 0 in
  let cfg := forced BUCKET_SORT None false 10000 in
  exists (r : SortResult) (s' : State),
    dispatch env cfg BUCKET_SORT Float64 [3; 1; 2]%Q (__init__ cfg)
    = (inr (Computed r), s')
    /\ result_array r = [1; 2; 3]%Q
    /\ verify_or_fall_back env r s' = (inr r, s').
Proof.
  cbv zeta.
  destruct (dispatch (example_env (fun _ => 0%nat) 0)
                     (forced BUCKET_SORT None false 10000) BUCKET_SORT Float64
                     [3; 1; 2]%Q
                     (__init__ (forced BUCKET_SORT None false 10000)))
    as [[e|[r|r]] s'] eqn:E; try (vm_compute in E; discriminate).
  exists r, s'. split; [reflexivity|].
  destruct (verified_strategies_do_not_fall_back
              (example_env (fun _ => 0%nat) 0)
              (forced BUCKET_SORT None false 10000) BUCKET_SORT Float64
              [3; 1; 2]%Q (__init__ (forced BUCKET_SORT None false 10000))
              s' r E ltac:(discriminate) ltac:(discriminate)
              ltac:(discriminate)) as [_ Hv].
  split; [|exact Hv].
  vm_compute in E. injection E as <- _. reflexivity.
Defined.

(** X26.  With [use_ml_prediction] set, the [strategy] an engine is
    configured with has no effect at all: the engine starts in the same
    state and [sort] returns the same result and leaves the same state,
    whatever the input.  (Without the predictor, a configured strategy
    other than [AUTO] is the one that runs, see above.) *)
Theorem predictor_overrides_configured_strategy
        (env : Env) (cfg : Config) (st : SortStrategy) (x : sort_input)
        (s : State) :
  use_ml_prediction cfg = true ->
  sort env (with_strategy st cfg) x s = sort env cfg x s
  /\ __init__ (with_strategy st cfg) = __init__ cfg.
Proof.
  intros Hml. destruct cfg as [st0 cs ca at_ sm bs ml ct et].
  cbn [use_ml_prediction] in Hml. subst ml.
  unfold with_strategy.
  cbn [chunk_size cache_size adaptive_threshold stream_mode block_size
       use_ml_prediction compression_threshold external_sort_threshold].
  split; [|reflexivity].
  unfold sort.
  cbn [stream_mode].
  destruct (match x with PyGenerator _ => true | _ => sm end); [reflexivity|].
  unfold try_except, sort_body, bind.
  destruct (set_input (input_values x) s) as [[e|[]] s1]; [reflexivity|].
  assert (Hsel : forall st1,
             select_strategy env (mkConfig st1 cs ca at_ sm bs true ct et)
                             (input_values x) s1
             = select_strategy env (mkConfig st0 cs ca at_ sm bs true ct et)
                               (input_values x) s1).
  { intros st1. unfold select_strategy.
    cbn [external_sort_threshold use_ml_prediction].
    destruct (_ <? _); [reflexivity|].
    unfold _predict_strategy. cbn [use_ml_prediction negb]. reflexivity. }
  rewrite Hsel.
  destruct (select_strategy _ _ _ _) as [[e|st2] s2]; [reflexivity|].
  assert (Hd : dispatch env (mkConfig st cs ca at_ sm bs true ct et) st2
                        (input_dtype x) (input_values x) s2
               = dispatch env (mkConfig st0 cs ca at_ sm bs true ct et) st2
                          (input_dtype x) (input_values x) s2).
  { destruct st2; reflexivity. }
  rewrite Hd. reflexivity.
Qed.

Lemma predictor_overrides_configured_strategy_witness :
  let env := example_env (fun _ => 0%nat) 0 in
  let cfg := mkConfig HYBRID None 2000 (8 # 10) false 4096 true 10000 100000 in
  sort env (with_strategy BUCKET_SORT cfg) (PyList [3; 1; 2]%Q) (__init__ cfg)
  = sort env cfg (PyList [3; 1; 2]%Q) (__init__ cfg).
Proof.
  cbv zeta.
  apply (predictor_overrides_configured_strategy
           (example_env (fun _ => 0%nat) 0)
           (mkConfig HYBRID None 2000 (8 # 10) false 4096 true 10000 100000)
           BUCKET_SORT (PyList [3; 1; 2]%Q)
           (__init__ (mkConfig HYBRID None 2000 (8 # 10) false 4096 true
                               10000 100000))).
  reflexivity.
Defined.
